(** * airbnb-market-analyzer: the cleaning pipeline and the analyzers

    A shallow embedding of [src/data_cleaner.py] and of the analyzers
    [src/analyzers/competitive.py], [src/analyzers/seasonality.py] and
    [src/analyzers/market_overview.py].

    Modelling conventions.
    - A pandas [DataFrame] is a list of column names and a list of rows; a row
      maps column names to cells.  Frames live in a store ([heap]) and Python
      variables hold references ([loc]), so that [df.copy()], the frames
      returned by [dropna] or boolean indexing, and the in-place assignment
      [df[col] = ...] are told apart.
    - A cell is a Python scalar or a list of strings.  pandas' missing markers
      ([NaN], [None], [NaT]) are one value, the float [fnan].
    - A float is an exact rational, an infinity or NaN: comparisons, NaN
      propagation, division by zero and truthiness are those of numpy's
      float64; rounding, overflow and the sign of zero are not modelled.
    - Strings are sequences of ASCII characters.
    - Python exceptions are values of [exn]; code that can raise returns a
      [result].
    - The wall clock, [json.loads] and pandas' date parser are inputs of the
      model, grouped in [Env]. *)

From Stdlib Require Import ZArith QArith Qreduction Qcanon Ascii String List Lia Bool.
From stdpp Require Import gmap strings list.

Local Open Scope string_scope.
Local Open Scope list_scope.
Local Open Scope Z_scope.

(** ** Exceptions *)

Inductive exn :=
| KeyError (key : string)
| TypeError
| ValueError.

Inductive result (A : Type) :=
| Ok (a : A)
| Raise (e : exn).
Arguments Ok {A} a.
Arguments Raise {A} e.

Definition result_bind {A B} (m : result A) (k : A → result B) : result B :=
  match m with
  | Ok a => k a
  | Raise e => Raise e
  end.

#[global] Instance result_mret : MRet result := λ A a, Ok a.
#[global] Instance result_mbind : MBind result := λ A B k m, result_bind m k.

(** [[f(x) for x in l]], stopping at the first exception. *)
Fixpoint mapR {A B} (f : A → result B) (l : list A) : result (list B) :=
  match l with
  | [] => Ok []
  | x :: l' =>
      match f x with
      | Ok y => match mapR f l' with Ok ys => Ok (y :: ys) | Raise e => Raise e end
      | Raise e => Raise e
      end
  end.

(** ** Floats *)

Module PyFloat.

Inductive float :=
| fnan
| finf (neg : bool)
| fnum (q : Q).

Definition Qneg (q : Q) : bool := (Qnum q <? 0)%Z.
Definition Qzero (q : Q) : bool := (Qnum q =? 0)%Z.

Definition fneg (x : float) : float :=
  match x with
  | fnan => fnan
  | finf s => finf (negb s)
  | fnum q => fnum (Qred (- q))
  end.

Definition fadd (x y : float) : float :=
  match x, y with
  | fnan, _ | _, fnan => fnan
  | finf s, finf t => if Bool.eqb s t then finf s else fnan
  | finf s, fnum _ | fnum _, finf s => finf s
  | fnum a, fnum b => fnum (Qred (a + b))
  end.

Definition fsub (x y : float) : float := fadd x (fneg y).

Definition fmul (x y : float) : float :=
  match x, y with
  | fnan, _ | _, fnan => fnan
  | finf s, finf t => finf (xorb s t)
  | finf s, fnum q | fnum q, finf s =>
      if Qzero q then fnan else finf (xorb s (Qneg q))
  | fnum a, fnum b => fnum (Qred (a * b))
  end.

(** numpy division: a division by zero is an infinity or NaN, never an
    exception. *)
Definition fdiv (x y : float) : float :=
  match x, y with
  | fnan, _ | _, fnan => fnan
  | finf _, finf _ => fnan
  | finf s, fnum q => finf (xorb s (Qneg q))
  | fnum _, finf _ => fnum 0
  | fnum a, fnum b =>
      if Qzero b then (if Qzero a then fnan else finf (Qneg a))
      else fnum (Qred (a / b))
  end.

Definition fle (x y : float) : bool :=
  match x, y with
  | fnan, _ | _, fnan => false
  | finf s, finf t => s || negb t
  | finf s, fnum _ => s
  | fnum _, finf t => negb t
  | fnum a, fnum b => Qle_bool a b
  end.

Definition feq (x y : float) : bool :=
  match x, y with
  | finf s, finf t => Bool.eqb s t
  | fnum a, fnum b => Qeq_bool a b
  | _, _ => false
  end.

Definition flt (x y : float) : bool := fle x y && negb (feq x y).
Definition fge (x y : float) : bool := fle y x.
Definition fgt (x y : float) : bool := flt y x.

(** [bool(x)]: false for zero only; NaN is truthy. *)
Definition truthy (x : float) : bool :=
  match x with
  | fnum q => negb (Qzero q)
  | _ => true
  end.

Definition of_Z (z : Z) : float := fnum (inject_Z z).
Definition of_nat (n : nat) : float := of_Z (Z.of_nat n).

Definition fsum (l : list float) : float := fold_left fadd l (fnum 0).

(** [Series.mean()] of values without missing entries: NaN when empty. *)
Definition fmean (l : list float) : float :=
  match l with
  | [] => fnan
  | _ => fdiv (fsum l) (of_nat (length l))
  end.

Fixpoint finsert (x : float) (l : list float) : list float :=
  match l with
  | [] => [x]
  | y :: l' => if fle x y then x :: l else y :: finsert x l'
  end.

Definition fsort (l : list float) : list float := fold_right finsert [] l.

(** [Series.median()] of values without missing entries. *)
Definition fmedian (l : list float) : float :=
  let s := fsort l in
  let n := length s in
  match n with
  | O => fnan
  | _ =>
      if Nat.even n
      then fdiv (fadd (nth (n / 2 - 1) s fnan) (nth (n / 2) s fnan)) (of_Z 2)
      else nth (n / 2) s fnan
  end.

End PyFloat.
Export PyFloat.

(** ** Text: the string methods and the float literal grammar *)

Module Text.

Definition code (c : ascii) : Z := Z.of_N (N_of_ascii c).

(** ASCII characters on which [str.isspace] holds. *)
Definition is_space (c : ascii) : bool :=
  let n := code c in
  ((9 <=? n) && (n <=? 13)) || ((28 <=? n) && (n <=? 32)).

Definition is_digit (c : ascii) : bool :=
  let n := code c in (48 <=? n) && (n <=? 57).

Definition digit_of (c : ascii) : Z := code c - 48.

Definition digit_char (d : Z) : ascii := ascii_of_N (Z.to_N (48 + d)).

Definition lower (c : ascii) : ascii :=
  let n := code c in
  if (65 <=? n) && (n <=? 90) then ascii_of_N (Z.to_N (n + 32)) else c.

Fixpoint lstrip (s : list ascii) : list ascii :=
  match s with
  | c :: s' => if is_space c then lstrip s' else s
  | [] => []
  end.

Definition rstrip (s : list ascii) : list ascii := rev (lstrip (rev s)).

(** [s.strip()] *)
Definition strip (s : list ascii) : list ascii := rstrip (lstrip s).

(** [s.replace(old, new)] for a one-character [old]. *)
Fixpoint replace (old : ascii) (new : list ascii) (s : list ascii) : list ascii :=
  match s with
  | [] => []
  | c :: s' =>
      if Ascii.eqb c old then new ++ replace old new s' else c :: replace old new s'
  end.

(** The value of a digit string, most significant digit first. *)
Definition dval (ds : list ascii) : Z :=
  fold_left (λ a c, 10 * a + digit_of c) ds 0.

(** [digitpart ::= digit (["_"] digit)*]; the digits, underscores removed. *)
Fixpoint digitpart_aux (after_digit : bool) (s : list ascii) : option (list ascii) :=
  match s with
  | [] => if after_digit then Some [] else None
  | c :: s' =>
      if is_digit c then
        match digitpart_aux true s' with
        | Some ds => Some (c :: ds)
        | None => None
        end
      else if Ascii.eqb c "_" && after_digit then digitpart_aux false s'
      else None
  end.

Definition digitpart (s : list ascii) : option (list ascii) :=
  digitpart_aux false s.

(** The text before the first character on which [p] holds, and the text
    after it when there is one. *)
Fixpoint split_at (p : ascii → bool) (s : list ascii)
  : list ascii * option (list ascii) :=
  match s with
  | [] => ([], None)
  | c :: s' =>
      if p c then ([], Some s')
      else let '(a, b) := split_at p s' in (c :: a, b)
  end.

Definition parse_sign (s : list ascii) : bool * list ascii :=
  match s with
  | c :: r =>
      if Ascii.eqb c "-" then (true, r)
      else if Ascii.eqb c "+" then (false, r)
      else (false, s)
  | [] => (false, s)
  end.

Definition opt_digitpart (s : list ascii) : option (list ascii) :=
  match s with
  | [] => Some []
  | _ => digitpart s
  end.

(** [number ::= [digitpart] "." digitpart | digitpart ["."]]: the digits
    before and after the point. *)
Definition parse_number (s : list ascii) : option (list ascii * list ascii) :=
  match split_at (Ascii.eqb ".") s with
  | (ip, None) =>
      match digitpart ip with
      | Some ds => Some (ds, [])
      | None => None
      end
  | (ip, Some fp) =>
      match ip, fp with
      | [], [] => None
      | _, _ =>
          match opt_digitpart ip, opt_digitpart fp with
          | Some a, Some b => Some (a, b)
          | _, _ => None
          end
      end
  end.

(** [exponent ::= ("e" | "E") [sign] digitpart] *)
Definition parse_exponent (s : list ascii) : option Z :=
  let '(neg, ds) := parse_sign s in
  match digitpart ds with
  | Some ds => Some (if neg then - dval ds else dval ds)
  | None => None
  end.

(** [m * 10 ^ ex] *)
Definition scale10 (m ex : Z) : Q :=
  if 0 <=? ex then inject_Z (m * 10 ^ ex)
  else Qmake m (Z.to_pos (10 ^ (- ex))).

Definition is_e (c : ascii) : bool := Ascii.eqb c "e" || Ascii.eqb c "E".

(** [floatnumber ::= number [exponent]] *)
Definition parse_floatnumber (s : list ascii) : option Q :=
  let '(mant, ex) := split_at is_e s in
  match parse_number mant with
  | None => None
  | Some (ip, fp) =>
      let e := match ex with
               | None => Some 0
               | Some r => parse_exponent r
               end in
      match e with
      | None => None
      | Some e => Some (scale10 (dval (ip ++ fp)) (e - Z.of_nat (length fp)))
      end
  end.

Definition ascii_list_eqb (a b : list ascii) : bool :=
  bool_decide (a = b).

(** [float(s)] on a string: [None] stands for [ValueError]. *)
Definition float_of_chars (s : list ascii) : option float :=
  let '(neg, r) := parse_sign (strip s) in
  let lr := map lower r in
  if ascii_list_eqb lr (list_ascii_of_string "inf")
     || ascii_list_eqb lr (list_ascii_of_string "infinity")
  then Some (finf neg)
  else if ascii_list_eqb lr (list_ascii_of_string "nan") then Some fnan
  else
    match parse_floatnumber r with
    | Some q => Some (fnum (Qred (if neg then - q else q)))
    | None => None
    end.

(** Decimal digits of a natural number. *)
Fixpoint to_digits_aux (fuel : nat) (n : Z) : list ascii :=
  match fuel with
  | O => []
  | S f =>
      if n <? 10 then [digit_char n]
      else to_digits_aux f (n / 10) ++ [digit_char (n mod 10)]
  end.

Definition to_digits (n : Z) : list ascii :=
  to_digits_aux (S (Z.to_nat (Z.log2 n))) n.

(** [str(z)] for an [int] *)
Definition chars_of_Z (z : Z) : list ascii :=
  if z <? 0 then "-"%char :: to_digits (- z) else to_digits z.

Fixpoint drop_zeros (s : list ascii) : list ascii :=
  match s with
  | c :: s' => if Ascii.eqb c "0" then drop_zeros s' else s
  | [] => []
  end.

Definition rstrip_zeros (s : list ascii) : list ascii := rev (drop_zeros (rev s)).

Definition zeros (n : Z) : list ascii := List.repeat "0"%char (Z.to_nat n).

Definition pad2 (s : list ascii) : list ascii :=
  match s with
  | [c] => ["0"%char; c]
  | _ => s
  end.

(** The number of fractional digits to which a rational is expanded: enough
    for every decimal fraction, and so for every binary64 value. *)
Definition frac_digits (q : Q) : Z := Z.log2 (Z.pos (Qden q)) + 17.

(** [repr] of a positive float with digit string [ds] and [k] fractional
    digits: fixed notation when the decimal point lies in (-4, 16], else
    scientific notation with an exponent of two digits at least. *)
Definition repr_digits (ds : list ascii) (k : Z) : list ascii :=
  let D := rstrip_zeros ds in
  let n := Z.of_nat (length D) in
  let decpt := Z.of_nat (length ds) - k in
  if (-4 <? decpt) && (decpt <=? 16) then
    if decpt <=? 0 then
      "0"%char :: "."%char :: zeros (- decpt) ++ D
    else if decpt <? n then
      take (Z.to_nat decpt) D ++ "."%char :: drop (Z.to_nat decpt) D
    else D ++ zeros (decpt - n) ++ ["."%char; "0"%char]
  else
    take 1 D
      ++ (match drop 1 D with [] => [] | r => "."%char :: r end)
      ++ "e"%char :: (if decpt - 1 <? 0 then "-"%char else "+"%char)
      :: pad2 (to_digits (Z.abs (decpt - 1))).

(** [repr(x)] for a [float] *)
Definition chars_of_float (x : float) : list ascii :=
  match x with
  | fnan => list_ascii_of_string "nan"
  | finf false => list_ascii_of_string "inf"
  | finf true => list_ascii_of_string "-inf"
  | fnum q =>
      if Qzero q then list_ascii_of_string "0.0"
      else
        let k := frac_digits q in
        let m := Z.abs (Qnum q) * 10 ^ k / Z.pos (Qden q) in
        (if Qneg q then ["-"%char] else []) ++ repr_digits (to_digits m) k
  end.

(** A rational with a finite decimal expansion, in lowest terms. *)
Definition is_decimal (q : Q) : Prop :=
  Qred q = q ∧ (Z.pos (Qden q) | 10 ^ frac_digits q).

End Text.

(** The string functions on [string]. *)
Definition str_replace (old : ascii) (new : string) (s : string) : string :=
  string_of_list_ascii
    (Text.replace old (list_ascii_of_string new) (list_ascii_of_string s)).
Definition str_strip (s : string) : string :=
  string_of_list_ascii (Text.strip (list_ascii_of_string s)).
Definition py_float (s : string) : option float :=
  Text.float_of_chars (list_ascii_of_string s).
Definition str_of_float (x : float) : string :=
  string_of_list_ascii (Text.chars_of_float x).
Definition str_of_Z (z : Z) : string :=
  string_of_list_ascii (Text.chars_of_Z z).

(** ** Cells *)

(** A cell of a frame: a Python scalar, or the list of strings of the
    [amenities_list] column.  [VDate d] is the calendar date [d] days after
    1970-01-01. *)
Inductive value :=
| VFloat (x : float)
| VInt (z : Z)
| VStr (s : string)
| VBool (b : bool)
| VList (l : list string)
| VDate (d : Z).

Abbreviation NaN := (VFloat fnan).

(** [pd.isna(v)] on a scalar *)
Definition isna (v : value) : bool :=
  match v with
  | VFloat fnan => true
  | _ => false
  end.

(** The truth value of [pd.isna(v)] in an [if]: on a list [pd.isna] is an
    array, whose truth value is defined for one element only. *)
Definition isna_truth (v : value) : result bool :=
  match v with
  | VList [_] => Ok false
  | VList _ => Raise ValueError
  | _ => Ok (isna v)
  end.

Definition is_numeric (v : value) : bool :=
  match v with
  | VFloat _ | VInt _ | VBool _ => true
  | _ => false
  end.

(** The number a cell stands for in arithmetic and comparisons; [bool] is a
    subtype of [int]. *)
Definition to_float (v : value) : result float :=
  match v with
  | VFloat x => Ok x
  | VInt z => Ok (of_Z z)
  | VBool b => Ok (of_Z (if b then 1 else 0))
  | _ => Raise TypeError
  end.

(** Python's [==] *)
Definition py_eq (a b : value) : bool :=
  match a, b with
  | VStr s, VStr t => String.eqb s t
  | VList l, VList m => bool_decide (l = m)
  | VDate d, VDate e => (d =? e)%Z
  | _, _ =>
      match to_float a, to_float b with
      | Ok x, Ok y => feq x y
      | _, _ => false
      end
  end.

(** Equality of keys in pandas' hash tables ([duplicated], [groupby],
    [value_counts], [isin]): [==], and missing keys are equal to each other. *)
Definition key_eq (a b : value) : bool :=
  (isna a && isna b) || py_eq a b.

(** A comparison of a cell with a number, as in [series >= bound]. *)
Definition cmp (op : float → float → bool) (bound : float) (v : value)
  : result bool :=
  x ← to_float v; Ok (op x bound).

Definition v_sub (a b : value) : result value :=
  match a, b with
  | VInt x, VInt y => Ok (VInt (x - y))
  | _, _ => x ← to_float a; y ← to_float b; Ok (VFloat (fsub x y))
  end.

Definition v_mul (a b : value) : result value :=
  match a, b with
  | VInt x, VInt y => Ok (VInt (x * y))
  | _, _ => x ← to_float a; y ← to_float b; Ok (VFloat (fmul x y))
  end.

Definition v_div (a b : value) : result value :=
  x ← to_float a; y ← to_float b; Ok (VFloat (fdiv x y)).

(** *** Calendar dates *)

(** Month (1..12) of the date [d] days after 1970-01-01, in the proleptic
    Gregorian calendar. *)
Definition month_of_day (d : Z) : Z :=
  let z := d + 719468 in
  let era := z / 146097 in
  let doe := z - era * 146097 in
  let yoe := (doe - doe / 1460 + doe / 36524 - doe / 146096) / 365 in
  let doy := doe - (365 * yoe + yoe / 4 - yoe / 100) in
  let mp := (5 * doy + 2) / 153 in
  if mp <? 10 then mp + 3 else mp - 9.

Definition year_of_day (d : Z) : Z :=
  let z := d + 719468 in
  let era := z / 146097 in
  let doe := z - era * 146097 in
  let yoe := (doe - doe / 1460 + doe / 36524 - doe / 146096) / 365 in
  let doy := doe - (365 * yoe + yoe / 4 - yoe / 100) in
  let mp := (5 * doy + 2) / 153 in
  yoe + era * 400 + (if mp <? 10 then 0 else 1).

Definition mday_of_day (d : Z) : Z :=
  let z := d + 719468 in
  let era := z / 146097 in
  let doe := z - era * 146097 in
  let yoe := (doe - doe / 1460 + doe / 36524 - doe / 146096) / 365 in
  let doy := doe - (365 * yoe + yoe / 4 - yoe / 100) in
  let mp := (5 * doy + 2) / 153 in
  doy - (153 * mp + 2) / 5 + 1.

(** [dt.dayofweek]: 0 is Monday; 1970-01-01 was a Thursday. *)
Definition dayofweek (d : Z) : Z := (d + 3) mod 7.

(** *** [str] *)

Definition pad_left (n : nat) (s : list ascii) : list ascii :=
  List.repeat "0"%char (n - length s) ++ s.

Definition chars_of_date (d : Z) : list ascii :=
  Text.chars_of_Z (year_of_day d) ++ "-"%char
    :: pad_left 2 (Text.chars_of_Z (month_of_day d)) ++ "-"%char
    :: pad_left 2 (Text.chars_of_Z (mday_of_day d))
    ++ list_ascii_of_string " 00:00:00".

Fixpoint join (sep : string) (l : list string) : string :=
  match l with
  | [] => ""
  | [s] => s
  | s :: l' => String.append s (String.append sep (join sep l'))
  end.

(** [str(v)]; the elements of a list are quoted without escapes. *)
Definition py_str (v : value) : string :=
  match v with
  | VFloat x => str_of_float x
  | VInt z => str_of_Z z
  | VStr s => s
  | VBool true => "True"
  | VBool false => "False"
  | VList l =>
      String.append "[" (String.append
        (join ", " (map (λ s : string, String.append "'" (String.append s "'")) l)) "]")
  | VDate d => string_of_list_ascii (chars_of_date d)
  end.

(** ** data_cleaner.py: price helper *)

(** [clean_price]: the price as a float; missing for a missing or
    unparseable value. *)
Definition clean_price (price_str : value) : result value :=
  na ← isna_truth price_str;
  if (na : bool) then Ok NaN
  else
    let s := str_strip (str_replace "," "" (str_replace "$" "" (py_str price_str))) in
    match py_float s with
    | Some x => Ok (VFloat x)
    | None => Ok NaN
    end.

(** ** Frames *)

Abbreviation row := (gmap string value).

Record DataFrame := {
  columns : list string;
  rows : list row;
}.

(** The cell of a row in a column; a row that holds nothing there reads as
    missing. *)
Definition cell (c : string) (r : row) : value := default NaN (r !! c).

(** [c in df.columns] *)
Definition has_col (c : string) (T : DataFrame) : bool :=
  bool_decide (c ∈ columns T).

(** [df[c]]: the column as a list of cells, [KeyError] when absent. *)
Definition df_col (c : string) (T : DataFrame) : result (list value) :=
  if has_col c T then Ok (map (cell c) (rows T)) else Raise (KeyError c).

(** The frame after [df[c] = vals]; a new column goes last. *)
Definition df_set (c : string) (vals : list value) (T : DataFrame) : DataFrame :=
  {| columns := if has_col c T then columns T else columns T ++ [c];
     rows := zip_with (λ (r : row) v, <[c := v]> r) (rows T) vals |}.

(** [l[mask]]: the entries at which the mask is true. *)
Fixpoint select {A} (mask : list bool) (l : list A) : list A :=
  match mask, l with
  | b :: mask', x :: l' => if b then x :: select mask' l' else select mask' l'
  | _, _ => []
  end.

(** [df[mask]] *)
Definition df_select (mask : list bool) (T : DataFrame) : DataFrame :=
  {| columns := columns T; rows := select mask (rows T) |}.

(** [df.dropna(subset=cols)] *)
Definition dropna (subset : list string) (T : DataFrame) : DataFrame :=
  {| columns := columns T;
     rows := List.filter (λ r, forallb (λ c, negb (isna (cell c r))) subset) (rows T) |}.

(** Rows whose key was not seen before, in order. *)
Fixpoint dedup (key : string) (seen : list value) (rs : list row) : list row :=
  match rs with
  | [] => []
  | r :: rs' =>
      let k := cell key r in
      if existsb (key_eq k) seen then dedup key seen rs'
      else r :: dedup key (k :: seen) rs'
  end.

(** [df.drop_duplicates(subset=[key], keep="first")] *)
Definition drop_duplicates (key : string) (T : DataFrame) : result DataFrame :=
  if has_col key T
  then Ok {| columns := columns T; rows := dedup key [] (rows T) |}
  else Raise (KeyError key).

(** [series.fillna(other)] with an aligned series, and with a scalar. *)
Definition fillna_with (vals other : list value) : list value :=
  zip_with (λ v o, if isna v then o else v) vals other.
Definition fillna (c : value) (vals : list value) : list value :=
  map (λ v, if isna v then c else v) vals.

(** The numbers of a column without its missing entries; [TypeError] on a
    cell that is no number. *)
Definition numbers (vals : list value) : result (list float) :=
  mapR to_float (List.filter (λ v, negb (isna v)) vals).

(** The rows of the group of key [k] in a [groupby(key)]. *)
Definition group_rows (key : string) (k : value) (rs : list row) : list row :=
  List.filter (λ r, negb (isna (cell key r)) && key_eq (cell key r) k) rs.

(** The distinct keys of [groupby(key)] in order of first occurrence; rows
    with a missing key belong to no group. *)
Fixpoint distinct_keys (seen : list value) (ks : list value) : list value :=
  match ks with
  | [] => []
  | k :: ks' =>
      if isna k || existsb (key_eq k) seen then distinct_keys seen ks'
      else k :: distinct_keys (k :: seen) ks'
  end.

(** The order in which pandas sorts an index: numbers by value, strings and
    dates by their own order. *)
Definition v_le (a b : value) : bool :=
  match a, b with
  | VStr s, VStr t => String.leb s t
  | VDate d, VDate e => (d <=? e)%Z
  | _, _ =>
      match to_float a, to_float b with
      | Ok x, Ok y => fle x y
      | _, _ => true
      end
  end.

Fixpoint vinsert (x : value) (l : list value) : list value :=
  match l with
  | [] => [x]
  | y :: l' => if v_le x y then x :: l else y :: vinsert x l'
  end.

Definition vsort (l : list value) : list value := fold_right vinsert [] l.

(** The index of [df.groupby(key)]: the distinct keys, sorted. *)
Definition group_keys (key : string) (rs : list row) : list value :=
  vsort (distinct_keys [] (map (cell key) rs)).

(** [df.groupby(key)[c].transform("median")]: for each row the median of
    its group, missing for a row of no group. *)
Definition groupby_transform_median (key c : string) (T : DataFrame)
  : result (list value) :=
  if negb (has_col key T) then Raise (KeyError key)
  else if negb (has_col c T) then Raise (KeyError c)
  else
    mapR (λ r,
      if isna (cell key r) then Ok NaN
      else
        xs ← numbers (map (cell c) (group_rows key (cell key r) (rows T)));
        Ok (VFloat (fmedian xs)))
      (rows T).

(** ** The store *)

Definition loc := positive.
Abbreviation heap := (gmap loc DataFrame).

(** A computation on the store: its outcome and the store it leaves. *)
Definition M (A : Type) : Type := heap → result A * heap.

#[global] Instance M_mret : MRet M := λ A a σ, (Ok a, σ).
#[global] Instance M_mbind : MBind M := λ A B k m σ,
  match m σ with
  | (Ok a, σ') => k a σ'
  | (Raise e, σ') => (Raise e, σ')
  end.

Definition lift {A} (r : result A) : M A := λ σ, (r, σ).

(** A new object holding [T]. *)
Definition alloc (T : DataFrame) : M loc :=
  λ σ, let l := fresh (dom σ) in (Ok l, <[l := T]> σ).

(** The frame a reference points to.  [ValueError] stands for a reference
    to no object, which no Python variable is. *)
Definition load (l : loc) : M DataFrame :=
  λ σ, match σ !! l with
       | Some T => (Ok T, σ)
       | None => (Raise ValueError, σ)
       end.

(** In-place update of the object. *)
Definition store (l : loc) (T : DataFrame) : M unit :=
  λ σ, (Ok (), <[l := T]> σ).

(** [df.copy()] *)
Definition copy (df : loc) : M loc := T ← load df; alloc T.

(** [df[c] = vals], in place. *)
Definition setitem (df : loc) (c : string) (vals : list value) : M unit :=
  T ← load df; store df (df_set c vals T).

(** [if c in df.columns: body] *)
Definition when_col (df : loc) (c : string) (body : M unit) : M unit :=
  T ← load df; if has_col c T then body else mret ().

(** ** Configuration and environment *)

Record Segment := {
  seg_min : float;
  seg_max : float;
  seg_label : string;
}.

(** The entries of [settings.yaml] the code reads; [segments] is the
    mapping [analysis.segments] in declaration order. *)
Record Config := {
  price_min : float;
  price_max : float;
  min_reviews : float;
  segments : list (string * Segment);
  high_season_months : list Z;
  low_season_months : list Z;
  top_neighborhoods : Z;
}.

#[local] Unset Elimination Schemes.
Inductive json :=
| JNull
| JBool (b : bool)
| JInt (z : Z)
| JFloat (x : float)
| JStr (s : string)
| JArr (l : list json)
| JObj (l : list (string * json)).
#[local] Set Elimination Schemes.

(** What the code takes from outside: the day [pd.Timestamp.now()] falls on,
    [json.loads] ([None] for [JSONDecodeError]), the date parser behind
    [pd.to_datetime] ([None] for an unparseable string), [repr] of a nested
    JSON value, and the square root. *)
Record Env := {
  today : Z;
  json_loads : string → option json;
  strptime : string → option Z;
  repr_json : json → string;
  fsqrt : float → float;
}.

(** ** data_cleaner.py *)

Module Cleaner.

(** Truth value of a parsed JSON value. *)
Definition json_truthy (a : json) : bool :=
  match a with
  | JNull => false
  | JBool b => b
  | JInt z => negb (z =? 0)
  | JFloat x => truthy x
  | JStr s => negb (String.eqb s "")
  | JArr l => match l with [] => false | _ => true end
  | JObj l => match l with [] => false | _ => true end
  end.

(** [str(a)] for an element of the parsed array. *)
Definition json_str (env : Env) (a : json) : string :=
  match a with
  | JNull => "None"
  | JBool true => "True"
  | JBool false => "False"
  | JInt z => str_of_Z z
  | JFloat x => str_of_float x
  | JStr s => s
  | _ => repr_json env a
  end.

(** [parse_amenities]: the names in a JSON array string; empty for a
    missing value, a value that is no JSON, or JSON that is no array. *)
Definition parse_amenities (env : Env) (amenities_str : value) : result (list string) :=
  na ← isna_truth amenities_str;
  if (na : bool) then Ok []
  else
    match amenities_str with
    | VStr s =>
        match json_loads env s with
        | Some (JArr parsed) =>
            Ok (map (λ a, str_strip (json_str env a)) (List.filter json_truthy parsed))
        | Some _ => Ok []
        | None => Ok []
        end
    | _ => Ok []
    end.

(** [remove_duplicates] *)
Definition remove_duplicates (df : loc) : M loc :=
  T ← load df;
  T' ← lift (drop_duplicates "id" T);
  alloc T'.

(** The body of the loop over [bedrooms] and [beds]. *)
Definition fill_with_group_median (df : loc) (col : string) : M unit :=
  when_col df col
    (T ← load df;
     vals ← lift (df_col col T);
     medians ← lift (groupby_transform_median "room_type" col T);
     setitem df col (fillna (VFloat (of_Z 1)) (fillna_with vals medians))).

(** [handle_missing_values] *)
Definition handle_missing_values (df : loc) : M loc :=
  let critical := ["id"; "price"; "latitude"; "longitude"] in
  T ← load df;
  df ← alloc (dropna (List.filter (λ c, has_col c T) critical) T);
  fill_with_group_median df "bedrooms";;
  fill_with_group_median df "beds";;
  mret df.

(** [filter_active_listings] *)
Definition filter_active_listings (df : loc) (config : Config) : M loc :=
  (* Price bounds *)
  T ← load df;
  price ← lift (df_col "price" T);
  ge_min ← lift (mapR (cmp fge (price_min config)) price);
  le_max ← lift (mapR (cmp fle (price_max config)) price);
  df ← alloc (df_select (zip_with andb ge_min le_max) T);
  (* Activity: must have reviews OR availability *)
  T ← load df;
  reviews ← lift (df_col "number_of_reviews" T);
  has_reviews ← lift (mapR (cmp fge (min_reviews config)) reviews);
  has_availability ← lift
    (if has_col "availability_365" T
     then mapR (cmp fgt (of_Z 0)) (map (cell "availability_365") (rows T))
     else Ok (map (λ _, false) (rows T)));
  alloc (df_select (zip_with orb has_reviews has_availability) T).

(** [series.map({"t": True, "f": False})] *)
Definition map_tf (v : value) : value :=
  match v with
  | VStr s =>
      if String.eqb s "t" then VBool true
      else if String.eqb s "f" then VBool false
      else NaN
  | _ => NaN
  end.

Definition ns_per_day : Z := 86400000000000.

(** [pd.to_datetime(v, errors="coerce")] on a cell: a number counts
    nanoseconds from the epoch. *)
Definition to_datetime (env : Env) (v : value) : result value :=
  match v with
  | VDate d => Ok (VDate d)
  | VStr s =>
      match strptime env s with
      | Some d => Ok (VDate d)
      | None => Ok NaN
      end
  | VInt z => Ok (VDate (z / ns_per_day))
  | VFloat (fnum q) => Ok (VDate ((Qnum q / Z.pos (Qden q)) / ns_per_day))
  | VFloat _ => Ok NaN
  | VBool _ | VList _ => Raise TypeError
  end.

(** [(today - v).days] on a cell of a datetime column *)
Definition days_since (env : Env) (v : value) : result value :=
  match v with
  | VDate d => Ok (VInt (today env - d))
  | VFloat fnan => Ok NaN
  | _ => Raise TypeError
  end.

(** [series.replace(0, np.nan)] *)
Definition replace_zero (v : value) : value :=
  if py_eq v (VInt 0) then NaN else v.

Fixpoint zipR {A B C} (f : A → B → result C) (l : list A) (m : list B)
  : result (list C) :=
  match l, m with
  | x :: l', y :: m' =>
      match f x y with
      | Ok z => match zipR f l' m' with Ok zs => Ok (z :: zs) | Raise e => Raise e end
      | Raise e => Raise e
      end
  | _, _ => Ok []
  end.

(** [add_calculated_fields]: the columns are added to the frame passed. *)
Definition add_calculated_fields (env : Env) (df : loc) : M loc :=
  (* Price per person *)
  when_col df "accommodates"
    (T ← load df;
     price ← lift (df_col "price" T);
     acc ← lift (df_col "accommodates" T);
     ppp ← lift (zipR v_div price (map replace_zero acc));
     setitem df "price_per_person" ppp);;
  (* Estimated monthly revenue *)
  when_col df "availability_30"
    (T ← load df;
     av ← lift (df_col "availability_30" T);
     booked ← lift (mapR (v_sub (VInt 30)) av);
     setitem df "est_booked_30" booked;;
     T ← load df;
     price ← lift (df_col "price" T);
     booked ← lift (df_col "est_booked_30" T);
     rev ← lift (zipR v_mul price booked);
     setitem df "est_monthly_revenue" rev);;
  (* Review recency *)
  when_col df "last_review"
    (T ← load df;
     lr ← lift (df_col "last_review" T);
     dt ← lift (mapR (to_datetime env) lr);
     setitem df "last_review_dt" dt;;
     T ← load df;
     dt ← lift (df_col "last_review_dt" T);
     days ← lift (mapR (days_since env) dt);
     setitem df "days_since_review" days);;
  (* Boolean helpers *)
  when_col df "host_is_superhost"
    (T ← load df;
     v ← lift (df_col "host_is_superhost" T);
     setitem df "is_superhost" (map map_tf v));;
  when_col df "instant_bookable"
    (T ← load df;
     v ← lift (df_col "instant_bookable" T);
     setitem df "is_instant_bookable" (map map_tf v));;
  mret df.

(** [len(l)] of a list cell *)
Definition amenity_len (l : list string) : value := VInt (Z.of_nat (length l)).

(** [clean_listings]; [config] is what [load_config] read. *)
Definition clean_listings (env : Env) (config : Config) (df : loc) : M loc :=
  df ← copy df;
  (* 1. Remove duplicates *)
  df ← remove_duplicates df;
  (* 2. Normalize price *)
  (T ← load df;
   price ← lift (df_col "price" T);
   price ← lift (mapR clean_price price);
   setitem df "price" price);;
  (* 3. Handle missing values *)
  df ← handle_missing_values df;
  (* 4. Filter active listings *)
  df ← filter_active_listings df config;
  (* 5. Add calculated fields *)
  df ← add_calculated_fields env df;
  (* 6. Parse amenities *)
  when_col df "amenities"
    (T ← load df;
     am ← lift (df_col "amenities" T);
     lists ← lift (mapR (parse_amenities env) am);
     setitem df "amenities_list" (map VList lists);;
     setitem df "amenity_count" (map amenity_len lists));;
  mret df.

(** [pd.api.types.is_datetime64_any_dtype(series)] *)
Definition is_datetime (vals : list value) : bool :=
  forallb (λ v, match v with VDate _ | VFloat fnan => true | _ => false end) vals.

(** [dt.month], [dt.dayofweek] on a cell of a datetime column *)
Definition dt_month (v : value) : result value :=
  match v with
  | VDate d => Ok (VInt (month_of_day d))
  | VFloat fnan => Ok NaN
  | _ => Raise TypeError
  end.
Definition dt_dayofweek (v : value) : result value :=
  match v with
  | VDate d => Ok (VInt (dayofweek d))
  | VFloat fnan => Ok NaN
  | _ => Raise TypeError
  end.

(** [series.isin(l)] *)
Definition isin (l : list value) (v : value) : value :=
  VBool (existsb (key_eq v) l).

(** [clean_calendar] *)
Definition clean_calendar (env : Env) (df : loc) : M loc :=
  df ← copy df;
  (* Parse dates if not already datetime *)
  (T ← load df;
   date ← lift (df_col "date" T);
   if is_datetime date then mret ()
   else (dt ← lift (mapR (to_datetime env) date); setitem df "date" dt));;
  (* Clean price *)
  (T ← load df;
   price ← lift (df_col "price" T);
   price ← lift (mapR clean_price price);
   setitem df "price" price);;
  (* Convert available to boolean *)
  (T ← load df;
   av ← lift (df_col "available" T);
   setitem df "available" (map map_tf av));;
  (* Add time features *)
  (T ← load df;
   date ← lift (df_col "date" T);
   month ← lift (mapR dt_month date);
   setitem df "month" month);;
  (T ← load df;
   date ← lift (df_col "date" T);
   dow ← lift (mapR dt_dayofweek date);
   setitem df "day_of_week" dow);;
  (T ← load df;
   dow ← lift (df_col "day_of_week" T);
   setitem df "is_weekend" (map (isin [VInt 4; VInt 5]) dow));;
  (* Drop rows with no date *)
  T ← load df;
  alloc (dropna ["date"] T).

End Cleaner.

(** ** Aggregation helpers *)

(** [series.count()]: the entries that are not missing. *)
Definition count_notna (vals : list value) : Z :=
  Z.of_nat (length (List.filter (λ v, negb (isna v)) vals)).

(** [series.mean()], [series.median()]: missing entries are skipped. *)
Definition series_mean (vals : list value) : result float :=
  xs ← numbers vals; Ok (fmean xs).
Definition series_median (vals : list value) : result float :=
  xs ← numbers vals; Ok (fmedian xs).

(** [series.std()]: the sample standard deviation. *)
Definition series_std (env : Env) (vals : list value) : result float :=
  xs ← numbers vals;
  let m := fmean xs in
  let ss := fsum (map (λ x, fmul (fsub x m) (fsub x m)) xs) in
  Ok (fsqrt env (fdiv ss (fsub (of_nat (length xs)) (of_Z 1)))).

(** ** analyzers/competitive.py *)

Module Competitive.

Record CompetitiveAnalyzer := {
  self_df : loc;
  self_config : Config;
}.

Definition _segments (self : CompetitiveAnalyzer) : list (string * Segment) :=
  segments (self_config self).

(** [_assign_segment]; [scan] is the [for] loop over the segments still to
    try. *)
Fixpoint scan (segs : list (string * Segment)) (price : value) : result string :=
  match segs with
  | [] => Ok "Other"
  | (name, bounds) :: segs' =>
      p ← to_float price;
      if fle (seg_min bounds) p && flt p (seg_max bounds)
      then Ok (seg_label bounds)
      else scan segs' price
  end.

Definition _assign_segment (self : CompetitiveAnalyzer) (price : value)
  : result string :=
  scan (_segments self) price.

(** [add_segments_to_df] *)
Definition add_segments_to_df (self : CompetitiveAnalyzer) : M loc :=
  df ← copy (self_df self);
  (T ← load df;
   price ← lift (df_col "price" T);
   seg ← lift (mapR (_assign_segment self) price);
   setitem df "segment" (map VStr seg));;
  mret df.

(** The label of a cell of the [segment] column. *)
Definition label_of (v : value) : string :=
  match v with
  | VStr s => s
  | _ => ""
  end.

(** One row of the summary of [segment_by_price]. *)
Definition segment_row (T : DataFrame) (total : Z) (label : string)
  : result (string * row) :=
  let g := group_rows "segment" (VStr label) (rows T) in
  let listings := count_notna (map (cell "id") g) in
  avg_price ← series_mean (map (cell "price") g);
  median_price ← series_median (map (cell "price") g);
  avg_rating ← series_mean (map (cell "review_scores_rating") g);
  Ok (label,
      ({[ "listings" := VInt listings;
          "avg_price" := VFloat avg_price;
          "median_price" := VFloat median_price;
          "avg_rating" := VFloat avg_rating;
          "pct" := VFloat (fmul (fdiv (of_Z listings) (of_Z total)) (of_Z 100)) ]} : row)).

(** The index of [df.groupby("segment")]: the labels present, sorted. *)
Definition segment_index (T : DataFrame) : list string :=
  map label_of (group_keys "segment" (rows T)).

(** [summary.reindex(labels)]: the row of each label, a row of missing
    cells for a label that is not in the index. *)
Definition reindex (labels : list string) (summary : list (string * row))
  : list (string * row) :=
  map (λ o, (o, default ∅ (snd <$> List.find (λ p, String.eqb (fst p) o) summary)))
      labels.

(** [segment_by_price]: the summary as (label, row) pairs in index order. *)
Definition segment_by_price (self : CompetitiveAnalyzer)
  : M (list (string * row)) :=
  df ← copy (self_df self);
  (T ← load df;
   price ← lift (df_col "price" T);
   seg ← lift (mapR (_assign_segment self) price);
   setitem df "segment" (map VStr seg));;
  T ← load df;
  _ ← lift (df_col "id" T);
  _ ← lift (df_col "review_scores_rating" T);
  let index := segment_index T in
  let total :=
    fold_left Z.add
      (map (λ l, count_notna (map (cell "id") (group_rows "segment" (VStr l) (rows T)))) index) 0 in
  let order := map (λ s, seg_label (snd s)) (_segments self) in
  summary ← lift (mapR (segment_row T total) index);
  (* Reindex to keep segment order *)
  mret (reindex (List.filter (λ o, bool_decide (o ∈ index)) order) summary).

(** The aggregates of one group of [groupby("is_superhost")]. *)
Definition superhost_group (T : DataFrame) (k : value) : result row :=
  let g := group_rows "is_superhost" k (rows T) in
  avg_price ← series_mean (map (cell "price") g);
  median_price ← series_median (map (cell "price") g);
  avg_rating ← series_mean (map (cell "review_scores_rating") g);
  avg_reviews ← series_mean (map (cell "number_of_reviews") g);
  Ok ({[ "avg_price" := VFloat avg_price;
         "median_price" := VFloat median_price;
         "avg_rating" := VFloat avg_rating;
         "avg_reviews" := VFloat avg_reviews;
         "count" := VInt (count_notna (map (cell "id") g)) ]} : row).

(** [groups.loc[k]] *)
Fixpoint loc_row (k : value) (groups : list (value * row)) : row :=
  match groups with
  | [] => ∅
  | (k', r) :: groups' => if key_eq k' k then r else loc_row k groups'
  end.

Definition float_cell (c : string) (r : row) : float :=
  match cell c r with
  | VFloat x => x
  | _ => fnan
  end.

Definition insufficient : string := "Insufficient data for superhost comparison".

(** [get_superhost_premium] *)
Definition get_superhost_premium (self : CompetitiveAnalyzer) : M (gmap string value) :=
  T ← load (self_df self);
  if negb (has_col "is_superhost" T) then mret ∅
  else
    _ ← lift (df_col "price" T);
    _ ← lift (df_col "review_scores_rating" T);
    _ ← lift (df_col "number_of_reviews" T);
    _ ← lift (df_col "id" T);
    let index := group_keys "is_superhost" (rows T) in
    groups ← lift (mapR (λ k, r ← superhost_group T k; Ok (k, r)) index);
    if negb (existsb (key_eq (VBool true)) index)
       || negb (existsb (key_eq (VBool false)) index)
    then mret {[ "note" := VStr insufficient ]}
    else
      let sh := loc_row (VBool true) groups in
      let reg := loc_row (VBool false) groups in
      mret ({[ "superhost_avg_price" := cell "avg_price" sh;
               "regular_avg_price" := cell "avg_price" reg;
               "price_premium_pct" :=
                 VFloat (fmul (fdiv (fsub (float_cell "avg_price" sh)
                                          (float_cell "avg_price" reg))
                                    (float_cell "avg_price" reg)) (of_Z 100));
               "superhost_avg_rating" := cell "avg_rating" sh;
               "regular_avg_rating" := cell "avg_rating" reg;
               "superhost_count" := cell "count" sh;
               "regular_count" := cell "count" reg ]} : gmap string value).

End Competitive.

(** ** analyzers/market_overview.py *)

Module MarketOverview.

Record MarketOverviewAnalyzer := {
  self_df : loc;
  self_config : Config;
}.

(** [series.value_counts()]: each distinct key that is not missing with the
    number of its occurrences, most frequent first. *)
Fixpoint insert_count (x : value * Z) (l : list (value * Z)) : list (value * Z) :=
  match l with
  | [] => [x]
  | y :: l' => if (snd y <? snd x)%Z then x :: l else y :: insert_count x l'
  end.

Definition value_counts (vals : list value) : list (value * Z) :=
  fold_right insert_count []
    (map (λ k, (k, Z.of_nat (length (List.filter (key_eq k) vals))))
         (distinct_keys [] vals)).

Fixpoint insert_desc (x : float) (l : list float) : list float :=
  match l with
  | [] => [x]
  | y :: l' => if fle y x then x :: l else y :: insert_desc x l'
  end.

(** [series.nlargest(n)] *)
Definition nlargest (n : nat) (l : list float) : list float :=
  take n (fold_right insert_desc [] l).

(** The percentage shares [value_counts() / len(df) * 100]. *)
Definition host_shares (T : DataFrame) : list float :=
  map (λ kc, fmul (fdiv (of_Z (snd kc)) (of_nat (length (rows T)))) (of_Z 100))
      (value_counts (map (cell "host_id") (rows T))).

(** [get_market_concentration] *)
Definition get_market_concentration (self : MarketOverviewAnalyzer)
  : M (gmap string value) :=
  T ← load (self_df self);
  _ ← lift (df_col "host_id" T);
  let shares := host_shares T in
  let hhi := fsum (map (λ s, fmul s s) shares) in
  let top_10_share := fsum (nlargest 10 shares) in
  mret ({[ "hhi" := VFloat hhi;
           "top_10_host_share_pct" := VFloat top_10_share;
           "unique_hosts" :=
             VInt (Z.of_nat (length (distinct_keys [] (map (cell "host_id") (rows T))))) ]}
        : gmap string value).

End MarketOverview.

(** ** analyzers/seasonality.py *)

Module Seasonality.

Record SeasonalityAnalyzer := {
  self_listings : loc;
  self_calendar : loc;
  self_config : Config;
}.

(** One row of [get_price_by_month]. *)
Definition month_row (env : Env) (T : DataFrame) (k : value) : result row :=
  let prices := map (cell "price") (group_rows "month" k (rows T)) in
  avg ← series_mean prices;
  med ← series_median prices;
  std ← series_std env prices;
  Ok ({[ "month" := k;
         "avg_price" := VFloat avg;
         "median_price" := VFloat med;
         "std_price" := VFloat std;
         "observations" := VInt (count_notna prices) ]} : row).

(** [get_price_by_month]: the rows of the monthly table. *)
Definition get_price_by_month (env : Env) (self : SeasonalityAnalyzer)
  : M (list row) :=
  T ← load (self_calendar self);
  _ ← lift (df_col "price" T);
  let T := dropna ["price"] T in
  _ ← lift (df_col "month" T);
  lift (mapR (month_row env T) (group_keys "month" (rows T))).

Record PeakSeason := {
  ps_high_season_months : list Z;
  ps_low_season_months : list Z;
  high_season_avg_price : float;
  low_season_avg_price : float;
  seasonal_premium_pct : value;
}.

(** The mean of [avg_price] over the months of a season. *)
Definition season_avg (price_by_month : list row) (months : list Z) : result float :=
  series_mean
    (map (cell "avg_price")
       (List.filter (λ r, existsb (key_eq (cell "month" r)) (map VInt months))
          price_by_month)).

(** [identify_peak_season] *)
Definition identify_peak_season (env : Env) (self : SeasonalityAnalyzer)
  : M PeakSeason :=
  price_by_month ← get_price_by_month env self;
  let high_months := high_season_months (self_config self) in
  let low_months := low_season_months (self_config self) in
  high_avg ← lift (season_avg price_by_month high_months);
  low_avg ← lift (season_avg price_by_month low_months);
  let premium_pct :=
    if truthy low_avg
    then VFloat (fmul (fdiv (fsub high_avg low_avg) low_avg) (of_Z 100))
    else VInt 0 in
  mret {| ps_high_season_months := high_months;
          ps_low_season_months := low_months;
          high_season_avg_price := high_avg;
          low_season_avg_price := low_avg;
          seasonal_premium_pct := premium_pct |}.

Record WeekendPricing := {
  weekend_avg : float;
  weekday_avg : float;
  weekend_premium_pct : value;
  weekend_median : float;
  weekday_median : float;
}.

(** A cell of a boolean mask. *)
Definition as_bool (v : value) : result bool :=
  match v with
  | VBool b => Ok b
  | _ => Raise TypeError
  end.

(** [get_weekend_vs_weekday_pricing] *)
Definition get_weekend_vs_weekday_pricing (self : SeasonalityAnalyzer)
  : M WeekendPricing :=
  T ← load (self_calendar self);
  _ ← lift (df_col "price" T);
  let cal := dropna ["price"] T in
  is_weekend ← lift (df_col "is_weekend" cal);
  mask ← lift (mapR as_bool is_weekend);
  let weekend := map (cell "price") (select mask (rows cal)) in
  let weekday := map (cell "price") (select (map negb mask) (rows cal)) in
  weekend_avg ← lift (series_mean weekend);
  weekday_avg ← lift (series_mean weekday);
  let premium :=
    if truthy weekday_avg
    then VFloat (fmul (fdiv (fsub weekend_avg weekday_avg) weekday_avg) (of_Z 100))
    else VInt 0 in
  weekend_median ← lift (series_median weekend);
  weekday_median ← lift (series_median weekday);
  mret {| weekend_avg := weekend_avg;
          weekday_avg := weekday_avg;
          weekend_premium_pct := premium;
          weekend_median := weekend_median;
          weekday_median := weekday_median |}.

End Seasonality.

(** ** Functional reading of the pipelines

    What a run of the store code computes, as functions from frames to
    frames.  [StoreFacts] proves that the store code computes them. *)

Module Pure.
Import Cleaner.

(** Readings of code that updates one frame in place. *)
Definition stepF := DataFrame → result DataFrame.

Definition retF : stepF := λ T, Ok T.
Definition seqF (f g : stepF) : stepF := λ T, T' ← f T; g T'.
Definition loadF (k : DataFrame → stepF) : stepF := λ T, k T T.
Definition liftF {A} (r : result A) (k : A → stepF) : stepF := λ T, a ← r; k a T.
Definition setF (c : string) (vals : list value) : stepF := λ T, Ok (df_set c vals T).
Definition when_colF (c : string) (f : stepF) : stepF :=
  λ T, if has_col c T then f T else Ok T.

Definition set_price : stepF :=
  loadF (λ T,
    liftF (df_col "price" T) (λ price,
    liftF (mapR clean_price price) (λ price,
    setF "price" price))).

Definition fill_with_group_median (col : string) : stepF :=
  when_colF col
    (loadF (λ T,
       liftF (df_col col T) (λ vals,
       liftF (groupby_transform_median "room_type" col T) (λ medians,
       setF col (fillna (VFloat (of_Z 1)) (fillna_with vals medians)))))).

Definition handle_missing_values (T : DataFrame) : result DataFrame :=
  let critical := ["id"; "price"; "latitude"; "longitude"] in
  seqF (fill_with_group_median "bedrooms")
    (seqF (fill_with_group_median "beds") retF)
    (dropna (List.filter (λ c, has_col c T) critical) T).

Definition price_filter (config : Config) (T : DataFrame) : result DataFrame :=
  price ← df_col "price" T;
  ge_min ← mapR (cmp fge (price_min config)) price;
  le_max ← mapR (cmp fle (price_max config)) price;
  Ok (df_select (zip_with andb ge_min le_max) T).

Definition activity_filter (config : Config) (T : DataFrame) : result DataFrame :=
  reviews ← df_col "number_of_reviews" T;
  has_reviews ← mapR (cmp fge (min_reviews config)) reviews;
  has_availability ←
    (if has_col "availability_365" T
     then mapR (cmp fgt (of_Z 0)) (map (cell "availability_365") (rows T))
     else Ok (map (λ _, false) (rows T)));
  Ok (df_select (zip_with orb has_reviews has_availability) T).

Definition filter_active_listings (config : Config) (T : DataFrame)
  : result DataFrame :=
  T ← price_filter config T; activity_filter config T.

Definition set_price_per_person : stepF :=
  when_colF "accommodates"
    (loadF (λ T,
       liftF (df_col "price" T) (λ price,
       liftF (df_col "accommodates" T) (λ acc,
       liftF (zipR v_div price (map replace_zero acc)) (λ ppp,
       setF "price_per_person" ppp))))).

Definition set_revenue : stepF :=
  when_colF "availability_30"
    (loadF (λ T,
       liftF (df_col "availability_30" T) (λ av,
       liftF (mapR (v_sub (VInt 30)) av) (λ booked,
       seqF (setF "est_booked_30" booked)
         (loadF (λ T,
            liftF (df_col "price" T) (λ price,
            liftF (df_col "est_booked_30" T) (λ booked,
            liftF (zipR v_mul price booked) (λ rev,
            setF "est_monthly_revenue" rev))))))))).

Definition set_review_recency (env : Env) : stepF :=
  when_colF "last_review"
    (loadF (λ T,
       liftF (df_col "last_review" T) (λ lr,
       liftF (mapR (to_datetime env) lr) (λ dt,
       seqF (setF "last_review_dt" dt)
         (loadF (λ T,
            liftF (df_col "last_review_dt" T) (λ dt,
            liftF (mapR (days_since env) dt) (λ days,
            setF "days_since_review" days)))))))).

Definition set_flag (src dst : string) : stepF :=
  when_colF src
    (loadF (λ T,
       liftF (df_col src T) (λ v, setF dst (map map_tf v)))).

Definition add_calculated_fields (env : Env) : stepF :=
  seqF set_price_per_person
  (seqF set_revenue
  (seqF (set_review_recency env)
  (seqF (set_flag "host_is_superhost" "is_superhost")
  (seqF (set_flag "instant_bookable" "is_instant_bookable")
  retF)))).

Definition set_amenities (env : Env) : stepF :=
  when_colF "amenities"
    (loadF (λ T,
       liftF (df_col "amenities" T) (λ am,
       liftF (mapR (parse_amenities env) am) (λ lists,
       seqF (setF "amenities_list" (map VList lists))
            (setF "amenity_count" (map amenity_len lists)))))).

Definition expand_amenities (env : Env) : stepF :=
  seqF (set_amenities env) retF.

(** The frame [clean_listings] returns, from the frame it is given. *)
Definition clean_listings (env : Env) (config : Config) (T : DataFrame)
  : result DataFrame :=
  T ← drop_duplicates "id" T;
  T ← set_price T;
  T ← handle_missing_values T;
  T ← filter_active_listings config T;
  T ← add_calculated_fields env T;
  expand_amenities env T.

Definition parse_dates (env : Env) : stepF :=
  loadF (λ T,
    liftF (df_col "date" T) (λ date,
    if is_datetime date then retF
    else liftF (mapR (to_datetime env) date) (λ dt, setF "date" dt))).

Definition set_available : stepF :=
  loadF (λ T,
    liftF (df_col "available" T) (λ av, setF "available" (map map_tf av))).

Definition set_month : stepF :=
  loadF (λ T,
    liftF (df_col "date" T) (λ date,
    liftF (mapR dt_month date) (λ month, setF "month" month))).

Definition set_day_of_week : stepF :=
  loadF (λ T,
    liftF (df_col "date" T) (λ date,
    liftF (mapR dt_dayofweek date) (λ dow, setF "day_of_week" dow))).

Definition set_is_weekend : stepF :=
  loadF (λ T,
    liftF (df_col "day_of_week" T) (λ dow,
    setF "is_weekend" (map (isin [VInt 4; VInt 5]) dow))).

(** The frame [clean_calendar] returns. *)
Definition clean_calendar (env : Env) (T : DataFrame) : result DataFrame :=
  T ← parse_dates env T;
  T ← set_price T;
  T ← set_available T;
  T ← set_month T;
  T ← set_day_of_week T;
  T ← set_is_weekend T;
  Ok (dropna ["date"] T).

(** The frame [add_segments_to_df] returns. *)
Definition add_segments (segs : list (string * Segment)) : stepF :=
  loadF (λ T,
    liftF (df_col "price" T) (λ price,
    liftF (mapR (Competitive.scan segs) price) (λ seg,
    setF "segment" (map VStr seg)))).

End Pure.

(** * Properties *)

(** ** The float literal grammar and [repr] *)

Module TextFacts.
Import Text.

Lemma dval_snoc ds c : dval (ds ++ [c]) = 10 * dval ds + digit_of c.
Proof. unfold dval. by rewrite fold_left_app. Qed.

Lemma dval_app a b : dval (a ++ b) = dval a * 10 ^ Z.of_nat (length b) + dval b.
Proof.
  induction b as [|c b IH] using rev_ind.
  - rewrite app_nil_r. change (dval []) with 0. cbn [length].
    change (Z.of_nat 0) with 0. rewrite Z.pow_0_r. lia.
  - rewrite app_assoc, !dval_snoc, IH, length_app. cbn [length].
    replace (Z.of_nat (length b + 1)) with (Z.of_nat (length b) + 1) by lia.
    rewrite Z.pow_add_r by lia. lia.
Qed.

Lemma digit_char_spec d :
  0 <= d < 10 → is_digit (digit_char d) = true ∧ digit_of (digit_char d) = d.
Proof.
  intros Hd.
  assert (d = 0 ∨ d = 1 ∨ d = 2 ∨ d = 3 ∨ d = 4 ∨ d = 5 ∨ d = 6 ∨ d = 7 ∨ d = 8 ∨ d = 9)
    as H by lia.
  repeat (destruct H as [-> | H]; [by vm_compute|]). subst. by vm_compute.
Qed.

Lemma to_digits_aux_spec fuel n :
  0 <= n < 2 ^ Z.of_nat fuel → (0 < fuel)%nat →
  dval (to_digits_aux fuel n) = n
  ∧ Forall (λ c, is_digit c = true) (to_digits_aux fuel n)
  ∧ to_digits_aux fuel n ≠ [].
Proof.
  revert n. induction fuel as [|f IH]; intros n Hn Hf; [lia|].
  cbn [to_digits_aux]. destruct (Z.ltb_spec n 10) as [Hlt | Hge].
  - destruct (digit_char_spec n) as [H1 H2]; [lia|].
    split; [|split]; [|by repeat constructor|done].
    unfold dval. cbn. rewrite H2. lia.
  - assert (Hf' : (0 < f)%nat).
    { destruct f; [|lia]. cbn in Hn. lia. }
    assert (Hdiv : 0 <= n / 10 < 2 ^ Z.of_nat f).
    { split; [apply Z.div_pos; lia|].
      apply Z.div_lt_upper_bound; [lia|].
      rewrite Nat2Z.inj_succ, Z.pow_succ_r in Hn by lia. lia. }
    destruct (IH _ Hdiv Hf') as (Hv & Hd & Hne).
    destruct (digit_char_spec (n mod 10)) as [H1 H2].
    { apply Z.mod_pos_bound. lia. }
    split; [|split].
    + rewrite dval_snoc, Hv, H2. pose proof (Z.div_mod n 10). lia.
    + apply Forall_app. split; [done|]. by repeat constructor.
    + intros Heq. by apply app_eq_nil in Heq as [_ ?].
Qed.

Lemma to_digits_spec n :
  0 <= n →
  dval (to_digits n) = n
  ∧ Forall (λ c, is_digit c = true) (to_digits n)
  ∧ to_digits n ≠ [].
Proof.
  intros Hn. apply to_digits_aux_spec; [|lia].
  rewrite Nat2Z.inj_succ, Z2Nat.id by apply Z.log2_nonneg.
  split; [done|]. destruct (Z.eq_dec n 0) as [->|]; [by cbn|].
  apply Z.log2_spec. lia.
Qed.

Lemma digitpart_aux_digits b ds :
  Forall (λ c, is_digit c = true) ds → (b = true ∨ ds ≠ []) →
  digitpart_aux b ds = Some ds.
Proof.
  intros Hd. revert b. induction Hd as [|c ds Hc Hd IH]; intros b Hb.
  - destruct Hb as [-> | ?]; done.
  - cbn. rewrite Hc, IH; [done | by left].
Qed.

Lemma digitpart_digits ds :
  Forall (λ c, is_digit c = true) ds → ds ≠ [] → digitpart ds = Some ds.
Proof. intros. apply digitpart_aux_digits; auto. Qed.

Lemma opt_digitpart_digits ds :
  Forall (λ c, is_digit c = true) ds → opt_digitpart ds = Some ds.
Proof.
  intros Hd. destruct ds as [|c ds]; [done|].
  by apply (digitpart_digits (c :: ds)).
Qed.

Lemma split_at_none p s :
  Forall (λ c, p c = false) s → split_at p s = (s, None).
Proof.
  induction 1 as [|c s Hc Hs IH]; [done|]. cbn. by rewrite Hc, IH.
Qed.

Lemma split_at_some p a c b :
  Forall (λ c, p c = false) a → p c = true →
  split_at p (a ++ c :: b) = (a, Some b).
Proof.
  intros Ha Hc. induction Ha as [|x a Hx Ha IH]; cbn.
  - by rewrite Hc.
  - by rewrite Hx, IH.
Qed.

Lemma is_digit_not_dot c : is_digit c = true → Ascii.eqb "." c = false.
Proof.
  intros H. destruct (Ascii.eqb_spec "."%char c) as [<-|]; [by vm_compute in H|done].
Qed.

Lemma is_digit_not_e c : is_digit c = true → is_e c = false.
Proof.
  intros H. unfold is_e.
  destruct (Ascii.eqb_spec c "e"%char) as [->|]; [by vm_compute in H|].
  destruct (Ascii.eqb_spec c "E"%char) as [->|]; [by vm_compute in H|done].
Qed.

Lemma digits_no_dot ds :
  Forall (λ c, is_digit c = true) ds → Forall (λ c, Ascii.eqb "." c = false) ds.
Proof. intros H. eapply Forall_impl; [exact H|]. intros. by apply is_digit_not_dot. Qed.

Lemma digits_no_e ds :
  Forall (λ c, is_digit c = true) ds → Forall (λ c, is_e c = false) ds.
Proof. intros H. eapply Forall_impl; [exact H|]. intros. by apply is_digit_not_e. Qed.

(** *** [scale10] *)

Lemma pow10_pos e : 0 <= e → 0 < 10 ^ e.
Proof. intros. apply Z.pow_pos_nonneg; lia. Qed.

Lemma scale10_frac m e a b :
  0 <= a → 0 <= b → e = a - b →
  (scale10 m e == Qmake (m * 10 ^ a) (Z.to_pos (10 ^ b)))%Q.
Proof.
  intros Ha Hb ->. unfold scale10, Qeq. pose proof (pow10_pos b Hb).
  destruct (Z.leb_spec 0 (a - b)); cbn [Qnum Qden inject_Z].
  - rewrite Z2Pos.id by done.
    replace a with ((a - b) + b) at 2 by lia. rewrite Z.pow_add_r by lia. lia.
  - pose proof (pow10_pos (- (a - b))). rewrite !Z2Pos.id by lia.
    replace b with (a + - (a - b)) at 1 by lia. rewrite Z.pow_add_r by lia. lia.
Qed.

Lemma scale10_shift m z e :
  0 <= z → (scale10 (m * 10 ^ z) (e - z) == scale10 m e)%Q.
Proof.
  intros Hz.
  rewrite (scale10_frac (m * 10 ^ z) (e - z) (Z.max 0 e) (Z.max 0 (- e) + z)) by lia.
  rewrite (scale10_frac m e (Z.max 0 e + z) (Z.max 0 (- e) + z)) by lia.
  rewrite (Z.pow_add_r 10 (Z.max 0 e) z) by lia.
  unfold Qeq. cbn [Qnum Qden]. lia.
Qed.


(** *** Digit strings *)

Abbreviation digits := (Forall (λ c, is_digit c = true)).

Lemma zeros_digits n : digits (zeros n).
Proof. unfold zeros. induction (Z.to_nat n); cbn; by constructor. Qed.

Lemma dval_zeros_app n ds : dval (zeros n ++ ds) = dval ds.
Proof.
  unfold zeros. induction (Z.to_nat n) as [|k IH]; [done|].
  cbn [List.repeat app]. unfold dval in *. cbn [fold_left]. exact IH.
Qed.

Lemma dval_app_zeros ds n : 0 <= n → dval (ds ++ zeros n) = dval ds * 10 ^ n.
Proof.
  intros Hn. rewrite dval_app.
  rewrite <- (app_nil_r (zeros n)) at 2. rewrite dval_zeros_app.
  unfold zeros. rewrite repeat_length, Z2Nat.id by done.
  change (dval []) with 0. lia.
Qed.

Lemma length_zeros n : 0 <= n → Z.of_nat (length (zeros n)) = n.
Proof. intros. unfold zeros. rewrite repeat_length. lia. Qed.

Lemma drop_zeros_decomp s :
  ∃ n : nat, s = List.repeat "0"%char n ++ drop_zeros s.
Proof.
  induction s as [|c s [n IH]]; [by exists 0%nat|]. cbn.
  destruct (Ascii.eqb_spec c "0"%char) as [->|].
  - exists (S n). cbn. by rewrite <- IH.
  - by exists 0%nat.
Qed.

Lemma rstrip_zeros_decomp ds :
  ∃ z, 0 <= z ∧ ds = rstrip_zeros ds ++ zeros z.
Proof.
  destruct (drop_zeros_decomp (rev ds)) as [n Hn].
  exists (Z.of_nat n). split; [lia|].
  unfold rstrip_zeros, zeros. rewrite Nat2Z.id.
  rewrite <- (rev_involutive ds) at 1. rewrite Hn at 1.
  rewrite rev_app_distr. f_equal.
  clear. induction n as [|n IH]; [done|]. cbn [List.repeat rev]. rewrite IH.
  clear. induction n; cbn; [done|]. by f_equal.
Qed.

Lemma pad2_spec s :
  digits s → s ≠ [] → digits (pad2 s) ∧ pad2 s ≠ [] ∧ dval (pad2 s) = dval s.
Proof.
  intros Hs Hne. destruct s as [|c [|d s]]; [done| |done].
  cbn [pad2]. split; [|split]; [|done|].
  - constructor; [by vm_compute|done].
  - unfold dval. cbn [fold_left]. change (digit_of "0"%char) with 0. lia.
Qed.

Lemma digits_take n ds : digits ds → digits (take n ds).
Proof. apply Forall_take. Qed.
Lemma digits_drop n ds : digits ds → digits (drop n ds).
Proof. apply Forall_drop. Qed.

(** *** Parsing what [repr] prints *)

Abbreviation no_e := (Forall (λ c, is_e c = false)).

Lemma parse_number_dot ip fp :
  digits ip → digits fp → ip ≠ [] ∨ fp ≠ [] →
  parse_number (ip ++ "."%char :: fp) = Some (ip, fp).
Proof.
  intros Hip Hfp Hne. unfold parse_number.
  rewrite split_at_some; [|by apply digits_no_dot|done].
  rewrite !opt_digitpart_digits by done.
  destruct ip, fp; try done. by destruct Hne.
Qed.

Lemma parse_number_nodot ip :
  digits ip → ip ≠ [] → parse_number ip = Some (ip, []).
Proof.
  intros Hip Hne. unfold parse_number.
  rewrite split_at_none by by apply digits_no_dot.
  by rewrite digitpart_digits.
Qed.

Lemma parse_floatnumber_noexp mant ip fp :
  no_e mant → parse_number mant = Some (ip, fp) →
  parse_floatnumber mant
  = Some (scale10 (dval (ip ++ fp)) (0 - Z.of_nat (length fp))).
Proof.
  intros He Hn. unfold parse_floatnumber. by rewrite split_at_none, Hn.
Qed.

Lemma parse_floatnumber_exp mant ip fp r e :
  no_e mant → parse_number mant = Some (ip, fp) → parse_exponent r = Some e →
  parse_floatnumber (mant ++ "e"%char :: r)
  = Some (scale10 (dval (ip ++ fp)) (e - Z.of_nat (length fp))).
Proof.
  intros He Hn Hr. unfold parse_floatnumber.
  by rewrite split_at_some, Hn, Hr.
Qed.

Lemma parse_exponent_signed (neg : bool) ds :
  digits ds → ds ≠ [] →
  parse_exponent ((if neg then "-"%char else "+"%char) :: ds)
  = Some (if neg then - dval ds else dval ds).
Proof.
  intros Hd Hne. unfold parse_exponent.
  destruct neg; cbn [parse_sign Ascii.eqb]; cbn; by rewrite digitpart_digits.
Qed.

Lemma no_e_dot a b : digits a → digits b → no_e (a ++ "."%char :: b).
Proof.
  intros Ha Hb. apply Forall_app. split; [by apply digits_no_e|].
  constructor; [done | by apply digits_no_e].
Qed.

(** The digit string without its trailing zeros. *)
Lemma rstrip_zeros_spec ds :
  digits ds → dval ds ≠ 0 →
  ∃ z, 0 <= z ∧ ds = rstrip_zeros ds ++ zeros z
       ∧ digits (rstrip_zeros ds) ∧ rstrip_zeros ds ≠ []
       ∧ dval ds = dval (rstrip_zeros ds) * 10 ^ z
       ∧ Z.of_nat (length ds) = Z.of_nat (length (rstrip_zeros ds)) + z.
Proof.
  intros Hds Hval.
  destruct (rstrip_zeros_decomp ds) as (z & Hz & Heq).
  set (D := rstrip_zeros ds) in *.
  assert (HD : digits D).
  { rewrite Heq in Hds. by apply Forall_app in Hds as [? _]. }
  assert (Hv : dval ds = dval D * 10 ^ z).
  { rewrite Heq at 1. by apply dval_app_zeros. }
  exists z. repeat split; try done.
  - intros HD0. rewrite HD0 in Hv. change (dval []) with 0 in Hv. lia.
  - rewrite Heq at 1. rewrite length_app, Nat2Z.inj_add, length_zeros by done. done.
Qed.

(** [repr_digits] prints a literal of the number [dval ds / 10 ^ k]. *)
Lemma parse_repr_digits ds k :
  digits ds → dval ds ≠ 0 →
  ∃ v, parse_floatnumber (repr_digits ds k) = Some v
       ∧ (v == scale10 (dval ds) (- k))%Q.
Proof.
  intros Hds Hval.
  destruct (rstrip_zeros_spec ds Hds Hval) as (z & Hz & Heq & HD & Hne & Hv & Hlen).
  unfold repr_digits.
  set (D := rstrip_zeros ds) in *. set (n := Z.of_nat (length D)) in *.
  set (decpt := Z.of_nat (length ds) - k).
  assert (Hgoal : (scale10 (dval D) (decpt - n) == scale10 (dval ds) (- k))%Q).
  { rewrite Hv. replace (- k) with ((decpt - n) - z) by lia.
    symmetry. by apply scale10_shift. }
  assert (Hn : 0 < n).
  { unfold n. destruct D; [done | cbn; lia]. }
  destruct ((-4 <? decpt) && (decpt <=? 16)).
  - destruct (Z.leb_spec decpt 0) as [Hle | Hgt].
    + (* 0.000ddd *)
      eexists. split.
      * apply (parse_floatnumber_noexp ("0"%char :: "."%char :: zeros (- decpt) ++ D)
                 ["0"%char] (zeros (- decpt) ++ D)).
        -- apply (no_e_dot ["0"%char]); [by repeat constructor|].
           apply Forall_app. split; [apply zeros_digits | done].
        -- apply (parse_number_dot ["0"%char]); [by repeat constructor| |by left].
           apply Forall_app. split; [apply zeros_digits | done].
      * rewrite <- Hgoal.
        change (["0"%char] ++ zeros (- decpt) ++ D) with (zeros 1 ++ zeros (- decpt) ++ D).
        rewrite !dval_zeros_app, length_app, Nat2Z.inj_add, length_zeros by lia.
        fold n. replace (0 - (- decpt + n)) with (decpt - n) by lia. reflexivity.
    + destruct (Z.ltb_spec decpt n) as [Hlt | Hge].
      * (* ddd.ddd *)
        eexists. split.
        -- apply (parse_floatnumber_noexp _ (take (Z.to_nat decpt) D) (drop (Z.to_nat decpt) D)).
           ++ apply no_e_dot; [by apply digits_take | by apply digits_drop].
           ++ apply parse_number_dot; [by apply digits_take | by apply digits_drop|].
              left. intros Ht. apply (f_equal length) in Ht.
              rewrite length_take in Ht. cbn in Ht. lia.
        -- rewrite <- Hgoal, take_drop, length_drop.
           replace (0 - Z.of_nat (length D - Z.to_nat decpt)) with (decpt - n) by lia.
           reflexivity.
      * (* ddd000.0 *)
        eexists. split.
        -- rewrite (app_assoc D).
           apply (parse_floatnumber_noexp _ (D ++ zeros (decpt - n)) ["0"%char]).
           ++ apply no_e_dot; [|by repeat constructor].
              apply Forall_app. split; [done | apply zeros_digits].
           ++ apply parse_number_dot; [|by repeat constructor|by right].
              apply Forall_app. split; [done | apply zeros_digits].
        -- rewrite <- Hgoal.
           change ["0"%char] with (zeros 1). rewrite <- app_assoc.
           replace (zeros (decpt - n) ++ zeros 1) with (zeros (decpt - n + 1)).
           2:{ unfold zeros. rewrite <- repeat_app. f_equal. lia. }
           rewrite dval_app_zeros by lia.
           replace (0 - Z.of_nat (length (zeros 1))) with (decpt - n - (decpt - n + 1))
             by (change (Z.of_nat (length (zeros 1))) with 1; lia).
           apply scale10_shift. lia.
  - (* d.ddde+XX *)
    set (x := decpt - 1).
    destruct (to_digits_spec (Z.abs x)) as (Hxv & Hxd & Hxne); [lia|].
    destruct (pad2_spec _ Hxd Hxne) as (Hpd & Hpne & Hpv).
    assert (Hexp : parse_exponent ((if x <? 0 then "-"%char else "+"%char)
                                     :: pad2 (to_digits (Z.abs x))) = Some x).
    { rewrite parse_exponent_signed, Hpv, Hxv by done.
      destruct (Z.ltb_spec x 0); f_equal; lia. }
    destruct (drop 1 D) as [|c r] eqn:Hdrop.
    + (* one digit *)
      assert (HD1 : take 1 D = D).
      { rewrite <- (take_drop 1 D) at 2. by rewrite Hdrop, app_nil_r. }
      eexists. split.
      * rewrite app_nil_l.
        apply (parse_floatnumber_exp (take 1 D) D []); [| |exact Hexp].
        -- rewrite HD1. by apply digits_no_e.
        -- rewrite HD1. by apply parse_number_nodot.
      * rewrite <- Hgoal, app_nil_r. cbn [length].
        assert (n = 1).
        { unfold n. rewrite <- HD1, length_take. destruct D; [done|]. cbn. lia. }
        replace (x - Z.of_nat 0) with (decpt - n) by lia. reflexivity.
    + eexists. split.
      * rewrite app_assoc.
        apply (parse_floatnumber_exp _ (take 1 D) (c :: r)); [| |exact Hexp].
        -- apply no_e_dot; [by apply digits_take|]. rewrite <- Hdrop. by apply digits_drop.
        -- apply parse_number_dot; [by apply digits_take| |by right].
           rewrite <- Hdrop. by apply digits_drop.
      * rewrite <- Hgoal, <- Hdrop, take_drop, length_drop.
        replace (x - Z.of_nat (length D - 1)) with (decpt - n) by lia. reflexivity.
Qed.


(** *** Characters that [replace] and [strip] leave alone *)

Definition plain (c : ascii) : bool :=
  negb (is_space c) && negb (Ascii.eqb c "$") && negb (Ascii.eqb c ",").

Abbreviation plains := (Forall (λ c, plain c = true)).

Lemma is_digit_cases c :
  is_digit c = true →
  In c ["0"; "1"; "2"; "3"; "4"; "5"; "6"; "7"; "8"; "9"]%char.
Proof.
  destruct c as [[] [] [] [] [] [] [] []]; intros H;
    try (by vm_compute in H); cbn; auto 12.
Qed.

Lemma digit_facts c :
  is_digit c = true →
  plain c = true ∧ lower c = c ∧ parse_sign (c :: []) = (false, [c])
  ∧ c ≠ "i"%char ∧ c ≠ "n"%char ∧ c ≠ "-"%char ∧ c ≠ "+"%char.
Proof.
  intros H. apply is_digit_cases in H. cbn in H.
  repeat (destruct H as [<- | H]; [by vm_compute|]). done.
Qed.

Lemma digits_plain ds : digits ds → plains ds.
Proof.
  intros H. eapply Forall_impl; [exact H|]. intros c Hc. by apply digit_facts.
Qed.

Lemma replace_plain old new s :
  Forall (λ c, Ascii.eqb c old = false) s → replace old new s = s.
Proof. induction 1 as [|c s Hc Hs IH]; [done|]. cbn [replace]. by rewrite Hc, IH. Qed.

Lemma lstrip_head c s : is_space c = false → lstrip (c :: s) = c :: s.
Proof. intros H. cbn. by rewrite H. Qed.

Lemma strip_plain s : Forall (λ c, is_space c = false) s → strip s = s.
Proof.
  intros H. unfold strip, rstrip.
  assert (Hl : ∀ t, Forall (λ c, is_space c = false) t → lstrip t = t).
  { intros t Ht. destruct Ht; [done|]. by apply lstrip_head. }
  rewrite (Hl s H), Hl, rev_involutive; [done|].
  by apply Forall_rev.
Qed.

Lemma plains_no_space s : plains s → Forall (λ c, is_space c = false) s.
Proof.
  intros H. eapply Forall_impl; [exact H|]. intros c Hc. unfold plain in Hc.
  by destruct (is_space c).
Qed.

Lemma plains_no_char s (old : ascii) :
  old = "$"%char ∨ old = ","%char → plains s → Forall (λ c, Ascii.eqb c old = false) s.
Proof.
  intros Ho H. eapply Forall_impl; [exact H|]. intros c Hc. unfold plain in Hc.
  destruct Ho as [-> | ->]; by destruct (Ascii.eqb c "$"), (Ascii.eqb c ","), (is_space c).
Qed.

(** What [clean_price] does to the text before parsing it. *)
Definition tidy (s : list ascii) : list ascii :=
  strip (replace "," [] (replace "$" [] s)).

Lemma tidy_plain s : plains s → tidy s = s.
Proof.
  intros H. unfold tidy.
  rewrite (replace_plain "$" [] s) by (apply plains_no_char; auto).
  rewrite (replace_plain "," [] s) by (apply plains_no_char; auto).
  by apply strip_plain, plains_no_space.
Qed.

Lemma repr_digits_plain ds k : digits ds → dval ds ≠ 0 → plains (repr_digits ds k).
Proof.
  intros Hds Hval.
  destruct (rstrip_zeros_spec ds Hds Hval) as (z & Hz & Heq & HD & Hne & Hv & Hlen).
  pose proof (digits_plain _ HD) as HP.
  assert (HZ : ∀ n, plains (zeros n)) by (intros; apply digits_plain, zeros_digits).
  unfold repr_digits. repeat case_match;
    repeat first
      [ apply Forall_app; split
      | apply Forall_cons; split; [by vm_compute|]
      | apply Forall_nil
      | done
      | by apply Forall_take
      | by apply Forall_drop
      | apply HZ ].
  all: try (match goal with H : drop _ _ = _ |- _ => rewrite <- H end; by apply Forall_drop).
  all: destruct (to_digits_spec (Z.abs (Z.of_nat (length ds) - k - 1))) as (_ & Hd & Hn);
    [lia|]; by apply digits_plain, pad2_spec.
Qed.

Lemma repr_digits_head ds k :
  digits ds → dval ds ≠ 0 →
  ∃ c r, repr_digits ds k = c :: r ∧ is_digit c = true.
Proof.
  intros Hds Hval.
  destruct (rstrip_zeros_spec ds Hds Hval) as (z & Hz & Heq & HD & Hne & Hv & Hlen).
  unfold repr_digits. set (D := rstrip_zeros ds) in *.
  destruct D as [|c D']; [done|]. apply Forall_cons in HD as [Hc _].
  repeat case_match.
  all: try (destruct (Z.to_nat (Z.of_nat (length ds) - k)) eqn:E; [lia|]).
  all: cbn [take app]; eexists _, _; (split; [reflexivity | done || by vm_compute]).
Qed.

(** *** [float(repr(x)) == x] *)

Lemma float_of_chars_signed (neg : bool) c r v :
  is_digit c = true → plains (c :: r) → parse_floatnumber (c :: r) = Some v →
  float_of_chars ((if neg then ["-"%char] else []) ++ c :: r)
  = Some (fnum (Qred (if neg then - v else v))).
Proof.
  intros Hc Hp Hv.
  destruct (digit_facts c Hc) as (_ & Hl & _ & Hi & Hn & Hm & Hpl).
  assert (Hsign : parse_sign (strip ((if neg then ["-"%char] else []) ++ c :: r))
                  = (neg, c :: r)).
  { rewrite strip_plain.
    - destruct neg; [done|]. cbn.
      destruct (Ascii.eqb_spec c "-"%char); [done|].
      by destruct (Ascii.eqb_spec c "+"%char).
    - apply plains_no_space. destruct neg; [|done].
      apply Forall_cons. split; [by vm_compute | done]. }
  unfold float_of_chars. rewrite Hsign. cbn [map]. rewrite Hl, Hv.
  unfold ascii_list_eqb. rewrite !bool_decide_eq_false_2; [done|..]; cbn; congruence.
Qed.



Lemma red_zero q : Qred q = q → Qzero q = true → q = 0%Q.
Proof.
  intros Hr Hz. rewrite <- Hr. change 0%Q with (Qred 0).
  apply Qred_complete. unfold Qeq, Qzero in *. cbn. lia.
Qed.

Lemma decimal_digits q :
  is_decimal q → Qzero q = false →
  let k := frac_digits q in
  let m := Z.abs (Qnum q) * 10 ^ k / Z.pos (Qden q) in
  0 < m ∧ (Qmake m (Z.to_pos (10 ^ k)) == Qmake (Z.abs (Qnum q)) (Qden q))%Q.
Proof.
  intros [Hr [d Hd]] Hz k m. fold k in Hd.
  assert (Hk : 0 <= k) by (unfold k, frac_digits; pose proof (Z.log2_nonneg (Z.pos (Qden q))); lia).
  pose proof (pow10_pos k Hk) as Hp.
  assert (Hm : m = Z.abs (Qnum q) * d).
  { unfold m. rewrite Hd, Z.mul_assoc. apply Z.div_mul. lia. }
  assert (0 < d) by nia.
  unfold Qzero in Hz. split; [rewrite Hm; lia|].
  unfold Qeq. cbn [Qnum Qden]. rewrite Z2Pos.id by done. rewrite Hm, Hd. lia.
Qed.

Theorem float_repr_roundtrip x :
  match x with fnum q => is_decimal q | _ => True end →
  float_of_chars (chars_of_float x) = Some x
  ∧ plains (chars_of_float x).
Proof.
  destruct x as [|[]|q]; [split; [by vm_compute | by repeat constructor]..|].
  intros Hdec. cbn [chars_of_float]. destruct (Qzero q) eqn:Hz.
  { rewrite (red_zero q) by (done || apply Hdec).
    split; [by vm_compute | by repeat constructor]. }
  destruct (decimal_digits q Hdec Hz) as [Hm Hq].
  set (k := frac_digits q) in *.
  set (m := Z.abs (Qnum q) * 10 ^ k / Z.pos (Qden q)) in *.
  assert (Hk : 0 <= k) by (unfold k, frac_digits; pose proof (Z.log2_nonneg (Z.pos (Qden q))); lia).
  destruct (to_digits_spec m) as (Hv & Hd & Hne); [lia|].
  assert (Hval : dval (to_digits m) ≠ 0) by lia.
  destruct (parse_repr_digits _ k Hd Hval) as (v & Hparse & Hveq).
  destruct (repr_digits_head _ k Hd Hval) as (c & r & Hhead & Hc).
  pose proof (repr_digits_plain _ k Hd Hval) as Hplain.
  assert (Hv' : (v == Qmake (Z.abs (Qnum q)) (Qden q))%Q).
  { rewrite Hveq, Hv, <- Hq.
    rewrite (scale10_frac m (- k) 0 k) by lia. by rewrite Z.mul_1_r. }
  destruct Hdec as [Hred _].
  rewrite Hhead in *.
  split.
  - rewrite (float_of_chars_signed (Qneg q) c r v) by done.
    do 2 f_equal. transitivity (Qred q); [|done].
    apply Qred_complete. unfold Qneg.
    destruct (Z.ltb_spec (Qnum q) 0); rewrite Hv'; unfold Qeq, Qopp; cbn [Qnum Qden]; lia.
  - destruct (Qneg q); [|done].
    apply Forall_cons. split; [by vm_compute | done].
Qed.

(** *** What [float] returns is a decimal fraction *)

Lemma divisor_of_10 g : 0 < g → (g | 10) → g = 1 ∨ (2 | g) ∨ (5 | g).
Proof.
  intros Hg Hdiv.
  assert (g <= 10) by (apply Z.divide_pos_le; [lia | done]).
  destruct Hdiv as [c Hc].
  assert (g = 1 ∨ g = 2 ∨ g = 3 ∨ g = 4 ∨ g = 5 ∨ g = 6 ∨ g = 7 ∨ g = 8 ∨ g = 9 ∨ g = 10)
    as H' by lia.
  destruct H' as [->|[->|[->|[->|[->|[->|[->|[->|[->| ->]]]]]]]]]; try lia.
  - right. left. by exists 1.
  - right. right. by exists 1.
  - right. left. by exists 5.
Qed.

Lemma pow10_divisor m d :
  0 <= m → 0 < d → (d | 10 ^ m) → (d | 10 ^ Z.log2 d).
Proof.
  intros Hm Hd. assert (Hd0 : 0 <= d) by lia. revert d Hd0 Hd.
  apply (Z_lt_induction (λ d, 0 < d → (d | 10 ^ m) → (d | 10 ^ Z.log2 d))).
  intros d IH Hd Hdiv.
  destruct (divisor_of_10 (Z.gcd d 10)) as [Hg | Hp].
  - pose proof (Z.gcd_nonneg d 10).
    destruct (Z.eq_dec (Z.gcd d 10) 0) as [E|]; [|lia].
    apply Z.gcd_eq_0_l in E. lia.
  - apply Z.gcd_divide_r.
  - (* coprime to 10: d = 1 *)
    assert (Hrel : Z.gcd d (10 ^ m) = 1) by by apply Z.coprime_pow_r.
    assert (d = 1) as ->.
    { rewrite <- Hrel. symmetry. apply Z.divide_gcd_iff; [lia | done]. }
    by exists 1.
  - assert (∃ p, (p = 2 ∨ p = 5) ∧ (p | d)) as (p & Hp2 & [d' Hd']).
    { destruct Hp as [Hp | Hp]; [exists 2 | exists 5]; (split; [auto|]);
        (etransitivity; [exact Hp | apply Z.gcd_divide_l]). }
    assert (0 < d' < d) by (destruct Hp2; nia).
    destruct (IH d') as [c Hc]; [lia | lia | |].
    { etransitivity; [|exact Hdiv]. exists p. lia. }
    assert (Hlog : Z.log2 d' + 1 <= Z.log2 d).
    { transitivity (Z.log2 (2 * d')); [rewrite Z.log2_double by lia; lia|].
      apply Z.log2_le_mono. destruct Hp2; nia. }
    pose proof (Z.log2_nonneg d').
    set (e := Z.log2 d - (Z.log2 d' + 1)).
    assert (He : Z.log2 d = e + 1 + Z.log2 d') by lia.
    assert (0 <= e) by lia.
    rewrite He, !Z.pow_add_r, Z.pow_1_r, Hc by lia.
    destruct Hp2 as [-> | ->];
      [exists (10 ^ e * 5 * c) | exists (10 ^ e * 2 * c)]; rewrite Hd'; ring.
Qed.

Lemma Qden_Qred_divide x : (Z.pos (Qden (Qred x)) | Z.pos (Qden x)).
Proof.
  destruct x as [a b]. unfold Qred.
  pose proof (Z.ggcd_correct_divisors a (Z.pos b)) as H.
  pose proof (Z.ggcd_gcd a (Z.pos b)) as Hg.
  pose proof (Z.gcd_nonneg a (Z.pos b)) as Hn.
  destruct (Z.ggcd a (Z.pos b)) as [g [aa bb]]. cbn [fst snd] in *.
  destruct H as [_ Hb]. cbn [Qden].
  assert (0 < bb) by nia.
  rewrite Z2Pos.id by done. exists g. lia.
Qed.

Lemma Qred_decimal x j :
  0 <= j → (Z.pos (Qden x) | 10 ^ j) → is_decimal (Qred x).
Proof.
  intros Hj Hdiv. split; [apply Qred_involutive|].
  unfold frac_digits. set (d := Z.pos (Qden (Qred x))).
  pose proof (Z.log2_nonneg d).
  rewrite Z.pow_add_r by lia.
  apply Z.divide_mul_l. apply (pow10_divisor j); [done | done|].
  etransitivity; [apply Qden_Qred_divide | done].
Qed.

Lemma scale10_den m e : ∃ j, 0 <= j ∧ (Z.pos (Qden (scale10 m e)) | 10 ^ j).
Proof.
  unfold scale10. destruct (Z.leb_spec 0 e).
  - exists 0. split; [done|]. by exists 1.
  - exists (- e). split; [lia|]. cbn [Qden].
    rewrite Z2Pos.id by (apply pow10_pos; lia). done.
Qed.

Lemma parse_floatnumber_den s v :
  parse_floatnumber s = Some v → ∃ j, 0 <= j ∧ (Z.pos (Qden v) | 10 ^ j).
Proof.
  unfold parse_floatnumber. intros H. repeat case_match; try done.
  all: injection H as <-; apply scale10_den.
Qed.

Theorem float_of_chars_decimal s q :
  float_of_chars s = Some (fnum q) → is_decimal q.
Proof.
  unfold float_of_chars. intros H. repeat case_match; try done.
  all: injection H as <-.
  all: match goal with H : parse_floatnumber _ = Some _ |- _ =>
         apply parse_floatnumber_den in H as (j & Hj & Hd) end.
  all: by apply (Qred_decimal _ j).
Qed.

End TextFacts.

(** ** The store code computes the functional reading *)

Module StoreFacts.

(** [runs D m σ r Q]: from a store [σ] that holds the objects [D], the run
    of [m] leaves the objects of [D] as they were and forgets none; it
    raises what [r] raises, or returns a value that [Q] relates to the value
    of [r] in the final store. *)
Definition runs {A B} (D : gset loc) (m : M A) (σ : heap) (r : result B)
    (Q : B → A → heap → Prop) : Prop :=
  D ⊆ dom σ →
  dom σ ⊆ dom (m σ).2
  ∧ (∀ k, k ∈ D → (m σ).2 !! k = σ !! k)
  ∧ match r, (m σ).1 with
    | Ok b, Ok a => Q b a (m σ).2
    | Raise e, Raise e' => e = e'
    | _, _ => False
    end.

Lemma runs_ret {A B} D (a : A) (b : B) σ Q :
  Q b a σ → runs D (mret a) σ (Ok b) Q.
Proof. intros HQ _. by cbn. Qed.

Lemma runs_bind {A A' B B'} D (m : M A) (k : A → M A') σ
    (r : result B) (f : B → result B') Q R :
  runs D m σ r Q →
  (∀ b a σ', r = Ok b → Q b a σ' → runs D (k a) σ' (f b) R) →
  runs D (m ≫= k) σ (r ≫= f) R.
Proof.
  intros Hm Hk HD. destruct (Hm HD) as (Hdom & Hfr & Hres).
  assert (Hrun : (m ≫= k) σ
                 = match m σ with
                   | (Ok a, σ') => k a σ'
                   | (Raise e, σ') => (Raise e, σ')
                   end) by done.
  rewrite Hrun. clear Hrun.
  destruct (m σ) as [[a|e] σ'] eqn:E; cbn [fst snd] in *.
  - destruct r as [b|]; [|done].
    destruct (Hk b a σ' eq_refl Hres) as (Hdom' & Hfr' & Hres'); [set_solver|].
    split; [set_solver|]. split; [|done].
    intros k0 Hk0. by rewrite Hfr', Hfr.
  - destruct r as [b|e']; [done|]. by subst.
Qed.

Lemma runs_lift {A} D (r : result A) σ (Q : A → A → heap → Prop) :
  (∀ a, r = Ok a → Q a a σ) → runs D (lift r) σ r Q.
Proof. intros HQ _. unfold lift. cbn. destruct r; auto. Qed.

Lemma runs_load D l σ T (Q : DataFrame → DataFrame → heap → Prop) :
  σ !! l = Some T → Q T T σ → runs D (load l) σ (Ok T) Q.
Proof. intros Hl HQ _. unfold load. rewrite Hl. by cbn. Qed.

Lemma runs_alloc D T σ (Q : DataFrame → loc → heap → Prop) :
  (∀ l, l ∉ dom σ → Q T l (<[l := T]> σ)) → runs D (alloc T) σ (Ok T) Q.
Proof.
  intros HQ HD. unfold alloc. cbn.
  pose proof (is_fresh (dom σ)) as Hf.
  split; [set_solver|]. split; [|by apply HQ].
  intros k Hk. apply lookup_insert_ne. set_solver.
Qed.

Lemma runs_store D l T σ (Q : DataFrame → unit → heap → Prop) :
  l ∉ D → Q T () (<[l := T]> σ) → runs D (store l T) σ (Ok T) Q.
Proof.
  intros Hl HQ HD. unfold store. cbn.
  split; [set_solver|]. split; [|done].
  intros k Hk. apply lookup_insert_ne. set_solver.
Qed.

Lemma runs_weaken {A B} D (m : M A) σ (r : result B) (Q Q' : B → A → heap → Prop) :
  runs D m σ r Q → (∀ b a σ', Q b a σ' → Q' b a σ') → runs D m σ r Q'.
Proof.
  intros Hm HQ HD. destruct (Hm HD) as (? & ? & Hres). repeat split; try done.
  destruct r, (m σ).1; auto.
Qed.

(** A reference outside [D] that holds the frame. *)
Definition holds (D : gset loc) (T : DataFrame) (l : loc) (σ : heap) : Prop :=
  (l ∉ D) ∧ (σ !! l = Some T).

(** Code that updates the frame at [df] in place, and does what [f] does
    to it. *)
Definition inplace (D : gset loc) (df : loc) (m : M unit) (f : Pure.stepF) : Prop :=
  ∀ σ T, df ∉ D → σ !! df = Some T →
    runs D m σ (f T) (λ T' _ σ', σ' !! df = Some T').

Lemma inplace_ret D df : inplace D df (mret ()) Pure.retF.
Proof. intros σ T Hdf HT. by apply runs_ret. Qed.

Lemma inplace_seq D df m1 m2 f g :
  inplace D df m1 f → inplace D df m2 g →
  inplace D df (m1 ;; m2) (Pure.seqF f g).
Proof.
  intros H1 H2 σ T Hdf HT. unfold Pure.seqF.
  eapply runs_bind; [by apply H1|]. intros T' [] σ' _ HT'. by apply H2.
Qed.

Lemma inplace_load D df k f :
  (∀ T, inplace D df (k T) (f T)) →
  inplace D df (T ← load df; k T) (Pure.loadF f).
Proof.
  intros Hk σ T Hdf HT. unfold Pure.loadF.
  change (f T T) with (Ok T ≫= (λ T0, f T0 T)).
  eapply runs_bind; [by apply (runs_load D df σ T (λ T1 T2 σ', T1 = T2 ∧ σ' = σ))|].
  intros T1 T2 σ' [= <-] [<- ->]. by apply Hk.
Qed.

Lemma inplace_lift {A} D df (r : result A) k f :
  (∀ a, inplace D df (k a) (f a)) →
  inplace D df (a ← lift r; k a) (Pure.liftF r f).
Proof.
  intros Hk σ T Hdf HT. unfold Pure.liftF.
  eapply runs_bind; [by apply (runs_lift D r σ (λ a1 a2 σ', a1 = a2 ∧ σ' = σ))|].
  intros a1 a2 σ' _ [<- ->]. by apply Hk.
Qed.

Lemma inplace_setitem D df c vals :
  inplace D df (setitem df c vals) (Pure.setF c vals).
Proof.
  intros σ T Hdf HT. unfold setitem, Pure.setF.
  change (Ok (df_set c vals T)) with (Ok T ≫= (λ T0, Ok (df_set c vals T0))).
  eapply runs_bind; [by apply (runs_load D df σ T (λ T1 T2 σ', T1 = T2 ∧ σ' = σ))|].
  intros T1 T2 σ' [= <-] [<- ->].
  apply runs_store; [done|]. apply lookup_insert_eq.
Qed.

Lemma inplace_when_col D df c m f :
  inplace D df m f → inplace D df (when_col df c m) (Pure.when_colF c f).
Proof.
  intros Hm σ T Hdf HT. unfold when_col, Pure.when_colF.
  change (if has_col c T then f T else Ok T)
    with (Ok T ≫= (λ T0, if has_col c T0 then f T else Ok T)).
  eapply runs_bind; [by apply (runs_load D df σ T (λ T1 T2 σ', T1 = T2 ∧ σ' = σ))|].
  intros T1 T2 σ' [= <-] [<- ->].
  destruct (has_col c T); [by apply Hm | by apply runs_ret].
Qed.

Lemma inplace_if D df (b : bool) m1 m2 f g :
  inplace D df m1 f → inplace D df m2 g →
  inplace D df (if b then m1 else m2) (if b then f else g).
Proof. by destruct b. Qed.

Ltac inplace_tac :=
  repeat first
    [ apply inplace_seq
    | apply inplace_when_col
    | apply inplace_load; intros ?
    | apply inplace_lift; intros ?
    | apply inplace_setitem
    | apply inplace_if
    | apply inplace_ret ].

(** Code that updates the frame at [df] in place and returns [df]. *)
Definition returning (D : gset loc) (df : loc) (m : M loc) (f : Pure.stepF) : Prop :=
  ∀ σ T, df ∉ D → σ !! df = Some T →
    runs D m σ (f T) (λ T' l σ', l = df ∧ σ' !! df = Some T').

Lemma returning_ret D df : returning D df (mret df) Pure.retF.
Proof. intros σ T Hdf HT. by apply runs_ret. Qed.

Lemma returning_seq D df m1 m2 f g :
  inplace D df m1 f → returning D df m2 g →
  returning D df (m1 ;; m2) (Pure.seqF f g).
Proof.
  intros H1 H2 σ T Hdf HT. unfold Pure.seqF.
  eapply runs_bind; [by apply H1|]. intros T' [] σ' _ HT'. by apply H2.
Qed.

Lemma returning_holds D df m f σ T :
  returning D df m f → df ∉ D → σ !! df = Some T →
  runs D m σ (f T) (holds D).
Proof.
  intros Hm Hdf HT. eapply runs_weaken; [by apply Hm|].
  intros T' l σ' [-> ?]. by split.
Qed.

Lemma runs_alloc_holds D T σ : runs D (alloc T) σ (Ok T) (holds D).
Proof.
  intros HD. unfold alloc. cbn. pose proof (is_fresh (dom σ)).
  split; [set_solver|]. split; [intros; apply lookup_insert_ne; set_solver|].
  split; [set_solver | apply lookup_insert_eq].
Qed.

Lemma result_bind_ret {A} (r : result A) : r ≫= Ok = r.
Proof. by destruct r. Qed.

Lemma runs_load_eq D l σ T :
  σ !! l = Some T →
  runs D (load l) σ (Ok T) (λ T1 T2 σ', T1 = T2 ∧ σ' = σ).
Proof. intros. by apply runs_load. Qed.

Lemma runs_lift_eq {A} D (r : result A) σ :
  runs D (lift r) σ r (λ a1 a2 σ', a1 = a2 ∧ σ' = σ).
Proof. by apply runs_lift. Qed.

Lemma copy_runs D df σ T :
  σ !! df = Some T → runs D (copy df) σ (Ok T) (holds D).
Proof.
  intros HT. unfold copy. change (Ok T) with (Ok T ≫= (λ T0 : DataFrame, Ok T0)).
  eapply runs_bind; [by apply runs_load_eq|].
  intros T1 T2 σ' [= <-] [<- ->]. apply runs_alloc_holds.
Qed.

Section cleaner.
Import Cleaner.
Variable env : Env.
Variable config : Config.
Variable D : gset loc.

Lemma set_price_inplace df :
  inplace D df
    (T ← load df;
     price ← lift (df_col "price" T);
     price ← lift (mapR clean_price price);
     setitem df "price" price)
    Pure.set_price.
Proof. unfold Pure.set_price. inplace_tac. Qed.

Lemma fill_inplace df col :
  inplace D df (fill_with_group_median df col) (Pure.fill_with_group_median col).
Proof. unfold fill_with_group_median, Pure.fill_with_group_median. inplace_tac. Qed.

Lemma remove_duplicates_runs df σ T :
  σ !! df = Some T →
  runs D (remove_duplicates df) σ (drop_duplicates "id" T) (holds D).
Proof.
  intros HT. unfold remove_duplicates.
  rewrite <- (result_bind_ret (drop_duplicates "id" T)).
  change (drop_duplicates "id" T ≫= Ok)
    with (Ok T ≫= (λ T0, drop_duplicates "id" T0 ≫= Ok)).
  eapply runs_bind; [by apply runs_load_eq|]. intros T1 T2 σ1 [= <-] [<- ->].
  eapply runs_bind; [by apply runs_lift_eq|]. intros T1 T2 σ1 _ [<- ->].
  apply runs_alloc_holds.
Qed.

Lemma handle_missing_values_runs df σ T :
  σ !! df = Some T →
  runs D (handle_missing_values df) σ (Pure.handle_missing_values T) (holds D).
Proof.
  intros HT. unfold handle_missing_values, Pure.handle_missing_values.
  set (T1 := dropna _ T).
  change (Pure.seqF ?f ?g T1) with (Ok T ≫= (λ _, Ok T1 ≫= Pure.seqF f g)).
  eapply runs_bind; [by apply runs_load_eq|]. intros ? ? σ1 [= <-] [<- ->].
  eapply runs_bind; [by apply runs_alloc_holds|]. intros ? l σ1 [= <-] [Hl HT1].
  eapply (returning_holds D l); [|done|exact HT1].
  apply returning_seq; [apply fill_inplace|].
  apply returning_seq; [apply fill_inplace|]. apply returning_ret.
Qed.

Lemma filter_active_listings_runs df σ T :
  σ !! df = Some T →
  runs D (filter_active_listings df config) σ
    (Pure.filter_active_listings config T) (holds D).
Proof.
  intros HT. unfold filter_active_listings, Pure.filter_active_listings.
  unfold Pure.price_filter.
  assert (Hassoc : ∀ {A B C} (r : result A) (f : A → result B) (g : B → result C),
             (r ≫= f) ≫= g = r ≫= (λ a, f a ≫= g)) by by intros ??? [].
  rewrite !Hassoc.
  change (df_col "price" T ≫= ?f) with (Ok T ≫= (λ _, df_col "price" T ≫= f)).
  eapply runs_bind; [by apply runs_load_eq|]. intros ? ? σ1 [= <-] [<- ->].
  eapply runs_bind; [by apply runs_lift_eq|]. intros price ? σ1 _ [<- ->].
  rewrite !Hassoc.
  eapply runs_bind; [by apply runs_lift_eq|]. intros ge_min ? σ1 _ [<- ->].
  rewrite !Hassoc.
  eapply runs_bind; [by apply runs_lift_eq|]. intros le_max ? σ1 _ [<- ->].
  eapply runs_bind; [by apply runs_alloc_holds|]. intros T1 l σ1 [= <-] [Hl HT1].
  unfold Pure.activity_filter.
  set (T1 := df_select _ T) in *.
  change (df_col "number_of_reviews" T1 ≫= ?f)
    with (Ok T1 ≫= (λ _, df_col "number_of_reviews" T1 ≫= f)).
  eapply runs_bind; [by apply runs_load_eq|]. intros ? ? σ2 [= <-] [<- ->].
  eapply runs_bind; [by apply runs_lift_eq|]. intros reviews ? σ2 _ [<- ->].
  eapply runs_bind; [by apply runs_lift_eq|]. intros hr ? σ2 _ [<- ->].
  eapply runs_bind; [by apply runs_lift_eq|]. intros ha ? σ2 _ [<- ->].
  apply runs_alloc_holds.
Qed.

Lemma add_calculated_fields_returning df :
  returning D df (add_calculated_fields env df) (Pure.add_calculated_fields env).
Proof.
  unfold add_calculated_fields, Pure.add_calculated_fields.
  unfold Pure.set_price_per_person, Pure.set_revenue, Pure.set_review_recency,
    Pure.set_flag.
  repeat (apply returning_seq; [inplace_tac|]). apply returning_ret.
Qed.

Lemma expand_amenities_returning df :
  returning D df
    (when_col df "amenities"
       (T ← load df;
        am ← lift (df_col "amenities" T);
        lists ← lift (mapR (parse_amenities env) am);
        setitem df "amenities_list" (map VList lists);;
        setitem df "amenity_count" (map amenity_len lists));;
     mret df)
    (Pure.expand_amenities env).
Proof.
  unfold Pure.expand_amenities, Pure.set_amenities.
  apply returning_seq; [inplace_tac|]. apply returning_ret.
Qed.

(** [clean_listings] returns a new object that holds the frame of the
    functional reading, raises when the reading raises, and leaves every
    object of the store it started from as it was. *)
Lemma clean_listings_runs df σ T :
  σ !! df = Some T →
  runs D (clean_listings env config df) σ (Pure.clean_listings env config T) (holds D).
Proof.
  intros HT. unfold clean_listings, Pure.clean_listings.
  change (drop_duplicates "id" T ≫= ?f) with (Ok T ≫= (λ T0, drop_duplicates "id" T0 ≫= f)).
  eapply runs_bind; [by apply copy_runs|]. intros ? l1 σ1 [= <-] [Hl1 HT1].
  eapply runs_bind; [by apply remove_duplicates_runs|]. intros T2 l2 σ2 _ [Hl2 HT2].
  eapply runs_bind; [by apply set_price_inplace|]. intros T3 [] σ3 _ HT3.
  eapply runs_bind; [by apply handle_missing_values_runs|]. intros T4 l4 σ4 _ [Hl4 HT4].
  eapply runs_bind; [by apply filter_active_listings_runs|]. intros T5 l5 σ5 _ [Hl5 HT5].
  eapply runs_bind.
  { apply (add_calculated_fields_returning l5); [done|exact HT5]. }
  intros T6 l6 σ6 _ [-> HT6].
  eapply (returning_holds D l5); [apply expand_amenities_returning|done|done].
Qed.

Lemma clean_calendar_runs df σ T :
  σ !! df = Some T →
  runs D (clean_calendar env df) σ (Pure.clean_calendar env T) (holds D).
Proof.
  intros HT. unfold clean_calendar, Pure.clean_calendar.
  change (Pure.parse_dates env T ≫= ?f)
    with (Ok T ≫= (λ T0, Pure.parse_dates env T0 ≫= f)).
  eapply runs_bind; [by apply copy_runs|]. intros ? l1 σ1 [= <-] [Hl1 HT1].
  eapply runs_bind.
  { apply (λ H, H σ1 T Hl1 HT1). unfold Pure.parse_dates. inplace_tac. }
  intros T2 [] σ2 _ HT2.
  eapply runs_bind; [by apply set_price_inplace|]. intros T3 [] σ3 _ HT3.
  eapply runs_bind.
  { apply (λ H, H σ3 T3 Hl1 HT3). unfold Pure.set_available. inplace_tac. }
  intros T4 [] σ4 _ HT4.
  eapply runs_bind.
  { apply (λ H, H σ4 T4 Hl1 HT4). unfold Pure.set_month. inplace_tac. }
  intros T5 [] σ5 _ HT5.
  eapply runs_bind.
  { apply (λ H, H σ5 T5 Hl1 HT5). unfold Pure.set_day_of_week. inplace_tac. }
  intros T6 [] σ6 _ HT6.
  eapply runs_bind.
  { apply (λ H, H σ6 T6 Hl1 HT6). unfold Pure.set_is_weekend. inplace_tac. }
  intros T7 [] σ7 _ HT7.
  change (Ok (dropna ["date"] T7)) with (Ok T7 ≫= (λ T0, Ok (dropna ["date"] T0))).
  eapply runs_bind; [by apply runs_load_eq|]. intros ? ? σ8 [= <-] [<- ->].
  apply runs_alloc_holds.
Qed.

End cleaner.

Section competitive.
Import Competitive.
Variable D : gset loc.

Lemma add_segments_to_df_runs self σ T :
  σ !! self_df self = Some T →
  runs D (add_segments_to_df self) σ (Pure.add_segments (_segments self) T) (holds D).
Proof.
  intros HT. unfold add_segments_to_df.
  rewrite <- (result_bind_ret (Pure.add_segments _ T)).
  change (Pure.add_segments ?s T ≫= Ok)
    with (Ok T ≫= (λ T0, Pure.add_segments s T0 ≫= Ok)).
  eapply runs_bind; [by apply copy_runs|]. intros ? l1 σ1 [= <-] [Hl1 HT1].
  eapply runs_bind.
  { apply (λ H, H σ1 T Hl1 HT1). unfold Pure.add_segments, _assign_segment. inplace_tac. }
  intros T2 [] σ2 _ HT2. by apply runs_ret.
Qed.

End competitive.

(** What [runs] says about a run, spelled out. *)
Lemma runs_elim {A} D (m : M A) σ (r : result DataFrame) Q :
  runs D m σ r Q → D ⊆ dom σ →
  (∀ k, k ∈ D → (m σ).2 !! k = σ !! k)
  ∧ (∀ T, r = Ok T → ∃ a, (m σ).1 = Ok a ∧ Q T a (m σ).2)
  ∧ (∀ a, (m σ).1 = Ok a → ∃ T, r = Ok T ∧ Q T a (m σ).2)
  ∧ (∀ e, r = Raise e ↔ (m σ).1 = Raise e).
Proof.
  intros Hm HD. destruct (Hm HD) as (_ & Hfr & Hres).
  split; [done|]. destruct r as [T|e], (m σ).1 as [a|e'] eqn:E; try done.
  - split; [|split].
    + intros ? [= <-]. eauto.
    + intros ? [= <-]. eauto.
    + by split.
  - subst. split; [|split]; [done | done |]. intros e. by split; intros [= ->].
Qed.

End StoreFacts.

(** ** Frames: generic facts *)

Module FrameFacts.

Lemma mapR_Forall2 {A B} (f : A → result B) l ys :
  mapR f l = Ok ys ↔ Forall2 (λ x y, f x = Ok y) l ys.
Proof.
  revert ys. induction l as [|x l IH]; intros ys; cbn.
  - split; [intros [= <-]; constructor | by inversion 1].
  - destruct (f x) as [y|e] eqn:Ex.
    + destruct (mapR f l) as [ys'|e] eqn:El.
      * split.
        -- intros [= <-]. constructor; [done|]. by apply IH.
        -- inversion 1 as [|? y' ? ys'' Hy Hys]; subst.
           rewrite Ex in Hy. injection Hy as <-.
           apply IH in Hys. by injection Hys as <-.
      * split; [done|]. inversion 1 as [|? y' ? ys'' Hy Hys]; subst.
        by apply IH in Hys.
    + split; [done|]. inversion 1 as [|? y' ? ys'' Hy Hys]; subst. congruence.
Qed.

Lemma mapR_length {A B} (f : A → result B) l ys :
  mapR f l = Ok ys → length ys = length l.
Proof. intros H. apply mapR_Forall2 in H. symmetry. by eapply Forall2_length. Qed.

Lemma mapR_map {A B C} (f : B → result C) (g : A → B) l :
  mapR f (map g l) = mapR (λ x, f (g x)) l.
Proof. induction l as [|x l IH]; [done|]. cbn. by rewrite IH. Qed.

Lemma mapR_ext {A B} (f g : A → result B) l :
  Forall (λ x, f x = g x) l → mapR f l = mapR g l.
Proof. induction 1 as [|x l Hx Hl IH]; [done|]. cbn. by rewrite Hx, IH. Qed.

Lemma mapR_pure {A B} (f : A → B) l : mapR (λ x, Ok (f x)) l = Ok (map f l).
Proof. induction l as [|x l IH]; [done|]. cbn. by rewrite IH. Qed.

Lemma mapR_Ok {A B} (f : A → result B) (g : A → B) l :
  Forall (λ x, f x = Ok (g x)) l → mapR f l = Ok (map g l).
Proof. intros H. rewrite (mapR_ext f (λ x, Ok (g x))) by done. apply mapR_pure. Qed.

Lemma zipR_map {A B C D} (f : B → C → result D) (g : A → B) (h : A → C) l :
  Cleaner.zipR f (map g l) (map h l) = mapR (λ x, f (g x) (h x)) l.
Proof. induction l as [|x l IH]; [done|]. cbn. by rewrite IH. Qed.

Lemma mapR_bind_map {A B C} (f : A → result B) (g : B → C) l :
  mapR (λ x, y ← f x; Ok (g y)) l = (ys ← mapR f l; Ok (map g ys)).
Proof.
  induction l as [|x l IH]; [done|]. cbn. rewrite IH.
  destruct (f x); [|done]. cbn. by destruct (mapR f l).
Qed.

Lemma has_col_true c T : has_col c T = true ↔ c ∈ columns T.
Proof. unfold has_col. apply bool_decide_eq_true. Qed.

Lemma df_col_has c T :
  has_col c T = true → df_col c T = Ok (map (cell c) (rows T)).
Proof. intros H. unfold df_col. by rewrite H. Qed.

Lemma df_col_Ok c T vals :
  df_col c T = Ok vals → has_col c T = true ∧ vals = map (cell c) (rows T).
Proof. unfold df_col. destruct (has_col c T); [|done]. by intros [= <-]. Qed.

Lemma has_col_df_set c c' vals T :
  has_col c (df_set c' vals T) = has_col c T || bool_decide (c = c').
Proof.
  unfold has_col at 1. cbn [df_set columns].
  destruct (has_col c' T) eqn:E.
  - fold (has_col c T). destruct (bool_decide_reflect (c = c')) as [->|].
    + by rewrite E.
    + by rewrite orb_false_r.
  - destruct (bool_decide_reflect (c = c')) as [->|Hne].
    + rewrite orb_true_r. apply bool_decide_eq_true, elem_of_app. right. by left.
    + rewrite orb_false_r. unfold has_col. apply bool_decide_ext.
      rewrite elem_of_app, list_elem_of_singleton. tauto.
Qed.

Lemma frame_eta T : {| columns := columns T; rows := rows T |} = T.
Proof. by destruct T. Qed.

Lemma zip_with_insert_id c (f : row → value) (rs : list row) :
  Forall (λ r, r !! c = Some (f r)) rs →
  zip_with (λ (r : row) v, <[c := v]> r) rs (map f rs) = rs.
Proof.
  induction 1 as [|r rs Hr Hrs IH]; [done|]. cbn. rewrite IH. f_equal.
  by apply insert_id.
Qed.

Lemma df_set_id c (f : row → value) T :
  has_col c T = true → Forall (λ r, r !! c = Some (f r)) (rows T) →
  df_set c (map f (rows T)) T = T.
Proof.
  intros Hc Hr. unfold df_set. rewrite Hc, zip_with_insert_id by done.
  apply frame_eta.
Qed.

Lemma select_sublist {A} mask (l : list A) : sublist (select mask l) l.
Proof.
  revert l. induction mask as [|b mask IH]; intros [|x l]; cbn.
  - constructor.
  - apply sublist_nil_l.
  - constructor.
  - destruct b; [apply sublist_skip | apply sublist_cons]; apply IH.
Qed.

Lemma select_all {A} (l : list A) mask :
  length mask = length l → Forall (λ b, b = true) mask → select mask l = l.
Proof.
  revert l. induction mask as [|b mask IH]; intros [|x l] Hlen Hall; cbn; try done.
  apply Forall_cons in Hall as [-> Hall]. f_equal. apply IH; [|done].
  cbn in Hlen. lia.
Qed.

Lemma select_Forall2 {A} (P : A → bool → Prop) l mask :
  Forall2 P l mask → Forall (λ x, P x true) (select mask l).
Proof.
  induction 1 as [|x b l mask Hx Hl IH]; cbn; [constructor|].
  destruct b; [by constructor | done].
Qed.

Lemma Forall2_zip_with_bool {A} (P Q : A → bool → Prop) (op : bool → bool → bool) l b1 b2 :
  Forall2 P l b1 → Forall2 Q l b2 →
  Forall2 (λ x b, ∃ c1 c2, P x c1 ∧ Q x c2 ∧ b = op c1 c2) l (zip_with op b1 b2).
Proof.
  intros H1. revert b2. induction H1 as [|x c1 l b1 Hx Hl IH]; intros b2 H2.
  - inversion H2. constructor.
  - inversion H2 as [|? c2 ? b2' Hq Hqs]; subst. cbn. constructor; [|by apply IH].
    by exists c1, c2.
Qed.

Lemma filter_all {A} (p : A → bool) l :
  Forall (λ x, p x = true) l → List.filter p l = l.
Proof. induction 1 as [|x l Hx Hl IH]; [done|]. cbn. by rewrite Hx, IH. Qed.

Lemma filter_sublist {A} (p : A → bool) l : sublist (List.filter p l) l.
Proof.
  induction l as [|x l IH]; cbn; [constructor|].
  destruct (p x); by constructor.
Qed.

Lemma filter_Forall {A} (p : A → bool) l : Forall (λ x, p x = true) (List.filter p l).
Proof.
  induction l as [|x l IH]; cbn; [constructor|].
  destruct (p x) eqn:E; [by constructor | done].
Qed.

(** *** Equality of keys *)

Lemma feq_refl x : x ≠ fnan → feq x x = true.
Proof.
  destruct x as [|[]|q]; try done. intros _. cbn. apply Qeq_bool_refl.
Qed.

Lemma py_eq_refl v : isna v = false → py_eq v v = true.
Proof.
  destruct v as [[|[]|q]|z|s|[]|l|d]; cbn; try done; intros _.
  - apply Qeq_bool_refl.
  - apply Qeq_bool_refl.
  - apply String.eqb_refl.
  - by apply bool_decide_eq_true.
  - apply Z.eqb_refl.
Qed.

Lemma key_eq_refl v : key_eq v v = true.
Proof.
  unfold key_eq. destruct (isna v) eqn:E; [done|]. cbn. by apply py_eq_refl.
Qed.

(** Properties of every entry of a list, decided by evaluation. *)
Lemma Forall_check {A} (p : A → bool) l :
  forallb p l = true → Forall (λ x, p x = true) l.
Proof.
  induction l as [|x l IH]; cbn; [constructor|].
  intros [Hx Hl]%andb_true_iff. constructor; auto.
Qed.

Lemma Forall_check_false {A} (p : A → bool) l :
  forallb (λ x, negb (p x)) l = true → Forall (λ x, p x = false) l.
Proof.
  induction l as [|x l IH]; cbn; [constructor|].
  intros [Hx%negb_true_iff Hl]%andb_true_iff. constructor; auto.
Qed.

Lemma Forall_check_bool c (rs : list row) :
  forallb (λ r, match cell c r with VBool _ => true | _ => false end) rs = true →
  Forall (λ r, ∃ b, cell c r = VBool b) rs.
Proof.
  induction rs as [|r rs IH]; cbn; [constructor|].
  intros [Hx Hl]%andb_true_iff. constructor; [|auto].
  destruct (cell c r); try done. eauto.
Qed.

End FrameFacts.

(** ** [clean_price] *)

Module PriceFacts.
Import Text TextFacts.

Lemma chars_roundtrip s : list_ascii_of_string (string_of_list_ascii s) = s.
Proof. apply list_ascii_of_string_of_list_ascii. Qed.

(** The text [clean_price] parses. *)
Lemma tidy_string s :
  str_strip (str_replace "," "" (str_replace "$" "" s))
  = string_of_list_ascii (tidy (list_ascii_of_string s)).
Proof.
  unfold str_strip, str_replace, tidy. by rewrite !chars_roundtrip.
Qed.


(** Floats that [repr] prints exactly: every float but the rationals with
    no finite decimal expansion. *)
Definition printable (x : float) : Prop :=
  match x with
  | fnum q => is_decimal q
  | _ => True
  end.

Lemma clean_price_float x : printable x → clean_price (VFloat x) = Ok (VFloat x).
Proof.
  intros Hx. destruct (float_repr_roundtrip x Hx) as [Hrt Hpl].
  unfold clean_price. destruct x as [| |q]; [done| |].
  all: cbn [isna_truth isna mbind result_mbind result_bind py_str].
  all: rewrite tidy_string; unfold str_of_float, py_float.
  all: by rewrite !chars_roundtrip, tidy_plain, Hrt.
Qed.

Lemma float_of_chars_printable s x : float_of_chars s = Some x → printable x.
Proof.
  destruct x as [| |q]; try done. apply float_of_chars_decimal.
Qed.

(** [clean_price] returns a float, and one that it maps to itself. *)
Lemma clean_price_returns v w :
  clean_price v = Ok w → ∃ x, w = VFloat x ∧ printable x.
Proof.
  unfold clean_price. destruct (isna_truth v) as [[]|]; cbn; try done.
  - intros [= <-]. by exists fnan.
  - unfold py_float. destruct (float_of_chars _) as [x|] eqn:E; intros [= <-].
    + exists x. split; [done|]. by eapply float_of_chars_printable.
    + by exists fnan.
Qed.

Lemma clean_price_idem v w : clean_price v = Ok w → clean_price w = Ok w.
Proof.
  intros H. apply clean_price_returns in H as (x & -> & Hx). by apply clean_price_float.
Qed.




End PriceFacts.

(** ** The listing pipeline, stage by stage *)

Module PipelineFacts.
Import Pure FrameFacts Cleaner.

(** *** Where the rows of a result come from *)

(** [agree K r' r]: the rows hold the same cells under the keys of [K]. *)
Definition agree (K : string → Prop) (r' r : row) : Prop :=
  ∀ k, K k → r' !! k = r !! k.

(** [from_rows K rs' rs]: the rows [rs'] are rows of [rs], in order, changed
    outside [K] at most. *)
Definition from_rows (K : string → Prop) (rs' rs : list row) : Prop :=
  ∃ rs0, sublist rs0 rs ∧ Forall2 (agree K) rs' rs0.

Lemma agree_refl K r : agree K r r.
Proof. by intros k _. Qed.

Lemma agree_trans K r1 r2 r3 : agree K r1 r2 → agree K r2 r3 → agree K r1 r3.
Proof. intros H1 H2 k Hk. by rewrite H1, H2. Qed.

Lemma agree_weaken (K K' : string → Prop) r' r :
  (∀ k, K' k → K k) → agree K r' r → agree K' r' r.
Proof. intros HK H k Hk. apply H. by apply HK. Qed.

Lemma agree_insert (K : string → Prop) c v r : ¬ K c → agree K (<[c := v]> r) r.
Proof.
  intros Hc k Hk. apply lookup_insert_ne. intros ->. by apply Hc.
Qed.

Lemma from_rows_refl K rs : from_rows K rs rs.
Proof.
  exists rs. split; [done|]. induction rs; constructor; [apply agree_refl | done].
Qed.

Lemma from_rows_sublist K rs' rs : sublist rs' rs → from_rows K rs' rs.
Proof.
  intros H. exists rs'. split; [done|].
  clear. induction rs'; constructor; [apply agree_refl | done].
Qed.

Lemma sublist_Forall2 {A B} (R : A → B → Prop) l1 l2 k2 :
  sublist l1 l2 → Forall2 R l2 k2 →
  ∃ k1, sublist k1 k2 ∧ Forall2 R l1 k1.
Proof.
  intros Hs. revert k2. induction Hs as [|x l1 l2 Hs IH|x l1 l2 Hs IH]; intros k2 HF.
  - exists []. split; [apply sublist_nil_l | constructor].
  - inversion HF as [|? y ? k2' Hxy HF']; subst.
    destruct (IH _ HF') as (k1 & Hk & HR).
    exists (y :: k1). split; [by constructor | by constructor].
  - inversion HF as [|? y ? k2' Hxy HF']; subst.
    destruct (IH _ HF') as (k1 & Hk & HR).
    exists k1. split; [by constructor | done].
Qed.

Lemma from_rows_trans K rs1 rs2 rs3 :
  from_rows K rs1 rs2 → from_rows K rs2 rs3 → from_rows K rs1 rs3.
Proof.
  intros (a & Ha & H1) (b & Hb & H2).
  destruct (sublist_Forall2 _ _ _ _ Ha H2) as (c & Hc & H3).
  exists c. split; [by etransitivity|].
  clear -H1 H3. revert c H3. induction H1 as [|r1 r2 l1 l2 Hr Hl IH]; intros c H3.
  - inversion H3. constructor.
  - inversion H3; subst. constructor; [by eapply agree_trans | by apply IH].
Qed.

Lemma from_rows_weaken (K K' : string → Prop) rs' rs :
  (∀ k, K' k → K k) → from_rows K rs' rs → from_rows K' rs' rs.
Proof.
  intros HK (a & Ha & H). exists a. split; [done|].
  eapply Forall2_impl; [exact H|]. intros. by eapply agree_weaken.
Qed.

Lemma from_rows_Forall K (P : row → Prop) rs' rs :
  (∀ r' r, agree K r' r → P r → P r') →
  from_rows K rs' rs → Forall P rs → Forall P rs'.
Proof.
  intros HP (a & Ha & H) Hrs.
  assert (Forall P a) as Hfa.
  { apply Forall_forall. intros x Hx. eapply Forall_forall; [exact Hrs|].
    by eapply elem_of_sublist. }
  clear -HP H Hfa. induction H as [|r' r l' l Hr Hl IH]; [constructor|].
  apply Forall_cons in Hfa as [? ?]. constructor; [by eapply HP | by apply IH].
Qed.

Lemma from_rows_zip_insert (K : string → Prop) c (rs : list row) vals :
  ¬ K c → from_rows K (zip_with (λ (r : row) v, <[c := v]> r) rs vals) rs.
Proof.
  intros Hc. exists (take (length vals) rs). split; [apply sublist_take|].
  revert vals. induction rs as [|r rs IH]; intros [|v vals]; cbn; try constructor.
  - by apply agree_insert.
  - apply IH.
Qed.

(** *** What a stage writes *)

(** [writes W f]: a run of [f] keeps, drops or changes rows, changes them
    under the keys of [W] only, and adds no column outside [W]. *)
Definition writes (W : list string) (f : stepF) : Prop :=
  ∀ T T', f T = Ok T' →
    from_rows (λ k, k ∉ W) (rows T') (rows T)
    ∧ (∀ c, has_col c T = true → has_col c T' = true)
    ∧ (∀ c, c ∉ W → has_col c T' = has_col c T).

Lemma writes_weaken W W' f : W ⊆ W' → writes W f → writes W' f.
Proof.
  intros HW Hf T T' HT. destruct (Hf T T' HT) as (Hr & Hc & Hn).
  split; [|split]; [|done|].
  - eapply from_rows_weaken; [|exact Hr]. cbn. intros k Hk Hin. apply Hk. by apply HW.
  - intros c Hc'. apply Hn. intros Hin. apply Hc'. by apply HW.
Qed.

Lemma writes_ret W : writes W retF.
Proof.
  intros T T' [= <-]. split; [apply from_rows_refl|]. by split.
Qed.

Lemma writes_seq W f g : writes W f → writes W g → writes W (seqF f g).
Proof.
  intros Hf Hg T T'' H. unfold seqF in H. destruct (f T) as [T'|] eqn:E; [|done].
  cbn in H. destruct (Hf T T' E) as (Hr & Hc & Hn).
  destruct (Hg T' T'' H) as (Hr' & Hc' & Hn').
  split; [by eapply from_rows_trans|]. split; [auto|].
  intros c Hc0. by rewrite Hn', Hn.
Qed.

Lemma writes_load W f : (∀ T, writes W (f T)) → writes W (loadF f).
Proof. intros Hf T T' H. by apply (Hf T). Qed.

Lemma writes_lift {A} W (r : result A) f : (∀ a, writes W (f a)) → writes W (liftF r f).
Proof.
  intros Hf T T' H. unfold liftF in H. destruct r as [a|]; [|done]. by apply (Hf a).
Qed.

Lemma writes_when W c f : writes W f → writes W (when_colF c f).
Proof.
  intros Hf T T' H. unfold when_colF in H. destruct (has_col c T); [by apply Hf|].
  by apply writes_ret.
Qed.

Lemma writes_if W (b : bool) f g : writes W f → writes W g → writes W (if b then f else g).
Proof. by destruct b. Qed.

Lemma writes_set W c vals : c ∈ W → writes W (setF c vals).
Proof.
  intros Hc T T' [= <-]. split; [|split].
  - cbn. apply from_rows_zip_insert. tauto.
  - intros c' H. rewrite has_col_df_set, H. done.
  - intros c' Hc'. rewrite has_col_df_set.
    rewrite bool_decide_eq_false_2; [apply orb_false_r|]. by intros ->.
Qed.

Lemma writes_rows W (f : stepF) :
  (∀ T T', f T = Ok T' → columns T' = columns T ∧ sublist (rows T') (rows T)) →
  writes W f.
Proof.
  intros Hf T T' H. destruct (Hf T T' H) as [Hc Hs].
  split; [by apply from_rows_sublist|]. unfold has_col. rewrite Hc. by split.
Qed.

Ltac writes_tac :=
  repeat first
    [ apply writes_seq
    | apply writes_when
    | apply writes_load; intros ?
    | apply writes_lift; intros ?
    | apply writes_if
    | apply writes_ret
    | apply writes_set; set_solver ].

(** *** Columns computed row by row *)

(** [df[c] = h(row)] for every row. *)
Definition derive (c : string) (h : row → result value) : stepF :=
  λ T, vals ← mapR h (rows T); Ok (df_set c vals T).

(** [h] reads the cells under [cs] only. *)
Definition dep {A} (cs : list string) (h : row → A) : Prop :=
  ∀ r r', agree (λ k, k ∈ cs) r r' → h r = h r'.

(** The row holds under [c] what [h] computes from it. *)
Definition Fix (c : string) (h : row → result value) (r : row) : Prop :=
  ∃ v, h r = Ok v ∧ r !! c = Some v.

Lemma derive_writes W c h : c ∈ W → writes W (derive c h).
Proof.
  intros Hc T T' H. unfold derive in H.
  destruct (mapR h (rows T)) as [vals|]; [|done]. by apply (writes_set W c vals).
Qed.

Lemma derive_rows c h T T' :
  derive c h T = Ok T' →
  Forall2 (λ r' r, ∃ v, h r = Ok v ∧ r' = <[c := v]> r) (rows T') (rows T)
  ∧ has_col c T' = true.
Proof.
  unfold derive. intros H. destruct (mapR h (rows T)) as [vals|] eqn:E; [|done].
  injection H as <-. apply mapR_Forall2 in E. split.
  - cbn. induction E as [|r v rs vals Hr Hrs IH]; cbn; constructor; eauto.
  - rewrite has_col_df_set. rewrite bool_decide_eq_true_2 by done. apply orb_true_r.
Qed.

Lemma derive_fix cs c h T T' :
  dep cs h → c ∉ cs → derive c h T = Ok T' → Forall (Fix c h) (rows T').
Proof.
  intros Hdep Hc H. apply derive_rows in H as [H _].
  induction H as [|r' r rs' rs (v & Hv & ->) Hrs IH]; constructor; [|done].
  exists v. split; [|apply lookup_insert_eq].
  rewrite <- Hv. apply Hdep. intros k Hk. apply lookup_insert_ne. by intros ->.
Qed.

Lemma derive_id c h T :
  has_col c T = true → Forall (Fix c h) (rows T) → derive c h T = Ok T.
Proof.
  intros Hc HF. unfold derive. rewrite (mapR_Ok h (cell c)).
  - cbn. f_equal. apply df_set_id; [done|].
    eapply Forall_impl; [exact HF|]. intros r (v & _ & Hv). unfold cell. by rewrite Hv.
  - eapply Forall_impl; [exact HF|]. intros r (v & Hh & Hv). unfold cell. by rewrite Hv.
Qed.

Lemma Fix_agree cs c h r' r :
  dep cs h → agree (λ k, k ∈ c :: cs) r' r → Fix c h r → Fix c h r'.
Proof.
  intros Hdep Ha (v & Hh & Hv). exists v. split.
  - rewrite <- Hh. apply Hdep. intros k Hk. apply Ha. by right.
  - rewrite <- Hv. apply Ha. by left.
Qed.

Lemma mapR_zip_insert {A} cs c (h : row → result A) (rs : list row) vals :
  dep cs h → c ∉ cs → length vals = length rs →
  mapR h (zip_with (λ (r : row) v, <[c := v]> r) rs vals) = mapR h rs.
Proof.
  intros Hdep Hc. revert vals. induction rs as [|r rs IH]; intros [|v vals] Hlen;
    try done.
  cbn. rewrite IH by (cbn in Hlen; lia).
  rewrite (Hdep (<[c := v]> r) r); [done|].
  intros k Hk. apply lookup_insert_ne. by intros ->.
Qed.

(** A column [target] computed from the columns [deps] when the frame has
    the column [trigger]. *)
Record Deriv := {
  trigger : string;
  target : string;
  deps : list string;
  fn : row → result value;
}.

Definition cond_derive (d : Deriv) : stepF :=
  when_colF (trigger d) (derive (target d) (fn d)).

Fixpoint seqs (fs : list stepF) : stepF :=
  match fs with
  | [] => retF
  | f :: fs' => seqF f (seqs fs')
  end.

Fixpoint derivs_ok (ds : list Deriv) : Prop :=
  match ds with
  | [] => True
  | d :: ds' =>
      dep (deps d) (fn d) ∧ (target d ∉ deps d) ∧ trigger d ≠ target d
      ∧ Forall (λ d', target d' ∉ trigger d :: target d :: deps d) ds'
      ∧ derivs_ok ds'
  end.

(** The frame holds every column of [ds] whose trigger it has. *)
Definition derived (ds : list Deriv) (T : DataFrame) : Prop :=
  Forall (λ d, has_col (trigger d) T = true →
               has_col (target d) T = true ∧ Forall (Fix (target d) (fn d)) (rows T)) ds.

Lemma seqs_writes W fs : Forall (writes W) fs → writes W (seqs fs).
Proof.
  induction 1 as [|f fs Hf Hfs IH]; cbn; [apply writes_ret | by apply writes_seq].
Qed.

Lemma cond_derive_writes W d : target d ∈ W → writes W (cond_derive d).
Proof. intros. apply writes_when. by apply derive_writes. Qed.

Lemma derivs_writes ds : writes (map target ds) (seqs (map cond_derive ds)).
Proof.
  apply seqs_writes. apply Forall_forall. intros f Hf.
  apply list_elem_of_fmap in Hf as (d & -> & Hd).
  apply cond_derive_writes. apply list_elem_of_fmap. eauto.
Qed.

Lemma derivs_establish ds T T' :
  derivs_ok ds → seqs (map cond_derive ds) T = Ok T' → derived ds T'.
Proof.
  revert T. induction ds as [|d ds IH]; intros T Hok H; [constructor|].
  destruct Hok as (Hdep & Hself & Htrig & Hlater & Hok').
  cbn in H. unfold seqF in H.
  destruct (cond_derive d T) as [T1|] eqn:E1; [|done]. cbn in H.
  constructor; [|by apply (IH T1)].
  destruct (derivs_writes ds T1 T' H) as (Hrows & Hmono & Hstable).
  assert (Hnot : ∀ k, k ∈ trigger d :: target d :: deps d → k ∉ map target ds).
  { intros k Hk Hin. apply list_elem_of_fmap in Hin as (d' & -> & Hd').
    eapply Forall_forall in Hlater; [|exact Hd']. done. }
  intros Htr. rewrite Hstable in Htr by (apply Hnot; by left).
  destruct (cond_derive_writes [target d] d ltac:(by left) T T1 E1) as (_ & _ & Hst1).
  rewrite Hst1 in Htr by (rewrite list_elem_of_singleton; done).
  unfold cond_derive, when_colF in E1. rewrite Htr in E1.
  split.
  - apply Hmono. by apply derive_rows in E1 as [_ ?].
  - eapply from_rows_Forall; [|exact Hrows|by eapply derive_fix].
    intros r' r Ha. apply (Fix_agree (deps d)); [done|].
    intros k Hk. apply Ha. apply Hnot. by right.
Qed.

Lemma derivs_id ds T : derived ds T → seqs (map cond_derive ds) T = Ok T.
Proof.
  induction 1 as [|d ds Hd Hds IH]; [done|].
  cbn [map seqs]. unfold seqF.
  assert (cond_derive d T = Ok T) as ->; [|exact IH].
  unfold cond_derive, when_colF.
  destruct (has_col (trigger d) T) eqn:E; [|done].
  destruct Hd as [Hc HF]; [done|]. by apply derive_id.
Qed.

(** *** The derived columns of [clean_listings] *)

Definition h_ppp (r : row) : result value :=
  v_div (cell "price" r) (replace_zero (cell "accommodates" r)).
Definition h_booked (r : row) : result value :=
  v_sub (VInt 30) (cell "availability_30" r).
Definition h_revenue (r : row) : result value :=
  v_mul (cell "price" r) (cell "est_booked_30" r).
Definition h_dt (env : Env) (r : row) : result value :=
  to_datetime env (cell "last_review" r).
Definition h_days (env : Env) (r : row) : result value :=
  days_since env (cell "last_review_dt" r).
Definition h_flag (src : string) (r : row) : result value :=
  Ok (map_tf (cell src r)).
Definition h_alist (env : Env) (r : row) : result value :=
  l ← parse_amenities env (cell "amenities" r); Ok (VList l).
Definition h_acount (env : Env) (r : row) : result value :=
  l ← parse_amenities env (cell "amenities" r); Ok (amenity_len l).

Definition listing_derivs (env : Env) : list Deriv :=
  [ {| trigger := "accommodates"; target := "price_per_person";
       deps := ["price"; "accommodates"]; fn := h_ppp |};
    {| trigger := "availability_30"; target := "est_booked_30";
       deps := ["availability_30"]; fn := h_booked |};
    {| trigger := "availability_30"; target := "est_monthly_revenue";
       deps := ["price"; "est_booked_30"]; fn := h_revenue |};
    {| trigger := "last_review"; target := "last_review_dt";
       deps := ["last_review"]; fn := h_dt env |};
    {| trigger := "last_review"; target := "days_since_review";
       deps := ["last_review_dt"]; fn := h_days env |};
    {| trigger := "host_is_superhost"; target := "is_superhost";
       deps := ["host_is_superhost"]; fn := h_flag "host_is_superhost" |};
    {| trigger := "instant_bookable"; target := "is_instant_bookable";
       deps := ["instant_bookable"]; fn := h_flag "instant_bookable" |};
    {| trigger := "amenities"; target := "amenities_list";
       deps := ["amenities"]; fn := h_alist env |};
    {| trigger := "amenities"; target := "amenity_count";
       deps := ["amenities"]; fn := h_acount env |} ].

Ltac notin_tac :=
  repeat (apply not_elem_of_cons; split; [discriminate|]); apply not_elem_of_nil.

Ltac in_tac :=
  repeat first [ apply list_elem_of_here | apply list_elem_of_further ].

Ltac dep_tac :=
  let r := fresh "r" in let r' := fresh "r'" in let Ha := fresh "Ha" in
  intros r r' Ha; unfold cell;
  repeat match goal with
         | |- context [r !! ?k] => rewrite (Ha k) by in_tac
         end;
  reflexivity.

Lemma listing_derivs_ok env : derivs_ok (listing_derivs env).
Proof.
  cbn [listing_derivs derivs_ok trigger target deps fn].
  repeat split; try discriminate; try notin_tac; try (repeat constructor; notin_tac).
  all: try (unfold h_ppp, h_booked, h_revenue, h_dt, h_days, h_flag, h_alist, h_acount;
            dep_tac).
Qed.

(** The targets of the derived columns. *)
Definition listing_targets : list string :=
  ["price_per_person"; "est_booked_30"; "est_monthly_revenue"; "last_review_dt";
   "days_since_review"; "is_superhost"; "is_instant_bookable"; "amenities_list";
   "amenity_count"].

Lemma listing_targets_eq env : map target (listing_derivs env) = listing_targets.
Proof. reflexivity. Qed.

(** Each block of [add_calculated_fields] computes its columns row by row. *)

Lemma set_price_per_person_nf env T :
  has_col "price" T = true →
  set_price_per_person T = seqs (map cond_derive (take 1 (listing_derivs env))) T.
Proof.
  intros Hp. cbn. unfold seqF, retF, cond_derive, set_price_per_person, when_colF.
  cbn [trigger target fn]. destruct (has_col "accommodates" T) eqn:Ha; [|done].
  unfold loadF, liftF, setF, derive. rewrite !df_col_has by done. cbn.
  rewrite map_map, zipR_map. fold h_ppp.
  change (mapR (λ x, v_div (cell "price" x) (replace_zero (cell "accommodates" x))))
    with (mapR h_ppp).
  by destruct (mapR h_ppp (rows T)).
Qed.

Lemma has_col_df_set_old c c' vals T :
  has_col c T = true → has_col c (df_set c' vals T) = true.
Proof. intros H. by rewrite has_col_df_set, H. Qed.

Lemma has_col_df_set_new c vals T : has_col c (df_set c vals T) = true.
Proof. rewrite has_col_df_set, bool_decide_eq_true_2 by done. apply orb_true_r. Qed.

Lemma set_revenue_nf env T :
  has_col "price" T = true →
  set_revenue T = seqs (map cond_derive (take 2 (drop 1 (listing_derivs env)))) T.
Proof.
  intros Hp. cbn. unfold seqF, retF, cond_derive, set_revenue, when_colF.
  cbn [trigger target fn]. destruct (has_col "availability_30" T) eqn:Ha; [|cbn; by rewrite Ha].
  unfold loadF, liftF, setF, derive, seqF. rewrite !df_col_has by done. cbn.
  rewrite mapR_map. change (mapR (λ x, v_sub (VInt 30) (cell "availability_30" x)))
    with (mapR h_booked).
  destruct (mapR h_booked (rows T)) as [booked|]; [|done]. cbn.
  set (T1 := df_set "est_booked_30" booked T).
  assert (has_col "availability_30" T1 = true) as -> by by apply has_col_df_set_old.
  rewrite !df_col_has
    by (apply has_col_df_set_new || by apply has_col_df_set_old).
  cbn. rewrite zipR_map.
  change (mapR (λ x, v_mul (cell "price" x) (cell "est_booked_30" x)))
    with (mapR h_revenue).
  by destruct (mapR h_revenue _).
Qed.

Lemma set_review_recency_nf env T :
  set_review_recency env T
  = seqs (map cond_derive (take 2 (drop 3 (listing_derivs env)))) T.
Proof.
  cbn. unfold seqF, retF, cond_derive, set_review_recency, when_colF.
  cbn [trigger target fn]. destruct (has_col "last_review" T) eqn:Ha; [|cbn; by rewrite Ha].
  unfold loadF, liftF, setF, derive, seqF. rewrite !df_col_has by done. cbn.
  rewrite mapR_map. change (mapR (λ x, to_datetime env (cell "last_review" x)))
    with (mapR (h_dt env)).
  destruct (mapR (h_dt env) (rows T)) as [dt|]; [|done]. cbn.
  set (T1 := df_set "last_review_dt" dt T).
  assert (has_col "last_review" T1 = true) as -> by by apply has_col_df_set_old.
  rewrite !df_col_has by apply has_col_df_set_new.
  cbn. rewrite mapR_map.
  change (mapR (λ x, days_since env (cell "last_review_dt" x)))
    with (mapR (h_days env)).
  by destruct (mapR (h_days env) _).
Qed.

Lemma set_flag_nf src dst ds T :
  set_flag src dst T
  = cond_derive {| trigger := src; target := dst; deps := ds; fn := h_flag src |} T.
Proof.
  unfold cond_derive, set_flag, when_colF. cbn [trigger target fn].
  destruct (has_col src T) eqn:Ha; [|done].
  unfold loadF, liftF, setF, derive. rewrite !df_col_has by done. cbn.
  unfold h_flag. rewrite mapR_pure. cbn. by rewrite map_map.
Qed.

Lemma set_amenities_nf env T :
  set_amenities env T
  = seqs (map cond_derive (drop 7 (listing_derivs env))) T.
Proof.
  cbn. unfold seqF, retF, cond_derive, set_amenities, when_colF.
  cbn [trigger target fn]. destruct (has_col "amenities" T) eqn:Ha; [|cbn; by rewrite Ha].
  unfold loadF, liftF, setF, derive, seqF. rewrite !df_col_has by done. cbn.
  rewrite mapR_map. unfold h_alist at 1. rewrite mapR_bind_map.
  destruct (mapR (λ x, parse_amenities env (cell "amenities" x)) (rows T))
    as [lists|] eqn:E; [|done]. cbn.
  set (T1 := df_set "amenities_list" (map VList lists) T).
  assert (has_col "amenities" T1 = true) as -> by by apply has_col_df_set_old.
  rewrite (mapR_zip_insert ["amenities"] "amenities_list").
  - unfold h_acount. by rewrite mapR_bind_map, E.
  - unfold h_acount. dep_tac.
  - notin_tac.
  - rewrite length_map. by apply mapR_length in E.
Qed.

Lemma seqs_app fs gs T : seqs (fs ++ gs) T = seqF (seqs fs) (seqs gs) T.
Proof.
  revert T. induction fs as [|f fs IH]; intros T; cbn; [done|].
  unfold seqF in *. destruct (f T) as [T'|]; [|done]. cbn. apply IH.
Qed.

Lemma seqF_ext (P : DataFrame → Prop) f f' g g' T :
  P T → f T = f' T → (∀ T', f' T = Ok T' → P T') →
  (∀ T', P T' → g T' = g' T') →
  seqF f g T = seqF f' g' T.
Proof.
  intros HP Hf Hpres Hg. unfold seqF. rewrite Hf.
  destruct (f' T) as [T'|] eqn:E; [|done]. cbn. apply Hg. by apply Hpres.
Qed.

(** Stages 5 and 6 compute the derived columns one after the other. *)
Lemma derived_columns_nf env T :
  has_col "price" T = true →
  seqF (Pure.add_calculated_fields env) (Pure.expand_amenities env) T
  = seqs (map cond_derive (listing_derivs env)) T.
Proof.
  intros Hp.
  assert (Hkeep : ∀ ds T0 T', has_col "price" T0 = true →
            seqs (map cond_derive ds) T0 = Ok T' → has_col "price" T' = true).
  { intros ds T0 T' H0 H. by apply (derivs_writes ds T0 T' H). }
  set (P := λ T0, has_col "price" T0 = true).
  set (ds := listing_derivs env).
  assert (ds = take 1 ds ++ take 2 (drop 1 ds) ++ take 2 (drop 3 ds)
                 ++ take 1 (drop 5 ds) ++ take 1 (drop 6 ds) ++ drop 7 ds) as Hds
    by reflexivity.
  rewrite Hds at 1. rewrite !map_app.
  unfold Pure.add_calculated_fields, Pure.expand_amenities.
  assert (Hassoc : ∀ f g h T0, seqF (seqF f g) h T0 = seqF f (seqF g h) T0).
  { intros f g h T0. unfold seqF. destruct (f T0); [|done]. done. }
  assert (Hret : ∀ f T0, seqF retF f T0 = f T0) by done.
  assert (Hret' : ∀ f T0, seqF f retF T0 = f T0).
  { intros f T0. unfold seqF, retF. apply StoreFacts.result_bind_ret. }
  rewrite Hassoc. rewrite seqs_app.
  apply (seqF_ext P); [done | by apply set_price_per_person_nf | intros ? ?; eapply Hkeep; [|eassumption]; assumption |].
  intros T1 H1. rewrite Hassoc, seqs_app.
  apply (seqF_ext P); [done | by apply set_revenue_nf | intros ? ?; eapply Hkeep; [|eassumption]; assumption |].
  intros T2 H2. rewrite Hassoc, seqs_app.
  apply (seqF_ext P); [done | by apply set_review_recency_nf | intros ? ?; eapply Hkeep; [|eassumption]; assumption |].
  intros T3 H3. rewrite Hassoc, seqs_app.
  apply (seqF_ext P); [done| | intros ? ?; eapply Hkeep; [|eassumption]; assumption |].
  { cbn. rewrite Hret'. apply set_flag_nf. }
  intros T4 H4. rewrite Hassoc, seqs_app.
  apply (seqF_ext P); [done| | intros ? ?; eapply Hkeep; [|eassumption]; assumption |].
  { cbn. rewrite Hret'. apply set_flag_nf. }
  intros T5 H5. rewrite Hret, Hret'. apply set_amenities_nf.
Qed.

(** *** Pipelines of stages with invariants *)

(** A stage: what it runs, the keys it writes, and an invariant of frames
    that reads the cells under [K] only. *)
Record Stage := {
  run : stepF;
  W : list string;
  K : list string;
  Inv : DataFrame → Prop;
}.

(** The invariant survives code that writes no key of [K]. *)
Definition stable (s : Stage) : Prop :=
  ∀ W' f T T', writes W' f → (∀ k, k ∈ W' → k ∉ K s) → f T = Ok T' →
    Inv s T → Inv s T'.

(** Each stage of [post] writes [W], establishes its invariant from the
    invariants of the stages before it, and writes no key that they read. *)
Fixpoint staged (pre post : list Stage) : Prop :=
  match post with
  | [] => True
  | s :: post' =>
      writes (W s) (run s) ∧ stable s
      ∧ (∀ T T', Forall (λ s0, Inv s0 T) pre → run s T = Ok T' → Inv s T')
      ∧ Forall (λ s0, ∀ k, k ∈ W s → k ∉ K s0) pre
      ∧ staged (pre ++ [s]) post'
  end.

Lemma staged_invariants pre post T0 T :
  staged pre post → Forall stable pre → Forall (λ s, Inv s T0) pre →
  seqs (map run post) T0 = Ok T → Forall (λ s, Inv s T) (pre ++ post).
Proof.
  revert pre T0. induction post as [|s post IH]; intros pre T0 Hst Hstab Hpre H.
  - injection H as <-. by rewrite app_nil_r.
  - destruct Hst as (Hw & Hs & Hest & Hdisj & Hrest).
    cbn in H. unfold seqF in H. destruct (run s T0) as [T1|] eqn:E; [|done].
    cbn in H. rewrite (cons_middle s pre post), app_assoc.
    apply (IH (pre ++ [s]) T1); [done| | |done].
    + apply Forall_app. split; [done | by constructor].
    + apply Forall_app. split; [|constructor; [by apply (Hest T0) | constructor]].
      apply Forall_forall. intros s0 Hs0.
      eapply Forall_forall in Hstab as Hst0; [|exact Hs0].
      eapply (Hst0 (W s) (run s) T0 T1); [done| |done|].
      * by eapply Forall_forall in Hdisj; [|exact Hs0].
      * by eapply Forall_forall in Hpre; [|exact Hs0].
Qed.

Lemma staged_stable pre post : staged pre post → Forall stable post.
Proof.
  revert pre. induction post as [|s post IH]; intros pre H; [constructor|].
  destruct H as (_ & Hs & _ & _ & Hrest). constructor; [done | by eapply IH].
Qed.

Lemma stages_fixed ss T :
  Forall (λ s, Forall (λ s0, Inv s0 T) ss → run s T = Ok T) ss →
  Forall (λ s, Inv s T) ss → seqs (map run ss) T = Ok T.
Proof.
  intros Hfix Hinv. assert (Forall (λ s, run s T = Ok T) ss) as H.
  { eapply Forall_impl; [exact Hfix|]. auto. }
  clear Hfix Hinv. induction H as [|s ss Hs Hss IH]; [done|].
  cbn. unfold seqF. by rewrite Hs.
Qed.

(** A pipeline of such stages, run on its own result, returns it. *)
Theorem staged_idempotent ss T0 T :
  staged [] ss →
  (∀ T, Forall (λ s, Forall (λ s0, Inv s0 T) ss → run s T = Ok T) ss) →
  seqs (map run ss) T0 = Ok T → seqs (map run ss) T = Ok T.
Proof.
  intros Hst Hfix H. apply stages_fixed; [done|].
  by apply (staged_invariants [] ss T0 T).
Qed.

(** Invariants that say something of every row. *)
Lemma rows_stable (P : row → Prop) (Ks W' : list string) (f : stepF) T T' :
  (∀ r' r, agree (λ k, k ∈ Ks) r' r → P r → P r') →
  writes W' f → (∀ k, k ∈ W' → k ∉ Ks) → f T = Ok T' →
  Forall P (rows T) → Forall P (rows T').
Proof.
  intros HP Hw Hd Hf. destruct (Hw T T' Hf) as (Hr & _ & _).
  eapply from_rows_Forall; [|exact Hr].
  intros r' r Ha. apply HP. intros k Hk. apply Ha. intros Hin. by apply (Hd k).
Qed.

Lemma col_stable c (W' : list string) (f : stepF) T T' :
  writes W' f → c ∉ W' → f T = Ok T' → has_col c T' = has_col c T.
Proof. intros Hw Hc Hf. by apply (Hw T T' Hf). Qed.

Lemma col_mono c (W' : list string) (f : stepF) T T' :
  writes W' f → f T = Ok T' → has_col c T = true → has_col c T' = true.
Proof. intros Hw Hf. by apply (Hw T T' Hf). Qed.

(** *** Stage 1: duplicates *)

(** No row has the key of a row before it, or a key of [seen]. *)
Fixpoint nodup_keys (key : string) (seen : list value) (rs : list row) : Prop :=
  match rs with
  | [] => True
  | r :: rs' =>
      existsb (key_eq (cell key r)) seen = false
      ∧ nodup_keys key (cell key r :: seen) rs'
  end.

Lemma dedup_nodup key seen rs : nodup_keys key seen (dedup key seen rs).
Proof.
  revert seen. induction rs as [|r rs IH]; intros seen; cbn; [done|].
  destruct (existsb _ seen) eqn:E; [apply IH|]. cbn. split; [done | apply IH].
Qed.

Lemma dedup_id key seen rs : nodup_keys key seen rs → dedup key seen rs = rs.
Proof.
  revert seen. induction rs as [|r rs IH]; intros seen; cbn; [done|].
  intros [-> H]. f_equal. by apply IH.
Qed.

Lemma dedup_sublist key seen rs : sublist (dedup key seen rs) rs.
Proof.
  revert seen. induction rs as [|r rs IH]; intros seen; cbn; [constructor|].
  destruct (existsb _ seen); [apply sublist_cons | apply sublist_skip]; apply IH.
Qed.

Lemma existsb_false_mono {A} (p : A → bool) (s s' : list A) :
  (∀ v, v ∈ s → v ∈ s') → existsb p s' = false → existsb p s = false.
Proof.
  intros Hs H. apply not_true_is_false. intros Ht.
  apply existsb_exists in Ht as (x & Hx & Hp).
  assert (existsb p s' = true); [|congruence].
  apply existsb_exists. exists x. split; [|done].
  apply list_elem_of_In, Hs, list_elem_of_In, Hx.
Qed.

Lemma nodup_keys_mono key s s' rs :
  (∀ v, v ∈ s → v ∈ s') → nodup_keys key s' rs → nodup_keys key s rs.
Proof.
  revert s s'. induction rs as [|r rs IH]; intros s s' Hs; cbn; [done|].
  intros [H1 H2]. split; [by eapply existsb_false_mono|].
  eapply IH; [|exact H2]. intros v. rewrite !elem_of_cons. intros [?|?]; auto.
Qed.

Lemma nodup_keys_sublist key seen rs0 rs :
  sublist rs0 rs → nodup_keys key seen rs → nodup_keys key seen rs0.
Proof.
  intros H. revert seen. induction H as [|r l1 l2 H IH|r l1 l2 H IH]; intros seen; cbn.
  - done.
  - intros [H1 H2]. split; [done | by apply IH].
  - intros [H1 H2]. apply IH. eapply nodup_keys_mono; [|exact H2].
    intros v Hv. by right.
Qed.

Lemma nodup_keys_agree key seen rs' rs :
  Forall2 (λ r' r : row, r' !! key = r !! key) rs' rs →
  nodup_keys key seen rs → nodup_keys key seen rs'.
Proof.
  intros H. revert seen. induction H as [|r' r l' l Hr Hl IH]; intros seen; cbn; [done|].
  unfold cell. rewrite Hr. intros [H1 H2]. split; [done | by apply IH].
Qed.

Lemma nodup_keys_from_rows (Kp : string → Prop) key seen rs' rs :
  Kp key → from_rows Kp rs' rs → nodup_keys key seen rs → nodup_keys key seen rs'.
Proof.
  intros Hk (rs0 & Hs & Ha) H. eapply nodup_keys_agree.
  - eapply Forall2_impl; [exact Ha|]. intros r' r Hr. by apply Hr.
  - by eapply nodup_keys_sublist.
Qed.

Definition stage_dedup : Stage :=
  {| run := drop_duplicates "id"; W := []; K := ["id"];
     Inv := λ T, has_col "id" T = true ∧ nodup_keys "id" [] (rows T) |}.

Lemma drop_duplicates_Ok key T T' :
  drop_duplicates key T = Ok T' →
  has_col key T = true ∧ columns T' = columns T
  ∧ rows T' = dedup key [] (rows T).
Proof.
  unfold drop_duplicates. destruct (has_col key T); [|done]. by intros [= <-].
Qed.

Lemma dedup_writes Ws : writes Ws (drop_duplicates "id").
Proof.
  apply writes_rows. intros T T' H. apply drop_duplicates_Ok in H as (_ & Hc & Hr).
  split; [done|]. rewrite Hr. apply dedup_sublist.
Qed.

Lemma dedup_stable : stable stage_dedup.
Proof.
  intros W' f T T' Hw Hd Hf [Hc Hn]. cbn in *. split.
  - by eapply col_mono.
  - destruct (Hw T T' Hf) as (Hr & _ & _).
    eapply (nodup_keys_from_rows (λ k, k ∉ W')); [|exact Hr|done].
    intros Hin. apply (Hd "id" Hin). by left.
Qed.

Lemma dedup_est T T' : drop_duplicates "id" T = Ok T' → Inv stage_dedup T'.
Proof.
  intros H. apply drop_duplicates_Ok in H as (Hh & Hc & Hr). cbn. split.
  - unfold has_col in *. by rewrite Hc.
  - rewrite Hr. apply dedup_nodup.
Qed.

Lemma dedup_fix T : Inv stage_dedup T → drop_duplicates "id" T = Ok T.
Proof.
  intros [Hc Hn]. unfold drop_duplicates. rewrite Hc, dedup_id by done.
  by rewrite frame_eta.
Qed.

(** *** Stage 2: the price *)

Definition h_price (r : row) : result value := clean_price (cell "price" r).

Lemma h_price_dep : dep ["price"] h_price.
Proof. unfold h_price. dep_tac. Qed.

Lemma set_price_eq T :
  set_price T
  = if has_col "price" T then derive "price" h_price T else Raise (KeyError "price").
Proof.
  unfold set_price, loadF, liftF, setF, derive, df_col.
  destruct (has_col "price" T); [|done]. cbn. by rewrite mapR_map.
Qed.

Definition stage_price : Stage :=
  {| run := set_price; W := ["price"]; K := ["price"];
     Inv := λ T, has_col "price" T = true ∧ Forall (Fix "price" h_price) (rows T) |}.

Lemma set_price_writes : writes ["price"] set_price.
Proof. unfold set_price. writes_tac. Qed.

Lemma price_stable : stable stage_price.
Proof.
  intros W' f T T' Hw Hd Hf [Hc Hn]. cbn in *. split; [by eapply col_mono|].
  eapply (rows_stable _ ["price"]); [|exact Hw|done|exact Hf|done].
  intros r' r Ha. apply (Fix_agree ["price"]); [apply h_price_dep|].
  intros k Hk. apply Ha. apply elem_of_cons in Hk as [->|Hk]; [by left | done].
Qed.

Lemma price_est T T' : set_price T = Ok T' → Inv stage_price T'.
Proof.
  rewrite set_price_eq. destruct (has_col "price" T) eqn:E; [|done].
  intros H. apply derive_rows in H as [H Hc]. split; [done|]. cbn.
  induction H as [|r' r l' l (v & Hv & ->) Hl IH]; constructor; [|done].
  exists v. split; [|apply lookup_insert_eq].
  unfold h_price, cell. rewrite lookup_insert_eq. cbn.
  by eapply PriceFacts.clean_price_idem.
Qed.

Lemma price_fix T : Inv stage_price T → set_price T = Ok T.
Proof.
  intros [Hc Hn]. cbn in *. rewrite set_price_eq, Hc. by apply derive_id.
Qed.

(** *** Stage 3: rows with a missing critical field *)

Definition critical : list string := ["id"; "price"; "latitude"; "longitude"].

Definition present (T : DataFrame) : list string :=
  List.filter (λ c, has_col c T) critical.

Definition drop_missing : stepF := λ T, Ok (dropna (present T) T).

Definition NotNa (cs : list string) (r : row) : Prop :=
  forallb (λ c, negb (isna (cell c r))) cs = true.

Definition stage_dropna : Stage :=
  {| run := drop_missing; W := []; K := critical;
     Inv := λ T, Forall (NotNa (present T)) (rows T) |}.

Lemma drop_missing_writes Ws : writes Ws drop_missing.
Proof.
  apply writes_rows. intros T T' [= <-]. split; [done|]. apply filter_sublist.
Qed.

Lemma present_stable W' (f : stepF) T T' :
  writes W' f → (∀ k, k ∈ W' → k ∉ critical) → f T = Ok T' →
  present T' = present T.
Proof.
  intros Hw Hd Hf. unfold present.
  assert (∀ c, c ∈ critical → has_col c T' = has_col c T) as H.
  { intros c Hc. eapply col_stable; [exact Hw| |exact Hf]. intros Hin. by apply (Hd c). }
  revert H. generalize critical. intros l. induction l as [|c l IH]; intros H; [done|].
  cbn. rewrite (H c) by by left. rewrite IH; [done|]. intros c' Hc'. apply H. by right.
Qed.

Lemma NotNa_agree cs r' r :
  agree (λ k, k ∈ cs) r' r → NotNa cs r → NotNa cs r'.
Proof.
  unfold NotNa. rewrite !forallb_forall. intros Ha H c Hc.
  unfold cell. rewrite Ha by by apply list_elem_of_In. by apply H.
Qed.

Lemma present_critical T c : c ∈ present T → c ∈ critical.
Proof.
  unfold present. rewrite !list_elem_of_In, filter_In. tauto.
Qed.

Lemma dropna_stable : stable stage_dropna.
Proof.
  intros W' f T T' Hw Hd Hf Hn.
  change (Forall (NotNa (present T)) (rows T)) in Hn.
  change (Forall (NotNa (present T')) (rows T')).
  change (∀ k, k ∈ W' → k ∉ critical) in Hd.
  rewrite (present_stable W' f T T') by done.
  eapply (rows_stable _ critical); [|exact Hw|done|exact Hf|done].
  intros r' r Ha. apply NotNa_agree. intros k Hk. apply Ha. by eapply present_critical.
Qed.

Lemma dropna_est T T' : drop_missing T = Ok T' → Inv stage_dropna T'.
Proof.
  intros [= <-]. change (Forall (NotNa (present (dropna (present T) T)))
                           (rows (dropna (present T) T))).
  change (present (dropna (present T) T)) with (present T). apply filter_Forall.
Qed.

Lemma dropna_fix T : Inv stage_dropna T → drop_missing T = Ok T.
Proof.
  intros H. change (Forall (NotNa (present T)) (rows T)) in H.
  unfold drop_missing, dropna. rewrite filter_all by done.
  by rewrite frame_eta.
Qed.

(** *** Stages 4 and 5: bedrooms and beds *)

Lemma to_float_numeric v : is_numeric v = true ↔ ∃ x, to_float v = Ok x.
Proof. destruct v as [| | |[]| |]; cbn; split; try done; eauto; by intros [? ?]. Qed.

Lemma numbers_elem l xs v :
  numbers l = Ok xs → v ∈ l → isna v = false → is_numeric v = true.
Proof.
  unfold numbers. intros H Hv Hn. apply mapR_Forall2 in H.
  assert (v ∈ List.filter (λ v, negb (isna v)) l) as Hin.
  { apply list_elem_of_In, filter_In. split; [by apply list_elem_of_In|]. by rewrite Hn. }
  apply list_elem_of_lookup in Hin as [i Hi].
  destruct (Forall2_lookup_l _ _ _ _ _ H Hi) as (x & _ & Hx).
  apply to_float_numeric. eauto.
Qed.

Lemma mapR_total {A B} (f : A → result B) l :
  Forall (λ x, ∃ y, f x = Ok y) l → ∃ ys, mapR f l = Ok ys.
Proof.
  induction 1 as [|x l [y Hy] Hl [ys IH]]; [by exists []|].
  exists (y :: ys). cbn. by rewrite Hy, IH.
Qed.

Lemma numbers_total l :
  Forall (λ v, isna v = false → is_numeric v = true) l → ∃ xs, numbers l = Ok xs.
Proof.
  intros H. unfold numbers. apply mapR_total.
  apply Forall_forall. intros v Hv.
  apply list_elem_of_In, filter_In in Hv as [Hv Hn]. apply list_elem_of_In in Hv.
  apply to_float_numeric. eapply Forall_forall in H; [|exact Hv].
  apply H. by destruct (isna v).
Qed.

Lemma elem_of_group_rows key k rs r :
  r ∈ group_rows key k rs
  ↔ r ∈ rs ∧ isna (cell key r) = false ∧ key_eq (cell key r) k = true.
Proof.
  unfold group_rows. rewrite !list_elem_of_In, filter_In, andb_true_iff, negb_true_iff.
  tauto.
Qed.

Definition one : value := VFloat (of_Z 1).

(** The cell is set, and is a number when the row has a room type. *)
Definition Filled (col : string) (r : row) : Prop :=
  ∃ v, r !! col = Some v ∧ isna v = false
       ∧ (isna (cell "room_type" r) = false → is_numeric v = true).

Definition stage_fill (col : string) : Stage :=
  {| run := Pure.fill_with_group_median col; W := [col]; K := [col; "room_type"];
     Inv := λ T, has_col col T = true →
                 has_col "room_type" T = true ∧ Forall (Filled col) (rows T) |}.

Lemma fill_eq col T :
  Pure.fill_with_group_median col T
  = if has_col col T
    then medians ← groupby_transform_median "room_type" col T;
         Ok (df_set col (fillna one (fillna_with (map (cell col) (rows T)) medians)) T)
    else Ok T.
Proof.
  unfold Pure.fill_with_group_median, when_colF, loadF, liftF, setF.
  destruct (has_col col T) eqn:E; [|done]. by rewrite df_col_has.
Qed.

Lemma fill_writes col : writes [col] (Pure.fill_with_group_median col).
Proof. unfold Pure.fill_with_group_median. writes_tac. Qed.

Lemma Filled_agree col r' r :
  agree (λ k, k ∈ [col; "room_type"]) r' r → Filled col r → Filled col r'.
Proof.
  intros Ha (v & Hv & Hn & Hnum). exists v. unfold cell in *.
  rewrite !Ha by in_tac. done.
Qed.

Lemma fill_stable col : stable (stage_fill col).
Proof.
  intros W' f T T' Hw Hd Hf HI Hc. cbn in Hd.
  rewrite (col_stable col W' f T T') in Hc; [|done| |done].
  2:{ intros Hin. apply (Hd col Hin). by left. }
  destruct (HI Hc) as [Hrt HF]. split; [by eapply col_mono|].
  eapply (rows_stable _ [col; "room_type"]); [|exact Hw|done|exact Hf|done].
  apply Filled_agree.
Qed.

Lemma gtm_Ok key c T meds :
  groupby_transform_median key c T = Ok meds →
  has_col key T = true ∧ has_col c T = true
  ∧ Forall2 (λ r m,
       (∃ x, m = VFloat x)
       ∧ (isna (cell key r) = false →
          ∃ xs, numbers (map (cell c) (group_rows key (cell key r) (rows T))) = Ok xs))
      (rows T) meds.
Proof.
  unfold groupby_transform_median.
  destruct (has_col key T); [|done]. destruct (has_col c T); [|done]. cbn.
  intros H. apply mapR_Forall2 in H. repeat split.
  eapply Forall2_impl; [exact H|]. intros r m Hm. cbn in Hm.
  destruct (isna (cell key r)).
  - injection Hm as <-. split; [by exists fnan | done].
  - destruct (numbers _) as [xs|]; [|done]. injection Hm as <-. split; eauto.
Qed.

Lemma fill_est col T T' :
  col ≠ "room_type" →
  Pure.fill_with_group_median col T = Ok T' → Inv (stage_fill col) T'.
Proof.
  intros Hne H Hc'. rewrite fill_eq in H.
  assert (Hc : has_col col T = true).
  { rewrite <- Hc'. symmetry.
    destruct (has_col col T) eqn:E; [|by injection H as <-].
    destruct (groupby_transform_median _ _ _); [|done]. injection H as <-.
    apply has_col_df_set_new. }
  rewrite Hc in H.
  destruct (groupby_transform_median "room_type" col T) as [meds|] eqn:E; [|done].
  injection H as <-. apply gtm_Ok in E as (Hrt & _ & HF).
  split; [by apply has_col_df_set_old|]. cbn [df_set rows].
  assert (Hnum : Forall (λ r, isna (cell "room_type" r) = false →
                   isna (cell col r) = false → is_numeric (cell col r) = true) (rows T)).
  { apply Forall_forall. intros r Hr Hk Hv.
    apply list_elem_of_lookup in Hr as Hi. destruct Hi as [i Hi].
    destruct (Forall2_lookup_l _ _ _ _ _ HF Hi) as (m & _ & _ & Hxs).
    destruct (Hxs Hk) as [xs Hxs']. eapply numbers_elem; [exact Hxs'| |done].
    apply list_elem_of_fmap. exists r. split; [done|].
    apply elem_of_group_rows. split; [done|]. split; [done | apply key_eq_refl]. }
  assert (HF' : Forall2 (λ (r : row) m, ∃ x, m = VFloat x) (rows T) meds).
  { eapply Forall2_impl; [exact HF|]. by intros ? ? [? _]. }
  clear HF Hrt Hc Hc'. revert Hnum HF'. generalize (rows T). intros rs Hnum HF.
  induction HF as [|r m rs meds' [x ->] HFs IH]; [constructor|].
  apply Forall_cons in Hnum as [Hr Hnum]. cbn. constructor; [|by apply IH].
  eexists. split; [apply lookup_insert_eq|].
  assert (Hrt' : cell "room_type" (<[col := (if isna (if isna (cell col r) then VFloat x else cell col r)
                   then one else (if isna (cell col r) then VFloat x else cell col r))]> r)
                 = cell "room_type" r).
  { unfold cell at 1 3. by rewrite lookup_insert_ne. }
  rewrite Hrt'. destruct (isna (cell col r)) eqn:Ev.
  - destruct x; cbn; done.
  - rewrite Ev. split; [done|]. intros Hk. by apply Hr.
Qed.

Lemma fillna_with_id vals meds :
  length meds = length vals → Forall (λ v, isna v = false) vals →
  fillna one (fillna_with vals meds) = vals.
Proof.
  intros Hlen H. revert meds Hlen. induction H as [|v vals Hv Hvs IH];
    intros [|m meds] Hlen; try done.
  cbn. rewrite Hv, Hv. f_equal. apply IH. cbn in Hlen. lia.
Qed.

Lemma fill_fix col T :
  Inv (stage_fill col) T → Pure.fill_with_group_median col T = Ok T.
Proof.
  intros HI. rewrite fill_eq. destruct (has_col col T) eqn:Hc; [|done].
  rewrite <- Hc in *. destruct (HI Hc) as [Hrt HF]. rewrite Hc.
  assert (∃ meds, groupby_transform_median "room_type" col T = Ok meds) as [meds Hm].
  { unfold groupby_transform_median. rewrite Hrt, Hc. cbn. apply mapR_total.
    apply Forall_forall. intros r Hr. cbn.
    destruct (isna (cell "room_type" r)) eqn:Ek; [eauto|].
    destruct (numbers_total (map (cell col) (group_rows "room_type" (cell "room_type" r) (rows T))))
      as [xs ->]; [|eauto].
    apply Forall_forall. intros v Hv _.
    apply list_elem_of_fmap in Hv as (r0 & -> & Hr0).
    apply elem_of_group_rows in Hr0 as (Hr0 & Hk0 & _).
    eapply Forall_forall in HF; [|exact Hr0].
    destruct HF as (v & Hv & _ & Hnum). unfold cell at 1. rewrite Hv. by apply Hnum. }
  rewrite Hm. cbn. f_equal.
  rewrite fillna_with_id.
  - apply df_set_id; [done|]. eapply Forall_impl; [exact HF|].
    intros r (v & Hv & _). unfold cell. by rewrite Hv.
  - rewrite length_map. unfold groupby_transform_median in Hm.
    rewrite Hrt, Hc in Hm. by apply mapR_length in Hm.
  - apply Forall_forall. intros v Hv. apply list_elem_of_fmap in Hv as (r & -> & Hr).
    eapply Forall_forall in HF; [|exact Hr]. destruct HF as (v & Hv & Hn & _).
    unfold cell. by rewrite Hv.
Qed.

(** *** Stages 6 and 7: the filters *)

Lemma masks_Forall {A} (f g : A → result bool) (op : bool → bool → bool) l m1 m2 :
  mapR f l = Ok m1 → mapR g l = Ok m2 →
  Forall (λ x, ∃ b1 b2, f x = Ok b1 ∧ g x = Ok b2 ∧ op b1 b2 = true)
         (select (zip_with op m1 m2) l).
Proof.
  intros H1 H2. apply mapR_Forall2 in H1, H2.
  pose proof (Forall2_zip_with_bool _ _ op _ _ _ H1 H2) as H.
  apply select_Forall2 in H. eapply Forall_impl; [exact H|].
  intros x (b1 & b2 & ? & ? & ?). by exists b1, b2.
Qed.

Lemma masks_all {A} (f g : A → result bool) (op : bool → bool → bool) l :
  Forall (λ x, ∃ b1 b2, f x = Ok b1 ∧ g x = Ok b2 ∧ op b1 b2 = true) l →
  ∃ m1 m2, mapR f l = Ok m1 ∧ mapR g l = Ok m2 ∧ select (zip_with op m1 m2) l = l.
Proof.
  induction 1 as [|x l (b1 & b2 & H1 & H2 & Hb) Hl (m1 & m2 & IH1 & IH2 & IH)].
  - by exists [], [].
  - exists (b1 :: m1), (b2 :: m2). cbn. rewrite H1, H2, IH1, IH2. cbn.
    rewrite Hb. by rewrite IH.
Qed.

Definition InRange (config : Config) (r : row) : Prop :=
  ∃ b1 b2, cmp fge (price_min config) (cell "price" r) = Ok b1
           ∧ cmp fle (price_max config) (cell "price" r) = Ok b2
           ∧ b1 && b2 = true.

Definition stage_range (config : Config) : Stage :=
  {| run := Pure.price_filter config; W := []; K := ["price"];
     Inv := λ T, has_col "price" T = true ∧ Forall (InRange config) (rows T) |}.

Lemma price_filter_eq config T :
  has_col "price" T = true →
  Pure.price_filter config T
  = (ge_min ← mapR (λ r, cmp fge (price_min config) (cell "price" r)) (rows T);
     le_max ← mapR (λ r, cmp fle (price_max config) (cell "price" r)) (rows T);
     Ok (df_select (zip_with andb ge_min le_max) T)).
Proof.
  intros Hc. unfold Pure.price_filter. rewrite df_col_has by done. cbn.
  by rewrite !mapR_map.
Qed.

Lemma price_filter_rows config T T' :
  Pure.price_filter config T = Ok T' →
  has_col "price" T = true ∧ columns T' = columns T ∧ sublist (rows T') (rows T)
  ∧ Forall (InRange config) (rows T').
Proof.
  intros H. assert (Hc : has_col "price" T = true).
  { unfold Pure.price_filter in H. destruct (df_col "price" T) eqn:E; [|by cbn in H].
    by apply df_col_Ok in E as [? _]. }
  split; [done|]. rewrite price_filter_eq in H by done.
  match type of H with mbind _ ?m = _ => destruct m as [m1|] eqn:E1; [|by cbn in H] end.
  cbn in H.
  match type of H with mbind _ ?m = _ => destruct m as [m2|] eqn:E2; [|by cbn in H] end.
  injection H as <-.
  cbn [df_select rows columns]. split; [done|]. split; [apply select_sublist|].
  apply (masks_Forall _ _ andb _ _ _ E1 E2).
Qed.

Lemma range_writes config : writes [] (Pure.price_filter config).
Proof.
  apply writes_rows. intros T T' H. apply price_filter_rows in H. tauto.
Qed.

Lemma InRange_agree config r' r :
  agree (λ k, k ∈ ["price"]) r' r → InRange config r → InRange config r'.
Proof.
  intros Ha. unfold InRange, cell. by rewrite Ha by in_tac.
Qed.

Lemma range_stable config : stable (stage_range config).
Proof.
  intros W' f T T' Hw Hd Hf [Hc HF]. split; [by eapply col_mono|].
  eapply (rows_stable _ ["price"]); [|exact Hw|done|exact Hf|done].
  apply InRange_agree.
Qed.

Lemma range_est config T T' :
  Pure.price_filter config T = Ok T' → Inv (stage_range config) T'.
Proof.
  intros H. pose proof (range_writes config T T' H) as (_ & Hm & _).
  apply price_filter_rows in H as (Hc & _ & _ & HF). split; [by apply Hm | done].
Qed.

Lemma range_fix config T :
  Inv (stage_range config) T → Pure.price_filter config T = Ok T.
Proof.
  intros [Hc HF]. rewrite price_filter_eq by done.
  destruct (masks_all _ _ andb _ HF) as (m1 & m2 & -> & -> & Hs). cbn.
  unfold df_select. rewrite Hs. by rewrite frame_eta.
Qed.

Definition avail (av : bool) (r : row) : result bool :=
  if av then cmp fgt (of_Z 0) (cell "availability_365" r) else Ok false.

Definition Active (config : Config) (av : bool) (r : row) : Prop :=
  ∃ b1 b2, cmp fge (min_reviews config) (cell "number_of_reviews" r) = Ok b1
           ∧ avail av r = Ok b2 ∧ b1 || b2 = true.

Definition stage_active (config : Config) : Stage :=
  {| run := Pure.activity_filter config; W := [];
     K := ["number_of_reviews"; "availability_365"];
     Inv := λ T, has_col "number_of_reviews" T = true
                 ∧ Forall (Active config (has_col "availability_365" T)) (rows T) |}.

Lemma activity_filter_eq config T :
  has_col "number_of_reviews" T = true →
  Pure.activity_filter config T
  = (has_reviews ← mapR (λ r, cmp fge (min_reviews config) (cell "number_of_reviews" r)) (rows T);
     has_availability ← mapR (avail (has_col "availability_365" T)) (rows T);
     Ok (df_select (zip_with orb has_reviews has_availability) T)).
Proof.
  intros Hc. unfold Pure.activity_filter. rewrite df_col_has by done. cbn.
  rewrite !mapR_map. unfold avail. destruct (has_col "availability_365" T); [done|].
  by rewrite mapR_pure.
Qed.

Lemma activity_filter_rows config T T' :
  Pure.activity_filter config T = Ok T' →
  has_col "number_of_reviews" T = true ∧ columns T' = columns T
  ∧ sublist (rows T') (rows T)
  ∧ Forall (Active config (has_col "availability_365" T)) (rows T').
Proof.
  intros H. assert (Hc : has_col "number_of_reviews" T = true).
  { unfold Pure.activity_filter in H.
    destruct (df_col "number_of_reviews" T) eqn:E; [|by cbn in H].
    by apply df_col_Ok in E as [? _]. }
  split; [done|]. rewrite activity_filter_eq in H by done.
  match type of H with mbind _ ?m = _ => destruct m as [m1|] eqn:E1; [|by cbn in H] end.
  cbn in H.
  match type of H with mbind _ ?m = _ => destruct m as [m2|] eqn:E2; [|by cbn in H] end.
  injection H as <-.
  cbn [df_select rows columns]. split; [done|]. split; [apply select_sublist|].
  apply (masks_Forall _ _ orb _ _ _ E1 E2).
Qed.

Lemma active_writes config : writes [] (Pure.activity_filter config).
Proof.
  apply writes_rows. intros T T' H. apply activity_filter_rows in H. tauto.
Qed.

Lemma Active_agree config av r' r :
  agree (λ k, k ∈ ["number_of_reviews"; "availability_365"]) r' r →
  Active config av r → Active config av r'.
Proof.
  intros Ha. unfold Active, avail, cell. by rewrite !Ha by in_tac.
Qed.

Lemma active_stable config : stable (stage_active config).
Proof.
  intros W' f T T' Hw Hd Hf [Hc HF]. split; [by eapply col_mono|]. cbn in Hd.
  rewrite (col_stable "availability_365" W' f T T'); [|done| |done].
  2:{ intros Hin. apply (Hd _ Hin). in_tac. }
  eapply (rows_stable _ ["number_of_reviews"; "availability_365"]);
    [|exact Hw|done|exact Hf|done].
  apply Active_agree.
Qed.

Lemma active_est config T T' :
  Pure.activity_filter config T = Ok T' → Inv (stage_active config) T'.
Proof.
  intros H. pose proof (active_writes config T T' H) as (_ & Hm & Heq).
  apply activity_filter_rows in H as (Hc & _ & _ & HF).
  split; [by apply Hm|]. cbn. rewrite Heq; [done|]. apply not_elem_of_nil.
Qed.

Lemma active_fix config T :
  Inv (stage_active config) T → Pure.activity_filter config T = Ok T.
Proof.
  intros [Hc HF]. rewrite activity_filter_eq by done.
  destruct (masks_all _ _ orb _ HF) as (m1 & m2 & -> & -> & Hs). cbn.
  unfold df_select. rewrite Hs. by rewrite frame_eta.
Qed.

(** *** Stage 8: the derived columns *)

Definition deriv_keys (ds : list Deriv) : list string :=
  flat_map (λ d, trigger d :: target d :: deps d) ds.

Lemma derivs_ok_dep ds : derivs_ok ds → Forall (λ d, dep (deps d) (fn d)) ds.
Proof.
  induction ds as [|d ds IH]; [constructor|].
  intros (Hd & _ & _ & _ & Hok). constructor; [done | by apply IH].
Qed.

Lemma derived_stable ds W' (f : stepF) T T' :
  Forall (λ d, dep (deps d) (fn d)) ds →
  writes W' f → (∀ k, k ∈ W' → k ∉ deriv_keys ds) → f T = Ok T' →
  derived ds T → derived ds T'.
Proof.
  intros Hdep Hw Hd Hf HI. unfold derived in *.
  apply Forall_forall. intros d Hin Htr.
  assert (Hk : ∀ k, k ∈ trigger d :: target d :: deps d → k ∉ W').
  { intros k Hk HW. apply (Hd k HW). unfold deriv_keys.
    apply list_elem_of_In, in_flat_map. exists d.
    split; by apply list_elem_of_In. }
  eapply Forall_forall in HI; [|exact Hin]. eapply Forall_forall in Hdep; [|exact Hin].
  rewrite (col_stable _ W' f T T') in Htr; [|done|apply Hk; by left|done].
  destruct (HI Htr) as [Hc HF]. split; [by eapply col_mono|].
  destruct (Hw T T' Hf) as (Hr & _ & _).
  eapply from_rows_Forall; [|exact Hr|exact HF].
  intros r' r Ha. apply (Fix_agree (deps d)); [done|].
  intros k Hk'. apply Ha. apply Hk. by right.
Qed.

Definition stage_derived (env : Env) : Stage :=
  {| run := seqF (Pure.add_calculated_fields env) (Pure.expand_amenities env);
     W := listing_targets; K := deriv_keys (listing_derivs env);
     Inv := derived (listing_derivs env) |}.

Lemma derived_writes env : writes listing_targets (run (stage_derived env)).
Proof.
  cbn [run stage_derived]. unfold Pure.add_calculated_fields, Pure.expand_amenities,
    set_price_per_person, set_revenue, set_review_recency, set_flag, set_amenities,
    listing_targets.
  writes_tac.
Qed.

Lemma derived_stage_stable env : stable (stage_derived env).
Proof.
  intros W' f T T' Hw Hd Hf HI.
  eapply derived_stable; [|exact Hw|exact Hd|exact Hf|exact HI].
  apply derivs_ok_dep, listing_derivs_ok.
Qed.

Lemma derived_est env T T' :
  has_col "price" T = true →
  run (stage_derived env) T = Ok T' → Inv (stage_derived env) T'.
Proof.
  intros Hp H. cbn [run stage_derived] in H. rewrite derived_columns_nf in H by done.
  eapply derivs_establish; [apply listing_derivs_ok | exact H].
Qed.

Lemma derived_fix env T :
  has_col "price" T = true →
  Inv (stage_derived env) T → run (stage_derived env) T = Ok T.
Proof.
  intros Hp HI. cbn [run stage_derived]. rewrite derived_columns_nf by done.
  by apply derivs_id.
Qed.

(** *** The pipeline of [clean_listings] *)

Definition stages (env : Env) (config : Config) : list Stage :=
  [ stage_dedup; stage_price; stage_dropna; stage_fill "bedrooms"; stage_fill "beds";
    stage_range config; stage_active config; stage_derived env ].

Lemma clean_listings_stages env config T :
  Pure.clean_listings env config T = seqs (map run (stages env config)) T.
Proof.
  unfold Pure.clean_listings, stages. cbn [map seqs run stage_dedup stage_price
    stage_dropna stage_fill stage_range stage_active stage_derived].
  unfold Pure.handle_missing_values, Pure.filter_active_listings, drop_missing, seqF, retF.
  change (List.filter (λ c, has_col c ?T) ["id"; "price"; "latitude"; "longitude"])
    with (present T).
  destruct (drop_duplicates "id" T) as [T1|]; [|reflexivity]. cbn [mbind result_mbind result_bind].
  destruct (set_price T1) as [T2|]; [|reflexivity]. cbn [mbind result_mbind result_bind].
  destruct (Pure.fill_with_group_median "bedrooms" _) as [T3|]; [|reflexivity].
  cbn [mbind result_mbind result_bind].
  destruct (Pure.fill_with_group_median "beds" _) as [T4|]; [|reflexivity].
  cbn [mbind result_mbind result_bind].
  destruct (price_filter config T4) as [T5|]; [|reflexivity]. cbn [mbind result_mbind result_bind].
  destruct (activity_filter config T5) as [T6|]; [|reflexivity]. cbn [mbind result_mbind result_bind].
  destruct (Pure.add_calculated_fields env T6) as [T7|]; [|reflexivity].
  cbn [mbind result_mbind result_bind].
  destruct (expand_amenities env T7); reflexivity.
Qed.

Ltac disjoint_tac :=
  repeat constructor;
  let k := fresh "k" in let Hk := fresh "Hk" in
  intros k Hk; cbn in Hk;
  repeat (apply elem_of_cons in Hk as [->|Hk]);
  try (by apply elem_of_nil in Hk); cbn; notin_tac.

Lemma stages_staged env config : staged [] (stages env config).
Proof.
  unfold stages. cbn [staged app].
  repeat match goal with |- _ ∧ _ => split end; try exact I.
  all: try disjoint_tac.
  - apply dedup_writes.
  - apply dedup_stable.
  - intros T T' _. apply dedup_est.
  - apply set_price_writes.
  - apply price_stable.
  - intros T T' _. apply price_est.
  - apply drop_missing_writes.
  - apply dropna_stable.
  - intros T T' _. apply dropna_est.
  - apply fill_writes.
  - apply fill_stable.
  - intros T T' _. by apply fill_est.
  - apply fill_writes.
  - apply fill_stable.
  - intros T T' _. by apply fill_est.
  - apply range_writes.
  - apply range_stable.
  - intros T T' _. apply range_est.
  - apply active_writes.
  - apply active_stable.
  - intros T T' _. apply active_est.
  - apply derived_writes.
  - apply derived_stage_stable.
  - intros T T' Hpre. apply derived_est.
    apply Forall_cons in Hpre as [_ Hpre]. apply Forall_cons in Hpre as [[Hp _] _].
    exact Hp.
Qed.

Lemma stages_fix env config T :
  Forall (λ s, Forall (λ s0, Inv s0 T) (stages env config) → run s T = Ok T)
         (stages env config).
Proof.
  unfold stages. repeat constructor; intros HI.
  all: repeat match goal with
              | H : Forall _ (_ :: _) |- _ => apply Forall_cons in H as [? H]
              end.
  - by apply dedup_fix.
  - by apply price_fix.
  - by apply dropna_fix.
  - by apply fill_fix.
  - by apply fill_fix.
  - by apply range_fix.
  - by apply active_fix.
  - apply derived_fix; [|done].
    match goal with H : Inv stage_price T |- _ => apply H end.
Qed.

(** The invariants of the cleaned table. *)
Lemma clean_listings_invariants env config T0 T :
  Pure.clean_listings env config T0 = Ok T →
  Forall (λ s, Inv s T) (stages env config).
Proof.
  rewrite clean_listings_stages. intros H.
  apply (staged_invariants [] (stages env config) T0 T); try done.
  apply stages_staged.
Qed.

(** Cleaning a cleaned table returns it. *)
Lemma clean_listings_fixed env config T0 T :
  Pure.clean_listings env config T0 = Ok T → Pure.clean_listings env config T = Ok T.
Proof.
  rewrite !clean_listings_stages. apply staged_idempotent.
  - apply stages_staged.
  - intros. apply stages_fix.
Qed.

Lemma staged_cols pre post T0 T c :
  staged pre post → seqs (map run post) T0 = Ok T →
  has_col c T0 = true → has_col c T = true.
Proof.
  revert pre T0. induction post as [|s post IH]; intros pre T0 Hst H Hc.
  - by injection H as <-.
  - destruct Hst as (Hw & _ & _ & _ & Hrest). cbn in H. unfold seqF in H.
    destruct (run s T0) as [T1|] eqn:E; [|done]. cbn in H.
    eapply IH; [exact Hrest|exact H|]. by eapply col_mono.
Qed.

(** The cleaned table keeps the columns of the raw table. *)
Lemma clean_listings_cols env config T0 T c :
  Pure.clean_listings env config T0 = Ok T →
  has_col c T0 = true → has_col c T = true.
Proof.
  rewrite clean_listings_stages. apply staged_cols with (pre := []).
  apply stages_staged.
Qed.

(** A row of a cleaned table: the critical fields are set, the price lies
    within the configured bounds, and the listing has the configured number
    of reviews or a day of availability. *)
Definition clean_row (config : Config) (r : row) : Prop :=
  Forall (λ c, isna (cell c r) = false) ["id"; "price"; "latitude"; "longitude"]
  ∧ (∃ p, to_float (cell "price" r) = Ok p
          ∧ fle (price_min config) p = true ∧ fle p (price_max config) = true)
  ∧ ((∃ n, to_float (cell "number_of_reviews" r) = Ok n
           ∧ fle (min_reviews config) n = true)
     ∨ (∃ a, to_float (cell "availability_365" r) = Ok a ∧ flt (of_Z 0) a = true)).

Lemma cmp_Ok op bound v b :
  cmp op bound v = Ok b → ∃ x, to_float v = Ok x ∧ b = op x bound.
Proof.
  unfold cmp. destruct (to_float v) as [x|]; [|done]. cbn. intros [= <-]. eauto.
Qed.

Lemma clean_listings_clean_rows env config T0 T :
  Pure.clean_listings env config T0 = Ok T →
  Forall (λ c, has_col c T0 = true)
    ["id"; "price"; "latitude"; "longitude"; "number_of_reviews"; "availability_365"] →
  Forall (clean_row config) (rows T).
Proof.
  intros H Hcols.
  assert (Hc : Forall (λ c, has_col c T = true)
    ["id"; "price"; "latitude"; "longitude"; "number_of_reviews"; "availability_365"]).
  { eapply Forall_impl; [exact Hcols|]. intros c.
    by apply (clean_listings_cols env config). }
  apply clean_listings_invariants in H. unfold stages in H.
  repeat match goal with
         | H : Forall _ (_ :: _) |- _ => apply Forall_cons in H as [? H]
         end.
  match goal with H : Inv stage_dropna T |- _ => rename H into Hna end.
  match goal with H : Inv (stage_range config) T |- _ => destruct H as [_ Hrange] end.
  match goal with H : Inv (stage_active config) T |- _ => destruct H as [_ Hact] end.
  change (Forall (NotNa (present T)) (rows T)) in Hna.
  assert (Hpres : present T = critical).
  { unfold present, critical. cbn [List.filter]. by repeat match goal with
      | H : has_col ?c T = true |- _ => rewrite H; clear H end. }
  rewrite Hpres in Hna.
  match goal with H : has_col "availability_365" T = true |- _ => rewrite H in Hact end.
  apply Forall_forall. intros r Hr.
  eapply Forall_forall in Hna; [|exact Hr].
  eapply Forall_forall in Hrange; [|exact Hr].
  eapply Forall_forall in Hact; [|exact Hr].
  split; [|split].
  - unfold NotNa, critical in Hna. cbn [forallb] in Hna.
    repeat (apply andb_true_iff in Hna as [?%negb_true_iff Hna]).
    by repeat constructor.
  - destruct Hrange as (b1 & b2 & Hge & Hle & Hb).
    apply cmp_Ok in Hge as (x & Hx & ->). apply cmp_Ok in Hle as (x' & Hx' & ->).
    rewrite Hx in Hx'. injection Hx' as <-.
    apply andb_true_iff in Hb as [? ?]. exists x. by repeat split.
  - destruct Hact as (b1 & b2 & Hrev & Hav & Hb).
    apply cmp_Ok in Hrev as (x & Hx & ->). cbn [avail] in Hav.
    apply cmp_Ok in Hav as (a & Ha & ->).
    apply orb_true_iff in Hb as [Hb|Hb]; [left | right]; eauto.
Qed.

End PipelineFacts.
(** ** The analyzers *)

Module AnalysisFacts.
Import Pure FrameFacts StoreFacts Competitive.

(** *** Running a computation that only reads the store *)

Lemma bind_load {A} l (k : DataFrame → M A) σ T :
  σ !! l = Some T → (load l ≫= k) σ = k T σ.
Proof. intros H. unfold mbind, M_mbind, load. by rewrite H. Qed.

Lemma bind_lift {A B} (r : result A) (k : A → M B) σ :
  (lift r ≫= k) σ = match r with Ok a => k a σ | Raise e => (Raise e, σ) end.
Proof. unfold mbind, M_mbind, lift. by destruct r. Qed.

Lemma bind_lift_Ok {A B} (r : result A) a (k : A → M B) σ :
  r = Ok a → (lift r ≫= k) σ = k a σ.
Proof. intros ->. by rewrite bind_lift. Qed.

Lemma bind_Ok {A B} (m : M A) (k : A → M B) σ a σ' :
  m σ = (Ok a, σ') → (m ≫= k) σ = k a σ'.
Proof. intros H. unfold mbind, M_mbind. by rewrite H. Qed.

Lemma runs_result {A} (m : M A) σ (r : result A) :
  runs ∅ m σ r (λ b a _, b = a) → (m σ).1 = r.
Proof.
  intros H. destruct H as (_ & _ & H); [set_solver|].
  destruct r, (m σ).1; try done; by subst.
Qed.

Lemma runs_load_bind {A B} D l (k : DataFrame → M A) σ T (r : result B) Q :
  σ !! l = Some T → runs D (k T) σ r Q → runs D (load l ≫= k) σ r Q.
Proof. intros Hl H. unfold runs. by rewrite (bind_load l k σ T Hl). Qed.

(** *** Price tiers *)

(** [p] lies in the half-open interval of the tier. *)
Definition in_tier (b : Segment) (p : float) : bool :=
  fle (seg_min b) p && flt p (seg_max b).

Lemma scan_first pre n b post v p :
  to_float v = Ok p → Forall (λ s, in_tier s.2 p = false) pre → in_tier b p = true →
  scan (pre ++ (n, b) :: post) v = Ok (seg_label b).
Proof.
  intros Hp Hpre Hb. induction Hpre as [|[n' b'] pre Hn Hpre IH]; cbn.
  - rewrite Hp. cbn. unfold in_tier in Hb. by rewrite Hb.
  - rewrite Hp. cbn. unfold in_tier in Hn. cbn in Hn. by rewrite Hn.
Qed.

Lemma scan_other segs v p :
  to_float v = Ok p → Forall (λ s, in_tier s.2 p = false) segs →
  scan segs v = Ok "Other".
Proof.
  intros Hp H. induction H as [|[n b] segs Hn Hs IH]; cbn; [done|].
  rewrite Hp. cbn. unfold in_tier in Hn. cbn in Hn. by rewrite Hn.
Qed.

Lemma scan_total segs v p : to_float v = Ok p → ∃ l, scan segs v = Ok l.
Proof.
  intros Hp. induction segs as [|[n b] segs IH]; cbn; [eauto|].
  rewrite Hp. cbn. destruct (_ && _); eauto.
Qed.

Lemma in_tier_nan b : in_tier b fnan = false.
Proof. unfold in_tier, flt, fle. by destruct (seg_min b). Qed.

Lemma Qle_bool_refl q : Qle_bool q q = true.
Proof. apply Qle_bool_iff, Qle_refl. Qed.

Lemma Qeq_bool_refl q : Qeq_bool q q = true.
Proof. by apply Qeq_bool_iff. Qed.

Lemma flt_irrefl x : flt x x = false.
Proof.
  unfold flt. destruct x as [|[]|q]; cbn; try done.
  by rewrite Qle_bool_refl, Qeq_bool_refl.
Qed.

Lemma flt_fle_refl x y : flt x y = true → fle x x = true.
Proof.
  unfold flt. destruct x as [|[]|q], y as [|[]|q']; cbn; try done.
  all: intros _; apply Qle_bool_refl.
Qed.

(** *** The summary of [segment_by_price] *)

(** What [segment_by_price] computes from the frame with its [segment]
    column. *)
Definition summarise (segs : list (string * Segment)) (T : DataFrame)
  : result (list (string * row)) :=
  _ ← df_col "id" T;
  _ ← df_col "review_scores_rating" T;
  let index := segment_index T in
  let total :=
    fold_left Z.add
      (map (λ l, count_notna (map (cell "id") (group_rows "segment" (VStr l) (rows T)))) index) 0 in
  let order := map (λ s, seg_label (snd s)) segs in
  summary ← mapR (segment_row T total) index;
  Ok (reindex (List.filter (λ o, bool_decide (o ∈ index)) order) summary).

Lemma segment_by_price_runs self σ T :
  σ !! self_df self = Some T →
  runs ∅ (segment_by_price self) σ
    (Pure.add_segments (_segments self) T ≫= summarise (_segments self))
    (λ b a _, b = a).
Proof.
  intros HT. unfold segment_by_price.
  change (Pure.add_segments ?s T ≫= ?f)
    with (Ok T ≫= (λ T0, Pure.add_segments s T0 ≫= f)).
  eapply runs_bind; [by apply copy_runs|]. intros ? l1 σ1 [= <-] [Hl1 HT1].
  eapply runs_bind.
  { apply (λ H, H σ1 T Hl1 HT1). unfold Pure.add_segments, _assign_segment. inplace_tac. }
  intros T2 [] σ2 _ HT2. cbn beta.
  apply runs_load_bind with (T := T2); [done|].
  unfold summarise.
  eapply runs_bind; [apply runs_lift_eq|]. intros ? ? ? _ [<- ->].
  eapply runs_bind; [apply runs_lift_eq|]. intros ? ? ? _ [<- ->].
  cbn zeta.
  eapply runs_bind; [apply runs_lift_eq|]. intros ? ? ? _ [<- ->].
  by apply runs_ret.
Qed.

(** The index of a [groupby] holds the keys of the column. *)

Lemma vinsert_elem x y l : x ∈ vinsert y l ↔ x = y ∨ x ∈ l.
Proof.
  induction l as [|z l IH]; cbn.
  - rewrite list_elem_of_singleton, elem_of_nil. tauto.
  - destruct (v_le y z); rewrite !elem_of_cons; [tauto|]. rewrite IH. tauto.
Qed.

Lemma vsort_elem x l : x ∈ vsort l ↔ x ∈ l.
Proof.
  unfold vsort. induction l as [|y l IH]; cbn; [done|].
  rewrite vinsert_elem, elem_of_cons, IH. tauto.
Qed.

Lemma distinct_keys_elem x seen l : x ∈ distinct_keys seen l → x ∈ l.
Proof.
  revert seen. induction l as [|k l IH]; intros seen; cbn; [done|].
  destruct (isna k || existsb (key_eq k) seen).
  - intros H. right. by eapply IH.
  - rewrite !elem_of_cons. intros [->|H]; [by left|]. right. by eapply IH.
Qed.

Lemma existsb_key_str k seen :
  existsb (key_eq (VStr k)) (map VStr seen) = bool_decide (k ∈ seen).
Proof.
  induction seen as [|s seen IH]; cbn; [done|].
  rewrite IH. unfold key_eq. cbn.
  destruct (String.eqb_spec k s) as [->|Hne]; cbn.
  - symmetry. apply bool_decide_eq_true. by left.
  - apply bool_decide_ext. rewrite elem_of_cons. tauto.
Qed.

Lemma distinct_keys_str seen l s :
  VStr s ∈ distinct_keys (map VStr seen) (map VStr l) ↔ s ∈ l ∧ s ∉ seen.
Proof.
  revert seen. induction l as [|k l IH]; intros seen; cbn [map distinct_keys].
  - rewrite !elem_of_nil. tauto.
  - cbn [isna orb]. rewrite existsb_key_str.
    destruct (decide (k ∈ seen)) as [Hk|Hk].
    + rewrite bool_decide_eq_true_2 by done. rewrite IH, elem_of_cons.
      split; [tauto|]. intros [[->|?] ?]; tauto.
    + rewrite bool_decide_eq_false_2 by done. rewrite elem_of_cons.
      change (VStr k :: map VStr seen) with (map VStr (k :: seen)).
      rewrite IH, !elem_of_cons. split.
      * intros [[= ->]|[? ?]]; [tauto|]. split; [tauto|]. tauto.
      * intros [[->|?] ?]; [by left|]. destruct (decide (s = k)) as [->|?]; [by left|].
        right. split; [done|]. tauto.
Qed.

Lemma segment_index_elem labels T o :
  map (cell "segment") (rows T) = map VStr labels →
  o ∈ segment_index T ↔ o ∈ labels.
Proof.
  intros Hcol. unfold segment_index, group_keys. rewrite Hcol. split.
  - intros H. apply list_elem_of_fmap in H as (v & -> & Hv).
    apply (proj1 (vsort_elem _ _)) in Hv. pose proof (distinct_keys_elem _ _ _ Hv) as Hin.
    apply list_elem_of_fmap in Hin as (s & -> & Hs). done.
  - intros H. apply list_elem_of_fmap. exists (VStr o). split; [done|].
    apply vsort_elem. apply (distinct_keys_str [] labels o). split; [done|].
    apply not_elem_of_nil.
Qed.

Lemma reindex_labels labels summary : map fst (reindex labels summary) = labels.
Proof. unfold reindex. rewrite map_map. cbn. apply map_id. Qed.

Lemma filter_ext_bool {A} (p q : A → bool) l :
  (∀ x, p x = q x) → List.filter p l = List.filter q l.
Proof. intros H. induction l as [|x l IH]; cbn; [done|]. by rewrite H, IH. Qed.

Lemma add_segments_Ok segs T T' :
  Pure.add_segments segs T = Ok T' →
  ∃ labels, mapR (scan segs) (map (cell "price") (rows T)) = Ok labels
            ∧ T' = df_set "segment" (map VStr labels) T
            ∧ map (cell "segment") (rows T') = map VStr labels.
Proof.
  unfold Pure.add_segments, loadF, liftF, setF, df_col.
  destruct (has_col "price" T); [|done]. cbn.
  destruct (mapR (scan segs) _) as [labels|] eqn:E; [|done]. cbn.
  intros [= <-]. exists labels. split; [done|]. split; [done|].
  apply mapR_length in E. rewrite length_map in E. cbn [df_set rows].
  revert E. generalize (rows T). intros rs. revert rs.
  induction labels as [|l labels IH]; intros [|r rs] Hlen; try done.
  cbn. unfold cell at 1. rewrite lookup_insert_eq. cbn. f_equal.
  apply IH. cbn in Hlen. lia.
Qed.

(** The labels of the summary: the declared labels that some listing has,
    in the order of their declaration. *)
Lemma summarise_labels segs T labels out :
  map (cell "segment") (rows T) = map VStr labels →
  summarise segs T = Ok out →
  map fst out
  = List.filter (λ o, bool_decide (o ∈ labels)) (map (λ s, seg_label s.2) segs).
Proof.
  intros Hcol. unfold summarise.
  destruct (df_col "id" T); [|done]. cbn.
  destruct (df_col "review_scores_rating" T); [|done]. cbn.
  destruct (mapR _ (segment_index T)) as [summary|]; [|done]. cbn.
  intros [= <-]. rewrite reindex_labels. apply filter_ext_bool.
  intros o. apply bool_decide_ext. by apply segment_index_elem.
Qed.

(** *** Aggregates of numeric columns *)

Lemma Forall_lfilter {A} (P : A → Prop) (p : A → bool) l :
  Forall P l → Forall P (List.filter p l).
Proof.
  intros H. apply Forall_forall. intros x Hx.
  apply list_elem_of_In, filter_In in Hx as [Hx _]. apply list_elem_of_In in Hx.
  by eapply Forall_forall in H.
Qed.

Lemma numbers_numeric vals :
  Forall (λ v, is_numeric v = true) vals → ∃ xs, numbers vals = Ok xs.
Proof.
  intros H. apply PipelineFacts.numbers_total.
  eapply Forall_impl; [exact H|]. auto.
Qed.

Lemma series_mean_total vals :
  Forall (λ v, is_numeric v = true) vals → ∃ x, series_mean vals = Ok x.
Proof.
  intros H. unfold series_mean. destruct (numbers_numeric vals H) as [xs ->]. eauto.
Qed.

Lemma series_median_total vals :
  Forall (λ v, is_numeric v = true) vals → ∃ x, series_median vals = Ok x.
Proof.
  intros H. unfold series_median. destruct (numbers_numeric vals H) as [xs ->]. eauto.
Qed.

Lemma series_std_total env vals :
  Forall (λ v, is_numeric v = true) vals → ∃ x, series_std env vals = Ok x.
Proof.
  intros H. unfold series_std. destruct (numbers_numeric vals H) as [xs ->]. eauto.
Qed.

(** The cells of column [c] are numbers or missing. *)
Definition numeric_col (c : string) (rs : list row) : Prop :=
  Forall (λ r, is_numeric (cell c r) = true) rs.

Lemma numeric_col_cells c rs :
  numeric_col c rs → Forall (λ v, is_numeric v = true) (map (cell c) rs).
Proof. intros H. by apply Forall_map. Qed.

Lemma numeric_col_filter c p rs : numeric_col c rs → numeric_col c (List.filter p rs).
Proof. apply Forall_lfilter. Qed.

(** *** [get_superhost_premium] *)

Lemma superhost_group_total T k :
  numeric_col "price" (rows T) → numeric_col "review_scores_rating" (rows T) →
  numeric_col "number_of_reviews" (rows T) →
  ∃ r, superhost_group T k = Ok r.
Proof.
  intros Hp Hr Hn. unfold superhost_group, group_rows.
  destruct (series_mean_total (map (cell "price")
    (List.filter (λ r, negb (isna (cell "is_superhost" r)) && key_eq (cell "is_superhost" r) k)
       (rows T)))) as [x1 ->]; [by apply numeric_col_cells, numeric_col_filter|].
  destruct (series_median_total (map (cell "price")
    (List.filter (λ r, negb (isna (cell "is_superhost" r)) && key_eq (cell "is_superhost" r) k)
       (rows T)))) as [x2 ->]; [by apply numeric_col_cells, numeric_col_filter|].
  destruct (series_mean_total (map (cell "review_scores_rating")
    (List.filter (λ r, negb (isna (cell "is_superhost" r)) && key_eq (cell "is_superhost" r) k)
       (rows T)))) as [x3 ->]; [by apply numeric_col_cells, numeric_col_filter|].
  destruct (series_mean_total (map (cell "number_of_reviews")
    (List.filter (λ r, negb (isna (cell "is_superhost" r)) && key_eq (cell "is_superhost" r) k)
       (rows T)))) as [x4 ->]; [by apply numeric_col_cells, numeric_col_filter|].
  cbn. eauto.
Qed.

(** The condition under which the comparison is not made. *)
Definition group_missing (T : DataFrame) : bool :=
  let index := group_keys "is_superhost" (rows T) in
  negb (existsb (key_eq (VBool true)) index)
  || negb (existsb (key_eq (VBool false)) index).

Lemma superhost_premium_returns self σ T :
  σ !! self_df self = Some T →
  has_col "is_superhost" T = true →
  has_col "price" T = true → has_col "review_scores_rating" T = true →
  has_col "number_of_reviews" T = true → has_col "id" T = true →
  numeric_col "price" (rows T) → numeric_col "review_scores_rating" (rows T) →
  numeric_col "number_of_reviews" (rows T) →
  ∃ out, get_superhost_premium self σ = (Ok out, σ)
         ∧ (group_missing T = true → out = {[ "note" := VStr insufficient ]})
         ∧ (group_missing T = false → is_Some (out !! "price_premium_pct")).
Proof.
  intros HT Hsh Hp Hr Hn Hi Np Nr Nn. unfold get_superhost_premium.
  rewrite (bind_load _ _ σ T HT). rewrite Hsh. cbn [negb].
  rewrite (bind_lift_Ok _ _ _ σ (df_col_has _ _ Hp)).
  rewrite (bind_lift_Ok _ _ _ σ (df_col_has _ _ Hr)).
  rewrite (bind_lift_Ok _ _ _ σ (df_col_has _ _ Hn)).
  rewrite (bind_lift_Ok _ _ _ σ (df_col_has _ _ Hi)).
  cbn zeta.
  destruct (PipelineFacts.mapR_total
              (λ k, r ← superhost_group T k; Ok (k, r))
              (group_keys "is_superhost" (rows T))) as [groups Hg].
  { apply Forall_forall. intros k _.
    destruct (superhost_group_total T k Np Nr Nn) as [r ->]. cbn. eauto. }
  rewrite (bind_lift_Ok _ _ _ σ Hg).
  fold (group_missing T). destruct (group_missing T).
  - eexists. split; [reflexivity|]. split; [done|done].
  - eexists. split; [reflexivity|]. split; [done|]. intros _.
    rewrite lookup_insert_ne by done. rewrite lookup_insert_ne by done.
    rewrite lookup_insert_eq. done.
Qed.

(** With the column, whatever is returned is the note or has a premium. *)
Lemma superhost_premium_outcomes self σ T out σ' :
  σ !! self_df self = Some T → has_col "is_superhost" T = true →
  get_superhost_premium self σ = (Ok out, σ') →
  out = {[ "note" := VStr insufficient ]} ∨ is_Some (out !! "price_premium_pct").
Proof.
  intros HT Hsh. unfold get_superhost_premium.
  rewrite (bind_load _ _ σ T HT). rewrite Hsh. cbn [negb].
  rewrite bind_lift. destruct (df_col "price" T); [|done].
  rewrite bind_lift. destruct (df_col "review_scores_rating" T); [|done].
  rewrite bind_lift. destruct (df_col "number_of_reviews" T); [|done].
  rewrite bind_lift. destruct (df_col "id" T); [|done].
  cbn zeta. rewrite bind_lift. destruct (mapR _ _) as [groups|]; [|done].
  fold (group_missing T). destruct (group_missing T).
  - intros [= <- _]. by left.
  - intros [= <- _]. right.
    rewrite lookup_insert_ne by done. rewrite lookup_insert_ne by done.
    by rewrite lookup_insert_eq.
Qed.

Lemma group_missing_absent T b :
  Forall (λ r, key_eq (VBool b) (cell "is_superhost" r) = false) (rows T) →
  existsb (key_eq (VBool b)) (group_keys "is_superhost" (rows T)) = false.
Proof.
  intros H. apply not_true_is_false. intros Hex.
  apply existsb_exists in Hex as (k & Hk & Heq).
  apply list_elem_of_In in Hk. unfold group_keys in Hk.
  apply (proj1 (vsort_elem _ _)) in Hk. apply distinct_keys_elem in Hk.
  apply list_elem_of_fmap in Hk as (r & -> & Hr).
  eapply Forall_forall in H; [|exact Hr]. congruence.
Qed.

(** *** [get_market_concentration] *)

Section concentration.
Import MarketOverview.

Definition Qsum (l : list Q) : Q := fold_right Qplus 0%Q l.

Lemma Qsum_perm l l' : Permutation l l' → (Qsum l == Qsum l')%Q.
Proof.
  induction 1 as [|x l l' _ IH|x y l|l l' l'' _ IH1 _ IH2]; cbn.
  - reflexivity.
  - by rewrite IH.
  - ring.
  - by rewrite IH1.
Qed.

Lemma Qsum_ext {A} (f g : A → Q) l :
  (∀ x, (f x == g x)%Q) → (Qsum (map f l) == Qsum (map g l))%Q.
Proof.
  intros H. induction l as [|x l IH]; cbn; [reflexivity|]. by rewrite H, IH.
Qed.

Lemma fsum_acc qs a :
  Qred a = a →
  ∃ q, fold_left fadd (map fnum qs) (fnum a) = fnum q ∧ Qred q = q
       ∧ (q == a + Qsum qs)%Q.
Proof.
  revert a. induction qs as [|x qs IH]; intros a Ha; cbn [map fold_left Qsum fold_right].
  - exists a. split; [done|]. split; [done|]. ring.
  - destruct (IH (Qred (a + x))) as (q & Hq & Hred & Heq); [apply Qred_involutive|].
    exists q. split; [exact Hq|]. split; [done|].
    rewrite Heq, Qred_correct. fold (Qsum qs). ring.
Qed.

Lemma fsum_fnum qs :
  ∃ q, fsum (map fnum qs) = fnum q ∧ Qred q = q ∧ (q == Qsum qs)%Q.
Proof.
  destruct (fsum_acc qs 0%Q eq_refl) as (q & Hq & Hred & Heq).
  exists q. split; [exact Hq|]. split; [done|]. rewrite Heq. ring.
Qed.

Lemma insert_count_perm x l : Permutation (insert_count x l) (x :: l).
Proof.
  induction l as [|y l IH]; cbn; [done|].
  destruct (snd y <? snd x)%Z; [done|]. rewrite IH. apply perm_swap.
Qed.

(** The number of listings of host [h]. *)
Definition host_count (T : DataFrame) (h : value) : Z :=
  Z.of_nat (length (List.filter (key_eq h) (map (cell "host_id") (rows T)))).

(** The hosts of the table, each once. *)
Definition hosts (T : DataFrame) : list value :=
  distinct_keys [] (map (cell "host_id") (rows T)).

Lemma value_counts_perm T :
  Permutation (value_counts (map (cell "host_id") (rows T)))
              (map (λ h, (h, host_count T h)) (hosts T)).
Proof.
  unfold value_counts, hosts, host_count.
  generalize (map (λ k, (k, Z.of_nat (length (List.filter (key_eq k)
                (map (cell "host_id") (rows T))))))
                (distinct_keys [] (map (cell "host_id") (rows T)))).
  intros l. induction l as [|x l IH]; cbn; [done|].
  rewrite insert_count_perm. by constructor.
Qed.

(** The share of a host with [c] of [n] listings, in percent, and its
    square, as the code computes them. *)
Definition share_of (n c : Z) : Q :=
  Qred (Qred (inject_Z c / inject_Z n) * inject_Z 100).

Lemma share_fnum n c :
  n ≠ 0%Z →
  fmul (fdiv (of_Z c) (of_Z n)) (of_Z 100) = fnum (share_of n c).
Proof.
  intros Hn. unfold of_Z, fdiv, fmul, Qzero. cbn [Qnum inject_Z].
  by rewrite (proj2 (Z.eqb_neq n 0) Hn).
Qed.

Lemma share_of_eq n c :
  (share_of n c == inject_Z c / inject_Z n * 100)%Q.
Proof. unfold share_of. by rewrite !Qred_correct. Qed.

(** The share of host [h] in percent. *)
Definition share_pct (T : DataFrame) (h : value) : Q :=
  (inject_Z (host_count T h) / inject_Z (Z.of_nat (length (rows T))) * 100)%Q.

Lemma hhi_formula T :
  ∃ q, fsum (map (λ s, fmul s s) (host_shares T)) = fnum q ∧ Qred q = q
       ∧ (q == Qsum (map (λ h, share_pct T h * share_pct T h) (hosts T)))%Q.
Proof.
  destruct (rows T) as [|r0 rs] eqn:Hrows.
  { exists 0%Q. unfold host_shares, hosts. rewrite Hrows. cbn. done. }
  assert (Hn : Z.of_nat (length (rows T)) ≠ 0%Z) by (rewrite Hrows; cbn; lia).
  clear Hrows.
  set (n := Z.of_nat (length (rows T))) in *.
  assert (Hsh : map (λ s, fmul s s) (host_shares T)
                = map fnum (map (λ kc : value * Z, Qred (share_of n kc.2 * share_of n kc.2))
                                (value_counts (map (cell "host_id") (rows T))))).
  { unfold host_shares. rewrite !map_map. apply map_ext. intros [k c]. cbn [snd].
    unfold of_nat. fold n. by rewrite share_fnum. }
  rewrite Hsh. destruct (fsum_fnum (map (λ kc : value * Z,
      Qred (share_of n kc.2 * share_of n kc.2))
      (value_counts (map (cell "host_id") (rows T))))) as (q & Hq & Hred & Heq).
  exists q. split; [done|]. split; [done|]. rewrite Heq.
  rewrite (Qsum_perm _ _ (Permutation_map _ (value_counts_perm T))).
  rewrite map_map. apply Qsum_ext. intros h. cbn [snd].
  rewrite Qred_correct, !share_of_eq. unfold share_pct. fold n. reflexivity.
Qed.

Lemma market_concentration_returns self σ T :
  σ !! self_df self = Some T → has_col "host_id" T = true →
  ∃ out, get_market_concentration self σ = (Ok out, σ)
         ∧ out !! "hhi" = Some (VFloat (fsum (map (λ s, fmul s s) (host_shares T)))).
Proof.
  intros HT Hh. unfold get_market_concentration.
  rewrite (bind_load _ _ σ T HT).
  rewrite (bind_lift_Ok _ _ _ σ (df_col_has _ _ Hh)). cbn zeta.
  eexists. split; [reflexivity|]. apply lookup_insert_eq.
Qed.

End concentration.

(** *** Seasonal and weekend premiums *)

Section seasonality.
Import Seasonality.

(** The premium of [high] over [low] in percent, [0] when [low] is falsy. *)
Definition premium_of (high low : float) : value :=
  if truthy low then VFloat (fmul (fdiv (fsub high low) low) (of_Z 100)) else VInt 0.

Lemma premium_of_nan high : premium_of high fnan = NaN.
Proof. unfold premium_of, fsub. cbn. by destruct high. Qed.

Lemma premium_of_zero high q : (q == 0)%Q → premium_of high (fnum q) = VInt 0.
Proof.
  intros Hq. unfold premium_of, truthy, Qzero.
  assert (Qnum q = 0%Z) as ->; [|done].
  unfold Qeq in Hq. cbn in Hq. lia.
Qed.

Lemma premium_of_nonzero high low :
  truthy low = true →
  premium_of high low = VFloat (fmul (fdiv (fsub high low) low) (of_Z 100)).
Proof. intros H. unfold premium_of. by rewrite H. Qed.

Lemma Forall_select {A} (P : A → Prop) mask (l : list A) :
  Forall P l → Forall P (select mask l).
Proof.
  intros H. revert mask. induction H as [|x l Hx Hl IH]; intros [|[] mask]; cbn;
    try constructor; auto.
Qed.

Lemma month_row_total env T k :
  numeric_col "price" (rows T) →
  ∃ r x, month_row env T k = Ok r ∧ cell "avg_price" r = VFloat x.
Proof.
  intros Hp. unfold month_row, group_rows.
  assert (Hg : Forall (λ v, is_numeric v = true)
                 (map (cell "price")
                    (List.filter (λ r, negb (isna (cell "month" r)) && key_eq (cell "month" r) k)
                       (rows T)))).
  { by apply numeric_col_cells, numeric_col_filter. }
  destruct (series_mean_total _ Hg) as [x1 ->].
  destruct (series_median_total _ Hg) as [x2 ->].
  destruct (series_std_total env _ Hg) as [x3 ->].
  cbn. eexists _, x1. split; [reflexivity|].
  unfold cell. rewrite lookup_insert_ne by done. by rewrite lookup_insert_eq.
Qed.

Lemma price_by_month_returns env self σ T :
  σ !! self_calendar self = Some T →
  has_col "price" T = true → has_col "month" T = true →
  numeric_col "price" (rows T) →
  ∃ pbm, get_price_by_month env self σ = (Ok pbm, σ)
         ∧ Forall (λ r, ∃ x, cell "avg_price" r = VFloat x) pbm.
Proof.
  intros HT Hp Hm Np. unfold get_price_by_month.
  rewrite (bind_load _ _ σ T HT).
  rewrite (bind_lift_Ok _ _ _ σ (df_col_has _ _ Hp)). cbn zeta.
  assert (Hm' : has_col "month" (dropna ["price"] T) = true) by exact Hm.
  rewrite (bind_lift_Ok _ _ _ σ (df_col_has _ _ Hm')).
  assert (Np' : numeric_col "price" (rows (dropna ["price"] T))).
  { cbn [dropna rows]. by apply numeric_col_filter. }
  generalize dependent (dropna ["price"] T). intros T' _ Np'.
  generalize (group_keys "month" (rows T')). intros keys.
  unfold lift. induction keys as [|k keys (pbm & IH & HF)]; cbn [mapR].
  - exists []. split; [done | constructor].
  - destruct (month_row_total env T' k Np') as (r & x & -> & Hx).
    injection IH as ->. exists (r :: pbm). split; [done|]. constructor; eauto.
Qed.

Lemma season_avg_total pbm months :
  Forall (λ r, ∃ x, cell "avg_price" r = VFloat x) pbm →
  ∃ x, season_avg pbm months = Ok x.
Proof.
  intros H. unfold season_avg. apply series_mean_total.
  apply Forall_map. apply Forall_lfilter.
  eapply Forall_impl; [exact H|]. by intros r [x ->].
Qed.

Lemma peak_season_returns env self σ T :
  σ !! self_calendar self = Some T →
  has_col "price" T = true → has_col "month" T = true →
  numeric_col "price" (rows T) →
  ∃ ps, identify_peak_season env self σ = (Ok ps, σ)
        ∧ seasonal_premium_pct ps
          = premium_of (high_season_avg_price ps) (low_season_avg_price ps).
Proof.
  intros HT Hp Hm Np. unfold identify_peak_season.
  destruct (price_by_month_returns env self σ T HT Hp Hm Np) as (pbm & Hpbm & HF).
  rewrite (bind_Ok _ _ σ pbm σ Hpbm). cbn zeta.
  destruct (season_avg_total pbm (high_season_months (self_config self)) HF) as [hi Hhi].
  destruct (season_avg_total pbm (low_season_months (self_config self)) HF) as [lo Hlo].
  rewrite (bind_lift_Ok _ _ _ σ Hhi), (bind_lift_Ok _ _ _ σ Hlo).
  eexists. split; reflexivity.
Qed.

Lemma weekend_pricing_returns self σ T :
  σ !! self_calendar self = Some T →
  has_col "price" T = true → has_col "is_weekend" T = true →
  numeric_col "price" (rows T) →
  Forall (λ r, ∃ b, cell "is_weekend" r = VBool b) (rows T) →
  ∃ wp, get_weekend_vs_weekday_pricing self σ = (Ok wp, σ)
        ∧ weekend_premium_pct wp = premium_of (weekend_avg wp) (weekday_avg wp).
Proof.
  intros HT Hp Hw Np Hb. unfold get_weekend_vs_weekday_pricing.
  rewrite (bind_load _ _ σ T HT).
  rewrite (bind_lift_Ok _ _ _ σ (df_col_has _ _ Hp)). cbn zeta.
  assert (Hw' : has_col "is_weekend" (dropna ["price"] T) = true) by exact Hw.
  rewrite (bind_lift_Ok _ _ _ σ (df_col_has _ _ Hw')).
  assert (Np' : numeric_col "price" (rows (dropna ["price"] T))).
  { cbn [dropna rows]. by apply numeric_col_filter. }
  assert (Hb' : Forall (λ r, ∃ b, cell "is_weekend" r = VBool b)
                  (rows (dropna ["price"] T))).
  { cbn [dropna rows]. by apply Forall_lfilter. }
  generalize dependent (dropna ["price"] T). intros cal _ Np' Hb'.
  destruct (PipelineFacts.mapR_total as_bool (map (cell "is_weekend") (rows cal)))
    as [mask Hmask].
  { apply Forall_map. eapply Forall_impl; [exact Hb'|]. intros r [b ->]. cbn. eauto. }
  rewrite (bind_lift_Ok _ _ _ σ Hmask).
  assert (H1 : Forall (λ v, is_numeric v = true)
                 (map (cell "price") (select mask (rows cal)))).
  { by apply numeric_col_cells, Forall_select. }
  assert (H2 : Forall (λ v, is_numeric v = true)
                 (map (cell "price") (select (map negb mask) (rows cal)))).
  { by apply numeric_col_cells, Forall_select. }
  destruct (series_mean_total _ H1) as [a1 Ha1].
  destruct (series_mean_total _ H2) as [a2 Ha2].
  destruct (series_median_total _ H1) as [m1 Hm1].
  destruct (series_median_total _ H2) as [m2 Hm2].
  rewrite (bind_lift_Ok _ _ _ σ Ha1), (bind_lift_Ok _ _ _ σ Ha2).
  rewrite (bind_lift_Ok _ _ _ σ Hm1), (bind_lift_Ok _ _ _ σ Hm2).
  eexists. split; reflexivity.
Qed.

End seasonality.

End AnalysisFacts.
(** ** Equality of keys *)

Module KeyFacts.
Import FrameFacts.

Lemma feq_sym x y : feq x y = feq y x.
Proof.
  destruct x as [|s|a], y as [|t|b]; cbn; try done.
  - by destruct s, t.
  - apply eq_true_iff_eq. rewrite !Qeq_bool_iff. split; intros H; by symmetry.
Qed.

Lemma feq_trans x y z : feq x y = true → feq y z = true → feq x z = true.
Proof.
  destruct x as [|s|a], y as [|t|b], z as [|u|c]; cbn; try done.
  - destruct s, t, u; done.
  - rewrite !Qeq_bool_iff. intros H1 H2. by rewrite H1.
Qed.

(** Python's [==] on two numbers compares their values. *)
Lemma py_eq_numbers a b x y :
  to_float a = Ok x → to_float b = Ok y → py_eq a b = feq x y.
Proof.
  destruct a as [?|?|?|?|?|?], b as [?|?|?|?|?|?]; cbn; try done.
  all: by intros [= <-] [= <-].
Qed.

Lemma py_eq_number_other a b x :
  to_float a = Ok x → py_eq a b = true → ∃ y, to_float b = Ok y.
Proof.
  destruct a as [?|?|?|?|?|?], b as [?|?|?|?|?|?]; cbn; try done; eauto.
Qed.

Lemma py_eq_sym a b : py_eq a b = py_eq b a.
Proof.
  destruct a as [x|z|s|[]|l|d], b as [y|w|t|[]|m|e]; try done.
  all: try solve [ etransitivity; [apply py_eq_numbers; reflexivity|];
                   symmetry; etransitivity; [apply py_eq_numbers; reflexivity|];
                   apply feq_sym ].
  all: cbn.
  - apply String.eqb_sym.
  - apply bool_decide_ext. split; intros; by symmetry.
  - apply Z.eqb_sym.
Qed.

Lemma py_eq_trans a b c : py_eq a b = true → py_eq b c = true → py_eq a c = true.
Proof.
  intros H1 H2. destruct (to_float a) as [x|err] eqn:Ea.
  - destruct (py_eq_number_other a b x Ea H1) as [y Eb].
    destruct (py_eq_number_other b c y Eb H2) as [z Ec].
    rewrite (py_eq_numbers _ _ _ _ Ea Eb) in H1.
    rewrite (py_eq_numbers _ _ _ _ Eb Ec) in H2.
    rewrite (py_eq_numbers _ _ _ _ Ea Ec). by eapply feq_trans.
  - destruct a as [?|?|s|[]|l|d]; try done.
    + destruct b as [?|?|t|[]|m|e]; try done. destruct c as [?|?|u|[]|n|f]; try done.
      cbn in *. apply String.eqb_eq in H1, H2. apply String.eqb_eq. congruence.
    + destruct b as [?|?|t|[]|m|e]; try done. destruct c as [?|?|u|[]|n|f]; try done.
      cbn in *. apply bool_decide_eq_true in H1, H2. apply bool_decide_eq_true.
      congruence.
    + destruct b as [?|?|t|[]|m|e]; try done. destruct c as [?|?|u|[]|n|f]; try done.
      cbn in *. apply Z.eqb_eq in H1, H2. apply Z.eqb_eq. congruence.
Qed.

Lemma py_eq_nan_l b : py_eq NaN b = false.
Proof. by destruct b as [[| |]|?|?|[]|?|?]. Qed.

Lemma key_eq_sym a b : key_eq a b = key_eq b a.
Proof. unfold key_eq. by rewrite py_eq_sym, (andb_comm (isna a)). Qed.

Lemma isna_NaN v : isna v = true → v = NaN.
Proof. by destruct v as [[| |]|?|?|?|?|?]. Qed.

Lemma key_eq_isna a b : key_eq a b = true → isna a = isna b.
Proof.
  unfold key_eq. destruct (isna a) eqn:Ea, (isna b) eqn:Eb; cbn; try done.
  - apply isna_NaN in Ea as ->. by rewrite py_eq_nan_l.
  - apply isna_NaN in Eb as ->. by rewrite py_eq_sym, py_eq_nan_l.
Qed.

Lemma key_eq_trans a b c : key_eq a b = true → key_eq b c = true → key_eq a c = true.
Proof.
  intros H1 H2. pose proof (key_eq_isna _ _ H1) as E1.
  pose proof (key_eq_isna _ _ H2) as E2. unfold key_eq in *.
  destruct (isna a) eqn:Ea.
  - rewrite <- E2, <- E1. done.
  - rewrite <- E1 in *. rewrite <- E2 in *. cbn in *. by eapply py_eq_trans.
Qed.

End KeyFacts.
(** ** More of the cleaning pipeline *)

Module CleanerFacts.
Import Pure FrameFacts StoreFacts Cleaner PipelineFacts.

(** *** Where the cleaned rows come from *)

(** The columns [clean_listings] assigns. *)
Definition listing_written : list string :=
  "price" :: "bedrooms" :: "beds" :: listing_targets.

Ltac subset_tac :=
  let k := fresh "k" in let Hk := fresh "Hk" in
  intros k Hk;
  repeat (apply elem_of_cons in Hk as [->|Hk]; [in_tac|]);
  by apply elem_of_nil in Hk.

Lemma stages_write env config :
  Forall (writes listing_written) (map run (stages env config)).
Proof.
  unfold stages. cbn [map run stage_dedup stage_price stage_dropna stage_fill
    stage_range stage_active stage_derived].
  repeat apply List.Forall_cons; try apply List.Forall_nil.
  - apply dedup_writes.
  - eapply writes_weaken; [|apply set_price_writes]. unfold listing_written, listing_targets. subset_tac.
  - apply drop_missing_writes.
  - eapply writes_weaken; [|apply fill_writes]. unfold listing_written, listing_targets. subset_tac.
  - eapply writes_weaken; [|apply fill_writes]. unfold listing_written, listing_targets. subset_tac.
  - eapply writes_weaken; [|apply range_writes]. subset_tac.
  - eapply writes_weaken; [|apply active_writes]. subset_tac.
  - eapply writes_weaken; [|apply (derived_writes env)]. unfold listing_written, listing_targets.
    subset_tac.
Qed.

Lemma clean_listings_writes env config :
  writes listing_written (Pure.clean_listings env config).
Proof.
  intros T T' H. rewrite clean_listings_stages in H.
  by apply (seqs_writes listing_written _ (stages_write env config)).
Qed.

Lemma from_rows_length K rs' rs : from_rows K rs' rs → (length rs' ≤ length rs)%nat.
Proof.
  intros (rs0 & Hs & Ha). rewrite (Forall2_length _ _ _ Ha). by apply sublist_length.
Qed.

(** *** Distinct keys *)

Lemma nodup_keys_seen key seen rs r :
  nodup_keys key seen rs → r ∈ rs → existsb (key_eq (cell key r)) seen = false.
Proof.
  revert seen. induction rs as [|r0 rs IH]; intros seen H Hr; [by apply elem_of_nil in Hr|].
  destruct H as [H1 H2]. apply elem_of_cons in Hr as [->|Hr]; [done|].
  pose proof (IH _ H2 Hr) as H. cbn in H. by apply orb_false_iff in H as [_ ?].
Qed.

Lemma nodup_keys_lookup key seen rs i j r r' :
  nodup_keys key seen rs → (i < j)%nat → rs !! i = Some r → rs !! j = Some r' →
  key_eq (cell key r') (cell key r) = false.
Proof.
  revert seen i j. induction rs as [|r0 rs IH]; intros seen i j H Hij Hi Hj; [done|].
  destruct H as [H1 H2]. destruct j as [|j]; [lia|]. cbn in Hj.
  destruct i as [|i]; cbn in Hi.
  - injection Hi as ->. apply list_elem_of_lookup_2 in Hj.
    pose proof (nodup_keys_seen _ _ _ _ H2 Hj) as H. cbn in H.
    by apply orb_false_iff in H as [? _].
  - eapply (IH _ i j); [exact H2|lia|done|done].
Qed.

(** *** The derived columns of the cleaned table *)

Lemma clean_listings_derived env config T0 T d :
  Pure.clean_listings env config T0 = Ok T →
  d ∈ listing_derivs env → has_col (trigger d) T0 = true →
  Forall (Fix (target d) (fn d)) (rows T).
Proof.
  intros H Hd Hc.
  pose proof (clean_listings_cols env config T0 T _ H Hc) as Hc'.
  apply clean_listings_invariants in H.
  assert (HI : Inv (stage_derived env) T).
  { eapply Forall_forall in H; [exact H|]. unfold stages. in_tac. }
  cbn [Inv stage_derived] in HI. unfold derived in HI.
  eapply Forall_forall in HI; [|exact Hd]. by apply HI.
Qed.

Lemma Fix_cell c h r : Fix c h r → h r = Ok (cell c r).
Proof. intros (v & Hv & Hc). unfold cell. by rewrite Hc. Qed.

(** The price of a cleaned row is a float. *)
Lemma clean_listings_price env config T0 T :
  Pure.clean_listings env config T0 = Ok T →
  Forall (λ r, ∃ p, cell "price" r = VFloat p) (rows T).
Proof.
  intros H. apply clean_listings_invariants in H.
  assert (HI : Inv stage_price T).
  { eapply Forall_forall in H; [exact H|]. unfold stages. in_tac. }
  destruct HI as [_ HF]. eapply Forall_impl; [exact HF|].
  intros r (v & Hv & Hc). unfold h_price in Hv.
  apply PriceFacts.clean_price_idem in Hv as Hv'.
  apply PriceFacts.clean_price_returns in Hv as (x & -> & _).
  exists x. unfold cell. by rewrite Hc.
Qed.



Lemma clean_listings_amenities env config T0 T :
  Pure.clean_listings env config T0 = Ok T →
  has_col "amenities" T0 = true →
  Forall (λ r, ∃ l, parse_amenities env (cell "amenities" r) = Ok l
                    ∧ cell "amenities_list" r = VList l
                    ∧ cell "amenity_count" r = VInt (Z.of_nat (length l))) (rows T).
Proof.
  intros H Hc.
  pose proof (clean_listings_derived env config T0 T
    {| trigger := "amenities"; target := "amenities_list";
       deps := ["amenities"]; fn := h_alist env |} H) as H1.
  pose proof (clean_listings_derived env config T0 T
    {| trigger := "amenities"; target := "amenity_count";
       deps := ["amenities"]; fn := h_acount env |} H) as H2.
  cbn [trigger target fn] in H1, H2.
  specialize (H1 ltac:(unfold listing_derivs; in_tac) Hc).
  specialize (H2 ltac:(unfold listing_derivs; in_tac) Hc).
  apply Forall_forall. intros r Hr.
  eapply Forall_forall in H1; [|exact Hr]. eapply Forall_forall in H2; [|exact Hr].
  apply Fix_cell in H1, H2. unfold h_alist in H1. unfold h_acount in H2.
  destruct (parse_amenities env (cell "amenities" r)) as [l|]; [|done].
  cbn in H1, H2. injection H1 as H1. injection H2 as H2. exists l. by rewrite <- H1, <- H2.
Qed.


Lemma clean_listings_flag env config T0 T src tgt :
  (src, tgt) ∈ [("host_is_superhost", "is_superhost");
                ("instant_bookable", "is_instant_bookable")] →
  Pure.clean_listings env config T0 = Ok T →
  has_col src T0 = true →
  Forall (λ r, cell tgt r = map_tf (cell src r)) (rows T).
Proof.
  intros Hin H Hc.
  pose proof (clean_listings_derived env config T0 T
    {| trigger := src; target := tgt; deps := [src]; fn := h_flag src |} H) as H1.
  cbn [trigger target fn] in H1.
  assert (Hd : {| trigger := src; target := tgt; deps := [src]; fn := h_flag src |}
               ∈ listing_derivs env).
  { apply elem_of_cons in Hin as [[= -> ->]|Hin]; [unfold listing_derivs; in_tac|].
    apply list_elem_of_singleton in Hin as [= -> ->]. unfold listing_derivs. in_tac. }
  specialize (H1 Hd Hc). eapply Forall_impl; [exact H1|].
  intros r Hr. apply Fix_cell in Hr. unfold h_flag in Hr. by injection Hr as <-.
Qed.

(** The bedrooms and beds of a cleaned row are set. *)
Lemma clean_listings_filled env config T0 T col :
  col ∈ ["bedrooms"; "beds"] →
  Pure.clean_listings env config T0 = Ok T →
  has_col col T0 = true →
  Forall (λ r, isna (cell col r) = false) (rows T).
Proof.
  intros Hin H Hc.
  pose proof (clean_listings_cols env config T0 T _ H Hc) as Hc'.
  apply clean_listings_invariants in H.
  assert (HI : Inv (stage_fill col) T).
  { eapply Forall_forall in H; [exact H|]. unfold stages.
    apply elem_of_cons in Hin as [->|Hin]; [in_tac|].
    apply list_elem_of_singleton in Hin as ->. in_tac. }
  destruct (HI Hc') as [_ HF]. eapply Forall_impl; [exact HF|].
  intros r (v & Hv & Hn & _). unfold cell. by rewrite Hv.
Qed.

(** No two rows of the cleaned table have the same id. *)
Lemma clean_listings_nodup env config T0 T :
  Pure.clean_listings env config T0 = Ok T → nodup_keys "id" [] (rows T).
Proof.
  intros H. apply clean_listings_invariants in H.
  assert (HI : Inv stage_dedup T).
  { eapply Forall_forall in H; [exact H|]. unfold stages. in_tac. }
  by destruct HI.
Qed.

(** *** The rows [filter_active_listings] keeps *)

(** A comparison that holds; a cell that cannot be compared does not. *)
Definition holds_cmp (op : float → float → bool) (bound : float) (v : value) : bool :=
  match cmp op bound v with
  | Ok b => b
  | Raise _ => false
  end.

Definition in_price_range (config : Config) (r : row) : bool :=
  holds_cmp fge (price_min config) (cell "price" r)
  && holds_cmp fle (price_max config) (cell "price" r).

(** [av]: the table has the column [availability_365]. *)
Definition is_active (config : Config) (av : bool) (r : row) : bool :=
  holds_cmp fge (min_reviews config) (cell "number_of_reviews" r)
  || (av && holds_cmp fgt (of_Z 0) (cell "availability_365" r)).

Lemma select_masks {A} (f g : A → result bool) (op : bool → bool → bool) l m1 m2 :
  mapR f l = Ok m1 → mapR g l = Ok m2 →
  select (zip_with op m1 m2) l
  = List.filter (λ x, op (match f x with Ok b => b | Raise _ => false end)
                         (match g x with Ok b => b | Raise _ => false end)) l.
Proof.
  revert m1 m2. induction l as [|x l IH]; intros m1 m2 H1 H2; cbn in *.
  - injection H1 as <-. done.
  - destruct (f x) as [b1|]; [|done]. destruct (g x) as [b2|]; [|done].
    destruct (mapR f l) as [m1'|]; [|done]. destruct (mapR g l) as [m2'|]; [|done].
    injection H1 as <-. injection H2 as <-. cbn. by rewrite (IH m1' m2').
Qed.

Lemma filter_filter_and {A} (p q : A → bool) l :
  List.filter q (List.filter p l) = List.filter (λ x, p x && q x) l.
Proof.
  induction l as [|x l IH]; cbn; [done|].
  destruct (p x); cbn; [|done]. destruct (q x); by rewrite IH.
Qed.

Lemma price_filter_keeps config T T' :
  Pure.price_filter config T = Ok T' →
  columns T' = columns T ∧ rows T' = List.filter (in_price_range config) (rows T).
Proof.
  intros H. pose proof (price_filter_rows config T T' H) as (Hc & _).
  rewrite price_filter_eq in H by done.
  match type of H with mbind _ ?m = _ => destruct m as [m1|] eqn:E1; [|by cbn in H] end.
  cbn in H.
  match type of H with mbind _ ?m = _ => destruct m as [m2|] eqn:E2; [|by cbn in H] end.
  injection H as <-. split; [done|]. cbn [df_select rows].
  by rewrite (select_masks _ _ andb _ _ _ E1 E2).
Qed.

Lemma activity_filter_keeps config T T' :
  Pure.activity_filter config T = Ok T' →
  columns T' = columns T
  ∧ rows T' = List.filter (is_active config (has_col "availability_365" T)) (rows T).
Proof.
  intros H. pose proof (activity_filter_rows config T T' H) as (Hc & _).
  rewrite activity_filter_eq in H by done.
  match type of H with mbind _ ?m = _ => destruct m as [m1|] eqn:E1; [|by cbn in H] end.
  cbn in H.
  match type of H with mbind _ ?m = _ => destruct m as [m2|] eqn:E2; [|by cbn in H] end.
  injection H as <-. split; [done|]. cbn [df_select rows].
  rewrite (select_masks _ _ orb _ _ _ E1 E2). apply AnalysisFacts.filter_ext_bool.
  intros r. unfold is_active, holds_cmp, avail.
  destruct (has_col "availability_365" T); [done|]. by rewrite andb_false_l.
Qed.

Lemma filter_active_listings_keeps config T T' :
  Pure.filter_active_listings config T = Ok T' →
  columns T' = columns T
  ∧ rows T' = List.filter (λ r, in_price_range config r
                               && is_active config (has_col "availability_365" T) r)
                          (rows T).
Proof.
  unfold Pure.filter_active_listings. intros H.
  destruct (Pure.price_filter config T) as [T1|] eqn:E1; [|done]. cbn in H.
  apply price_filter_keeps in E1 as [Hc1 Hr1].
  apply activity_filter_keeps in H as [Hc2 Hr2].
  split; [by rewrite Hc2|]. rewrite Hr2, Hr1, filter_filter_and.
  unfold has_col. by rewrite Hc1.
Qed.

(** *** The calendar pipeline, stage by stage *)

(** A stage that leaves cells of a kind under [c]. *)
Definition value_stage (f : stepF) (c : string) (P : value → bool) : Stage :=
  {| run := f; W := [c]; K := [c];
     Inv := λ T, has_col c T = true ∧ Forall (λ r, P (cell c r) = true) (rows T) |}.

(** A stage that computes the column [c] from the columns [cs]. *)
Definition fix_stage (f : stepF) (c : string) (cs : list string)
    (h : row → result value) : Stage :=
  {| run := f; W := [c]; K := c :: cs;
     Inv := λ T, has_col c T = true ∧ Forall (Fix c h) (rows T) |}.

Lemma value_stage_stable f c P : stable (value_stage f c P).
Proof.
  intros W' g T T' Hw Hd Hg [Hc HF]. split; [by eapply col_mono|].
  eapply (rows_stable _ [c]); [|exact Hw|exact Hd|exact Hg|exact HF].
  intros r' r Ha. unfold cell. rewrite (Ha c); [done|]. by left.
Qed.

Lemma fix_stage_stable f c cs h : dep cs h → stable (fix_stage f c cs h).
Proof.
  intros Hdep W' g T T' Hw Hd Hg [Hc HF]. split; [by eapply col_mono|].
  eapply (rows_stable _ (c :: cs)); [|exact Hw|exact Hd|exact Hg|exact HF].
  intros r' r Ha. by apply (Fix_agree cs).
Qed.

Lemma derive_values c h (P : value → bool) T T' :
  (∀ r v, h r = Ok v → P v = true) → derive c h T = Ok T' →
  has_col c T' = true ∧ Forall (λ r, P (cell c r) = true) (rows T').
Proof.
  intros HP H. apply derive_rows in H as [H Hc]. split; [done|].
  induction H as [|r' r l' l (v & Hv & ->) Hl IH]; constructor; [|done].
  unfold cell. rewrite lookup_insert_eq. by eapply HP.
Qed.

Lemma derive_establishes c cs h T T' :
  dep cs h → c ∉ cs → derive c h T = Ok T' →
  has_col c T' = true ∧ Forall (Fix c h) (rows T').
Proof.
  intros Hdep Hc H. split; [by apply derive_rows in H as [_ ?]|].
  by eapply derive_fix.
Qed.

(** A cell of a datetime column, of a boolean column. *)
Definition is_date (v : value) : bool :=
  match v with VDate _ | VFloat fnan => true | _ => false end.
Definition is_flag (v : value) : bool :=
  match v with VBool _ | VFloat fnan => true | _ => false end.
Definition is_float (v : value) : bool :=
  match v with VFloat _ => true | _ => false end.

Definition h_date (env : Env) (r : row) : result value :=
  to_datetime env (cell "date" r).
Definition h_available (r : row) : result value := Ok (map_tf (cell "available" r)).
Definition h_month (r : row) : result value := dt_month (cell "date" r).
Definition h_dow (r : row) : result value := dt_dayofweek (cell "date" r).
Definition h_weekend (r : row) : result value :=
  Ok (isin [VInt 4; VInt 5] (cell "day_of_week" r)).

Lemma parse_dates_eq env T :
  Pure.parse_dates env T
  = if has_col "date" T
    then if is_datetime (map (cell "date") (rows T)) then Ok T
         else derive "date" (h_date env) T
    else Raise (KeyError "date").
Proof.
  unfold Pure.parse_dates, loadF, liftF, setF, retF, derive, df_col.
  destruct (has_col "date" T); [|done]. cbn [mbind result_mbind result_bind].
  destruct (is_datetime _); [done|]. unfold h_date. by rewrite mapR_map.
Qed.

Lemma set_available_eq T :
  Pure.set_available T
  = if has_col "available" T then derive "available" h_available T
    else Raise (KeyError "available").
Proof.
  unfold Pure.set_available, loadF, liftF, setF, derive, df_col.
  destruct (has_col "available" T); [|done]. cbn.
  unfold h_available. by rewrite mapR_pure, map_map.
Qed.

Lemma set_month_eq T :
  Pure.set_month T
  = if has_col "date" T then derive "month" h_month T else Raise (KeyError "date").
Proof.
  unfold Pure.set_month, loadF, liftF, setF, derive, df_col.
  destruct (has_col "date" T); [|done]. cbn. by rewrite mapR_map.
Qed.

Lemma set_day_of_week_eq T :
  Pure.set_day_of_week T
  = if has_col "date" T then derive "day_of_week" h_dow T else Raise (KeyError "date").
Proof.
  unfold Pure.set_day_of_week, loadF, liftF, setF, derive, df_col.
  destruct (has_col "date" T); [|done]. cbn. by rewrite mapR_map.
Qed.

Lemma set_is_weekend_eq T :
  Pure.set_is_weekend T
  = if has_col "day_of_week" T then derive "is_weekend" h_weekend T
    else Raise (KeyError "day_of_week").
Proof.
  unfold Pure.set_is_weekend, loadF, liftF, setF, derive, df_col.
  destruct (has_col "day_of_week" T); [|done]. cbn.
  unfold h_weekend. by rewrite mapR_pure, map_map.
Qed.

Definition drop_undated : stepF := λ T, Ok (dropna ["date"] T).

Definition stage_undated : Stage :=
  {| run := drop_undated; W := []; K := ["date"];
     Inv := λ T, Forall (λ r, isna (cell "date" r) = false) (rows T) |}.

Definition calendar_stages (env : Env) : list Stage :=
  [ value_stage (Pure.parse_dates env) "date" is_date;
    stage_price;
    value_stage Pure.set_available "available" is_flag;
    fix_stage Pure.set_month "month" ["date"] h_month;
    fix_stage Pure.set_day_of_week "day_of_week" ["date"] h_dow;
    fix_stage Pure.set_is_weekend "is_weekend" ["day_of_week"] h_weekend;
    stage_undated ].

Lemma clean_calendar_stages env T :
  Pure.clean_calendar env T = seqs (map run (calendar_stages env)) T.
Proof.
  unfold Pure.clean_calendar, calendar_stages.
  cbn [map seqs run value_stage fix_stage stage_price stage_undated].
  unfold seqF, retF, drop_undated.
  destruct (Pure.parse_dates env T) as [T1|]; [|reflexivity].
  cbn [mbind result_mbind result_bind].
  destruct (Pure.set_price T1) as [T2|]; [|reflexivity].
  cbn [mbind result_mbind result_bind].
  destruct (Pure.set_available T2) as [T3|]; [|reflexivity].
  cbn [mbind result_mbind result_bind].
  destruct (Pure.set_month T3) as [T4|]; [|reflexivity].
  cbn [mbind result_mbind result_bind].
  destruct (Pure.set_day_of_week T4) as [T5|]; [|reflexivity].
  cbn [mbind result_mbind result_bind].
  destruct (Pure.set_is_weekend T5) as [T6|]; reflexivity.
Qed.

Lemma to_datetime_date env v w : to_datetime env v = Ok w → is_date w = true.
Proof.
  destruct v as [[| |q]|z|s|b|l|d]; cbn; try done; try by intros [= <-].
  destruct (strptime env s); by intros [= <-].
Qed.

Lemma map_tf_flag v : is_flag (map_tf v) = true.
Proof.
  destruct v as [x|z|s|b|l|d]; cbn; try done.
  destruct (String.eqb s "t"); [done|]. by destruct (String.eqb s "f").
Qed.

Lemma undated_stable : stable stage_undated.
Proof.
  intros W' g T T' Hw Hd Hg HF.
  eapply (rows_stable _ ["date"]); [|exact Hw|exact Hd|exact Hg|exact HF].
  intros r' r Ha. unfold cell. rewrite (Ha "date"); [done|]. by left.
Qed.

Lemma calendar_staged env : staged [] (calendar_stages env).
Proof.
  unfold calendar_stages. cbn [staged app].
  repeat match goal with |- _ ∧ _ => split end; try exact I.
  all: try disjoint_tac.
  - cbn [run W value_stage]. unfold Pure.parse_dates.
    apply writes_load; intros ?. apply writes_lift; intros ?. apply writes_if.
    + apply writes_ret.
    + apply writes_lift; intros ?. apply writes_set. by left.
  - apply value_stage_stable.
  - intros T T' _ H. cbn [run value_stage] in H. rewrite parse_dates_eq in H.
    destruct (has_col "date" T) eqn:Hc; [|done].
    destruct (is_datetime _) eqn:Hd.
    + injection H as <-. split; [done|]. unfold is_datetime in Hd.
      rewrite forallb_forall in Hd. apply Forall_forall. intros r Hr.
      apply (Hd (cell "date" r)). apply in_map. by apply list_elem_of_In.
    + eapply derive_values; [|exact H]. intros r v. apply to_datetime_date.
  - apply set_price_writes.
  - apply price_stable.
  - intros T T' _. apply price_est.
  - cbn [run W value_stage]. unfold Pure.set_available. writes_tac.
  - apply value_stage_stable.
  - intros T T' _ H. cbn [run value_stage] in H. rewrite set_available_eq in H.
    destruct (has_col "available" T); [|done].
    eapply derive_values; [|exact H]. intros r v [= <-]. apply map_tf_flag.
  - cbn [run W fix_stage]. unfold Pure.set_month. writes_tac.
  - apply fix_stage_stable. unfold h_month. dep_tac.
  - intros T T' _ H. cbn [run fix_stage] in H. rewrite set_month_eq in H.
    destruct (has_col "date" T); [|done].
    eapply (derive_establishes _ ["date"]); [unfold h_month; dep_tac|notin_tac|exact H].
  - cbn [run W fix_stage]. unfold Pure.set_day_of_week. writes_tac.
  - apply fix_stage_stable. unfold h_dow. dep_tac.
  - intros T T' _ H. cbn [run fix_stage] in H. rewrite set_day_of_week_eq in H.
    destruct (has_col "date" T); [|done].
    eapply (derive_establishes _ ["date"]); [unfold h_dow; dep_tac|notin_tac|exact H].
  - cbn [run W fix_stage]. unfold Pure.set_is_weekend. writes_tac.
  - apply fix_stage_stable. unfold h_weekend. dep_tac.
  - intros T T' _ H. cbn [run fix_stage] in H. rewrite set_is_weekend_eq in H.
    destruct (has_col "day_of_week" T); [|done].
    eapply (derive_establishes _ ["day_of_week"]);
      [unfold h_weekend; dep_tac|notin_tac|exact H].
  - apply writes_rows. intros T T' [= <-]. split; [done|]. apply filter_sublist.
  - apply undated_stable.
  - intros T T' _ [= <-]. cbn [Inv stage_undated dropna rows].
    eapply Forall_impl; [apply filter_Forall|]. intros r Hr. cbn in Hr.
    rewrite andb_true_r in Hr. by apply negb_true_iff.
Qed.

Lemma clean_calendar_invariants env T0 T :
  Pure.clean_calendar env T0 = Ok T →
  Forall (λ s, Inv s T) (calendar_stages env).
Proof.
  rewrite clean_calendar_stages. intros H.
  apply (staged_invariants [] (calendar_stages env) T0 T); try done.
  apply calendar_staged.
Qed.

Lemma key_eq_int a b : key_eq (VInt a) (VInt b) = (a =? b)%Z.
Proof.
  unfold key_eq, py_eq. cbn. destruct (Z.eqb_spec a b) as [->|Hne].
  - apply Qeq_bool_iff. reflexivity.
  - apply not_true_is_false. intros H%Qeq_bool_iff. unfold Qeq in H. cbn in H. lia.
Qed.

(** A row of a cleaned calendar. *)
Definition calendar_row (r : row) : Prop :=
  ∃ d p, cell "date" r = VDate d
         ∧ cell "price" r = VFloat p
         ∧ is_flag (cell "available" r) = true
         ∧ cell "month" r = VInt (month_of_day d)
         ∧ cell "day_of_week" r = VInt (dayofweek d)
         ∧ cell "is_weekend" r = VBool ((dayofweek d =? 4)%Z || (dayofweek d =? 5)%Z).

Lemma clean_calendar_rows env T0 T :
  Pure.clean_calendar env T0 = Ok T → Forall calendar_row (rows T).
Proof.
  intros H. apply clean_calendar_invariants in H. unfold calendar_stages in H.
  repeat match goal with
         | H : Forall _ (_ :: _) |- _ => apply Forall_cons in H as [? H]
         end.
  repeat match goal with
         | H : Inv _ T |- _ => cbn [Inv value_stage fix_stage stage_undated] in H
         end.
  match goal with H : Inv stage_price T |- _ => destruct H as [_ Hprice] end.
  repeat match goal with H : _ ∧ _ |- _ => destruct H as [_ H] end.
  apply Forall_forall. intros r Hr.
  repeat match goal with
         | H : Forall _ (rows T) |- _ => eapply Forall_forall in H; [|exact Hr]
         end.
  destruct Hprice as (v & Hv & Hp). unfold h_price in Hv.
  apply PriceFacts.clean_price_idem in Hv as Hv'.
  apply PriceFacts.clean_price_returns in Hv as (p & -> & _).
  repeat match goal with H : Fix _ _ r |- _ => apply Fix_cell in H end.
  unfold h_month, h_dow, h_weekend in *.
  destruct (cell "date" r) as [[| |q]|z|s|b|l|d] eqn:Hd; try done.
  exists d, p. split; [done|]. split; [unfold cell; by rewrite Hp|]. split; [done|].
  cbn in *.
  repeat match goal with H : Ok _ = Ok _ |- _ => injection H as H end.
  match goal with H : VInt (month_of_day d) = _ |- _ => rewrite <- H end.
  match goal with H : VInt (dayofweek d) = _ |- _ => rewrite <- H in * end.
  split; [done|]. split; [done|].
  match goal with H : isin _ _ = _ |- _ => rewrite <- H end.
  unfold isin. cbn [existsb]. by rewrite !key_eq_int, orb_false_r.
Qed.

Lemma zip_with_insert_const c v (rs : list row) :
  zip_with (λ (r : row) w, <[c := w]> r) rs (map (λ _, v) rs)
  = map (λ r, <[c := v]> r) rs.
Proof. induction rs as [|r rs IH]; cbn; [done|]. by rewrite IH. Qed.

(** The cleaned calendar, cleaned again: the column [available] is lost. *)
Lemma clean_calendar_again env T0 T1 :
  Pure.clean_calendar env T0 = Ok T1 →
  Pure.clean_calendar env T1
  = Ok {| columns := columns T1;
          rows := map (λ r, <["available" := NaN]> r) (rows T1) |}.
Proof.
  intros H. apply clean_calendar_invariants in H. unfold calendar_stages in H.
  repeat match goal with
         | H : Forall _ (_ :: _) |- _ => apply Forall_cons in H as [? H]
         end.
  clear H.
  match goal with H : Inv (value_stage (Pure.parse_dates env) _ _) T1 |- _ =>
    destruct H as [Hdate Hdates] end.
  match goal with H : Inv stage_price T1 |- _ => rename H into Hprice end.
  match goal with H : Inv (value_stage Pure.set_available _ _) T1 |- _ =>
    destruct H as [Hav Hflags] end.
  match goal with H : Inv (fix_stage Pure.set_month _ _ _) T1 |- _ =>
    rename H into Hmonth end.
  match goal with H : Inv (fix_stage Pure.set_day_of_week _ _ _) T1 |- _ =>
    rename H into Hdow end.
  match goal with H : Inv (fix_stage Pure.set_is_weekend _ _ _) T1 |- _ =>
    rename H into Hwe end.
  match goal with H : Inv stage_undated T1 |- _ => rename H into Hna end.
  set (T2 := {| columns := columns T1;
                rows := map (λ r, <["available" := NaN]> r) (rows T1) |}).
  assert (Hset : Pure.set_available T1 = Ok T2).
  { rewrite set_available_eq, Hav. unfold derive, h_available. rewrite mapR_pure. cbn.
    f_equal. unfold df_set, T2. rewrite Hav. f_equal.
    rewrite <- zip_with_insert_const. f_equal. apply map_ext_in.
    intros r Hr. apply list_elem_of_In in Hr.
    eapply Forall_forall in Hflags; [|exact Hr]. cbn in Hflags.
    by destruct (cell "available" r) as [[| |]| | | | |]. }
  assert (Hw : writes ["available"] Pure.set_available).
  { unfold Pure.set_available. apply writes_load; intros ?.
    apply writes_lift; intros ?. apply writes_set. by left. }
  assert (Hmonth2 : Inv (fix_stage Pure.set_month "month" ["date"] h_month) T2).
  { assert (Hdep : dep ["date"] h_month) by (unfold h_month; dep_tac).
    eapply (fix_stage_stable Pure.set_month "month" ["date"] h_month Hdep);
      [exact Hw| |exact Hset|exact Hmonth]. disjoint_tac. }
  assert (Hdow2 : Inv (fix_stage Pure.set_day_of_week "day_of_week" ["date"] h_dow) T2).
  { assert (Hdep : dep ["date"] h_dow) by (unfold h_dow; dep_tac).
    eapply (fix_stage_stable Pure.set_day_of_week "day_of_week" ["date"] h_dow Hdep);
      [exact Hw| |exact Hset|exact Hdow]. disjoint_tac. }
  assert (Hwe2 : Inv (fix_stage Pure.set_is_weekend "is_weekend" ["day_of_week"]
                        h_weekend) T2).
  { assert (Hdep : dep ["day_of_week"] h_weekend) by (unfold h_weekend; dep_tac).
    eapply (fix_stage_stable Pure.set_is_weekend "is_weekend" ["day_of_week"]
              h_weekend Hdep);
      [exact Hw| |exact Hset|exact Hwe]. disjoint_tac. }
  assert (Hna2 : Inv stage_undated T2).
  { eapply undated_stable; [exact Hw| |exact Hset|exact Hna]. disjoint_tac. }
  destruct Hmonth2 as [Hc3 Hf3]. destruct Hdow2 as [Hc4 Hf4]. destruct Hwe2 as [Hc5 Hf5].
  assert (Hdate2 : has_col "date" T2 = true) by exact Hdate.
  unfold Pure.clean_calendar.
  rewrite parse_dates_eq, Hdate.
  assert (is_datetime (map (cell "date") (rows T1)) = true) as ->.
  { unfold is_datetime. apply forallb_forall. intros v Hv.
    apply in_map_iff in Hv as (r & <- & Hr). apply list_elem_of_In in Hr.
    eapply Forall_forall in Hdates; [|exact Hr]. exact Hdates. }
  cbn [mbind result_mbind result_bind].
  rewrite (price_fix T1 Hprice). cbn [mbind result_mbind result_bind].
  rewrite Hset. cbn [mbind result_mbind result_bind].
  rewrite set_month_eq, Hdate2, (derive_id _ _ _ Hc3 Hf3).
  cbn [mbind result_mbind result_bind].
  rewrite set_day_of_week_eq, Hdate2, (derive_id _ _ _ Hc4 Hf4).
  cbn [mbind result_mbind result_bind].
  rewrite set_is_weekend_eq, Hc4, (derive_id _ _ _ Hc5 Hf5).
  cbn [mbind result_mbind result_bind].
  f_equal. unfold dropna. rewrite filter_all; [by rewrite frame_eta|].
  eapply Forall_impl; [exact Hna2|]. intros r Hr. cbn. by rewrite Hr.
Qed.

(** *** [add_calculated_fields] on its own *)

(** The steps of [add_calculated_fields] after the price per person. *)
Definition after_price_per_person (env : Env) : stepF :=
  seqF set_revenue
    (seqF (set_review_recency env)
       (seqF (set_flag "host_is_superhost" "is_superhost")
          (seqF (set_flag "instant_bookable" "is_instant_bookable") retF))).

Lemma after_price_per_person_writes env :
  writes listing_targets (after_price_per_person env).
Proof.
  unfold after_price_per_person, set_revenue, set_review_recency, set_flag,
    listing_targets.
  repeat first
    [ apply writes_seq
    | apply writes_when
    | apply writes_load; intros ?
    | apply writes_lift; intros ?
    | apply writes_ret
    | apply writes_set; in_tac ].
Qed.

Lemma add_calculated_fields_adds env T T' :
  Pure.add_calculated_fields env T = Ok T' →
  has_col "accommodates" T = true → has_col "price_per_person" T' = true.
Proof.
  intros H Hacc.
  change (seqF set_price_per_person (after_price_per_person env) T = Ok T') in H.
  unfold seqF in H. destruct (set_price_per_person T) as [T1|] eqn:E1; [|done].
  cbn [mbind result_mbind result_bind] in H.
  eapply (col_mono _ _ _ T1 T' (after_price_per_person_writes env) H).
  unfold set_price_per_person, when_colF in E1. rewrite Hacc in E1.
  unfold loadF, liftF, setF in E1.
  destruct (df_col "price" T); [|done].
  cbn [mbind result_mbind result_bind] in E1.
  destruct (df_col "accommodates" T); [|done].
  cbn [mbind result_mbind result_bind] in E1.
  destruct (zipR _ _ _); [|done].
  cbn [mbind result_mbind result_bind] in E1. injection E1 as <-.
  apply has_col_df_set_new.
Qed.

End CleanerFacts.
(** ** More of the analyzers *)

Module AnalyzerFacts.
Import Pure FrameFacts StoreFacts AnalysisFacts.

(** *** Code that reads the store only *)

Definition readonly {A} (m : M A) : Prop := ∀ σ, (m σ).2 = σ.

Lemma readonly_ret {A} (a : A) : readonly (mret a).
Proof. by intros σ. Qed.

Lemma readonly_lift {A} (r : result A) : readonly (lift r).
Proof. by intros σ. Qed.

Lemma readonly_load l : readonly (load l).
Proof. intros σ. unfold load. by destruct (σ !! l). Qed.

Lemma readonly_bind {A B} (m : M A) (k : A → M B) :
  readonly m → (∀ a, readonly (k a)) → readonly (m ≫= k).
Proof.
  intros Hm Hk σ. unfold mbind, M_mbind. specialize (Hm σ).
  destruct (m σ) as [[a|e] σ']; cbn in Hm; subst; [apply Hk | done].
Qed.

Lemma readonly_if {A} (b : bool) (m1 m2 : M A) :
  readonly m1 → readonly m2 → readonly (if b then m1 else m2).
Proof. by destruct b. Qed.

Ltac readonly_tac :=
  repeat first
    [ apply readonly_ret
    | apply readonly_lift
    | apply readonly_load
    | apply readonly_if
    | apply readonly_bind; [|intros ?] ].

Lemma superhost_premium_readonly self :
  readonly (Competitive.get_superhost_premium self).
Proof. unfold Competitive.get_superhost_premium. readonly_tac. Qed.

Lemma market_concentration_readonly self :
  readonly (MarketOverview.get_market_concentration self).
Proof. unfold MarketOverview.get_market_concentration. readonly_tac. Qed.

Lemma price_by_month_readonly env self :
  readonly (Seasonality.get_price_by_month env self).
Proof. unfold Seasonality.get_price_by_month. readonly_tac. Qed.

Lemma peak_season_readonly env self :
  readonly (Seasonality.identify_peak_season env self).
Proof.
  unfold Seasonality.identify_peak_season.
  apply readonly_bind; [apply price_by_month_readonly|]. intros ?. readonly_tac.
Qed.

Lemma weekend_pricing_readonly self :
  readonly (Seasonality.get_weekend_vs_weekday_pricing self).
Proof. unfold Seasonality.get_weekend_vs_weekday_pricing. readonly_tac. Qed.

(** *** [segment_by_price] and [add_segments_to_df] *)

Lemma segment_by_price_frame D self σ T :
  σ !! Competitive.self_df self = Some T →
  runs D (Competitive.segment_by_price self) σ
    (Pure.add_segments (Competitive._segments self) T
     ≫= summarise (Competitive._segments self))
    (λ b a _, b = a).
Proof.
  intros HT. unfold Competitive.segment_by_price.
  change (Pure.add_segments ?s T ≫= ?f)
    with (Ok T ≫= (λ T0, Pure.add_segments s T0 ≫= f)).
  eapply runs_bind; [by apply copy_runs|]. intros ? l1 σ1 [= <-] [Hl1 HT1].
  eapply runs_bind.
  { apply (λ H, H σ1 T Hl1 HT1).
    unfold Pure.add_segments, Competitive._assign_segment. inplace_tac. }
  intros T2 [] σ2 _ HT2. cbn beta.
  apply runs_load_bind with (T := T2); [done|].
  unfold summarise.
  eapply runs_bind; [apply runs_lift_eq|]. intros ? ? ? _ [<- ->].
  eapply runs_bind; [apply runs_lift_eq|]. intros ? ? ? _ [<- ->].
  cbn zeta.
  eapply runs_bind; [apply runs_lift_eq|]. intros ? ? ? _ [<- ->].
  by apply runs_ret.
Qed.

(** The labels [scan] can return. *)
Lemma scan_label segs v l :
  Competitive.scan segs v = Ok l →
  l = "Other" ∨ l ∈ map (λ s : string * Segment, seg_label s.2) segs.
Proof.
  induction segs as [|[n b] segs IH]; cbn.
  - intros [= <-]. by left.
  - destruct (to_float v) as [p|]; [|done]. cbn.
    destruct (_ && _).
    + intros [= <-]. right. by left.
    + intros H. destruct (IH H) as [?|?]; [by left|]. right. by right.
Qed.

Lemma scan_text n b segs s :
  Competitive.scan ((n, b) :: segs) (VStr s) = Raise TypeError.
Proof. done. Qed.

End AnalyzerFacts.
(** ** Sample data *)

Module Examples.
Import Cleaner.

Definition env0 : Env :=
  {| today := 20000;
     json_loads := λ _, Some (JArr [JStr "Wifi"; JStr "Kitchen"]);
     strptime := λ _, Some 19990;
     repr_json := λ _, "?";
     fsqrt := λ x, x |}.

Definition cfg0 : Config :=
  {| price_min := of_Z 10; price_max := of_Z 1000; min_reviews := of_Z 1;
     segments :=
       [("budget", {| seg_min := of_Z 0; seg_max := of_Z 100; seg_label := "Budget" |});
        ("mid", {| seg_min := of_Z 100; seg_max := of_Z 250; seg_label := "Mid-Range" |});
        ("premium", {| seg_min := of_Z 250; seg_max := of_Z 500; seg_label := "Premium" |})];
     high_season_months := [6; 7]; low_season_months := [1; 2];
     top_neighborhoods := 10 |}.

Definition mk (l : list (string * value)) : row := list_to_map l.

Definition listing (id : Z) (price : string) (reviews avail : Z) (bedrooms : value)
    (superhost : string) : row :=
  mk [("id", VInt id); ("price", VStr price);
      ("latitude", VFloat (fnum (3 # 1))); ("longitude", VFloat (fnum (4 # 1)));
      ("number_of_reviews", VInt reviews); ("availability_365", VInt avail);
      ("bedrooms", bedrooms); ("room_type", VStr "Private room");
      ("accommodates", VInt 2); ("host_is_superhost", VStr superhost);
      ("amenities", VStr "[]"); ("last_review", VStr "2024-01-01");
      ("availability_30", VInt 10)].

(** A raw listing table: a duplicate, a price out of range, an inactive
    listing and an unparseable price. *)
Definition raw : DataFrame :=
  {| columns := ["id"; "price"; "latitude"; "longitude"; "number_of_reviews";
                 "availability_365"; "bedrooms"; "room_type"; "accommodates";
                 "host_is_superhost"; "amenities"; "last_review"; "availability_30"];
     rows := [ listing 1 "$1,000.00" 0 5 NaN "t";
               listing 2 "$99.50" 3 0 (VFloat (fnum 2)) "f";
               listing 2 "$99.50" 3 0 (VFloat (fnum 2)) "f";
               listing 3 "$5" 3 0 (VFloat (fnum 2)) "f";
               listing 4 "$50" 0 0 (VFloat (fnum 2)) "f";
               listing 5 "junk" 5 0 (VFloat (fnum 2)) "f" ] |}.

Definition store0 : heap := {[ 1%positive := raw ]}.

(** A cleaned table of two budget listings of two hosts, neither of them a
    superhost. *)
Definition listed : DataFrame :=
  {| columns := ["id"; "price"; "review_scores_rating"; "number_of_reviews";
                 "host_id"; "is_superhost"];
     rows := [ mk [("id", VInt 1); ("price", VFloat (of_Z 50));
                   ("review_scores_rating", VFloat (fnum (9 # 2)));
                   ("number_of_reviews", VInt 4); ("host_id", VInt 7);
                   ("is_superhost", VBool false)];
               mk [("id", VInt 2); ("price", VFloat (of_Z 80));
                   ("review_scores_rating", NaN);
                   ("number_of_reviews", VInt 1); ("host_id", VInt 8);
                   ("is_superhost", VBool false)] ] |}.

Definition store1 : heap := {[ 1%positive := listed ]}.

Definition competitive0 : Competitive.CompetitiveAnalyzer :=
  {| Competitive.self_df := 1%positive; Competitive.self_config := cfg0 |}.

Definition market0 : MarketOverview.MarketOverviewAnalyzer :=
  {| MarketOverview.self_df := 1%positive; MarketOverview.self_config := cfg0 |}.

(** A cleaned calendar with prices in July only, all of them on weekends. *)
Definition calendar : DataFrame :=
  {| columns := ["listing_id"; "price"; "month"; "is_weekend"];
     rows := [ mk [("listing_id", VInt 1); ("price", VFloat (of_Z 100));
                   ("month", VInt 7); ("is_weekend", VBool true)];
               mk [("listing_id", VInt 1); ("price", VFloat (of_Z 120));
                   ("month", VInt 7); ("is_weekend", VBool true)] ] |}.

(** A raw calendar. *)
Definition raw_calendar : DataFrame :=
  {| columns := ["listing_id"; "date"; "available"; "price"];
     rows := [ mk [("listing_id", VInt 1); ("date", VStr "2024-07-05");
                   ("available", VStr "t"); ("price", VStr "$100.00")];
               mk [("listing_id", VInt 1); ("date", VStr "2024-07-06");
                   ("available", VStr "f"); ("price", VStr "$120.00")] ] |}.

(** The raw tables and the table an analyzer holds. *)
Definition store3 : heap :=
  {[ 1%positive := raw; 2%positive := raw_calendar; 3%positive := listed ]}.

Definition competitive3 : Competitive.CompetitiveAnalyzer :=
  {| Competitive.self_df := 3%positive; Competitive.self_config := cfg0 |}.

Definition store2 : heap := {[ 1%positive := listed; 2%positive := calendar ]}.

Definition seasonality0 : Seasonality.SeasonalityAnalyzer :=
  {| Seasonality.self_listings := 1%positive; Seasonality.self_calendar := 2%positive;
     Seasonality.self_config := cfg0 |}.

(** The summary [segment_by_price] returns for [listed]. *)
Definition summary0 : list (string * row) :=
  Eval vm_compute in
    match (Competitive.segment_by_price competitive0 store1).1 with
    | Ok out => out
    | Raise _ => []
    end.

(** What a run returned, seen through [f]. *)
Definition outcome {A B} (f : A → B) (r : result A * heap) : option B :=
  match r.1 with
  | Ok a => Some (f a)
  | Raise _ => None
  end.

End Examples.
(** ** More sample data *)

Module MoreExamples.
Import Cleaner Examples.

(** The raw listing table with a column [beds] that holds no value. *)
Definition raw_beds : DataFrame :=
  {| columns := columns raw ++ ["beds"];
     rows := map (λ r : row, <["beds" := NaN]> r) (rows raw) |}.

Definition store_beds : heap := {[ 1%positive := raw_beds ]}.

(** A table with ids only. *)
Definition unpriced : DataFrame :=
  {| columns := ["id"]; rows := [ mk [("id", VInt 1)]; mk [("id", VInt 2)] ] |}.

Definition store_unpriced : heap := {[ 1%positive := unpriced ]}.

(** A table with prices; the second listing accommodates nobody. *)
Definition priced : DataFrame :=
  {| columns := ["id"; "price"; "accommodates"];
     rows := [ mk [("id", VInt 1); ("price", VFloat (of_Z 100));
                   ("accommodates", VInt 2)];
               mk [("id", VInt 2); ("price", VFloat (of_Z 80));
                   ("accommodates", VInt 0)] ] |}.

Definition store_priced : heap := {[ 1%positive := priced ]}.

(** An analyzer of the calendar at reference 5. *)
Definition season5 : Seasonality.SeasonalityAnalyzer :=
  {| Seasonality.self_listings := 1%positive; Seasonality.self_calendar := 5%positive;
     Seasonality.self_config := cfg0 |}.

(** Three listings of one host. *)
Definition one_host : DataFrame :=
  {| columns := ["id"; "host_id"];
     rows := [ mk [("id", VInt 1); ("host_id", VInt 7)];
               mk [("id", VInt 2); ("host_id", VInt 7)];
               mk [("id", VInt 3); ("host_id", VInt 7)] ] |}.

Definition store_one_host : heap := {[ 1%positive := one_host ]}.

(** An analyzer of the listing table at reference 6. *)
Definition competitive6 : Competitive.CompetitiveAnalyzer :=
  {| Competitive.self_df := 6%positive; Competitive.self_config := cfg0 |}.

End MoreExamples.
(** * The specification *)

Module Specification.
Import Cleaner PipelineFacts StoreFacts AnalysisFacts Examples.

(** What a run of code that returns a new frame leaves of the store. *)
Lemma runs_frame (m : M loc) σ (r : result DataFrame) :
  (∀ D, runs D m σ r (holds D)) →
  (∀ k, k ∈ dom σ → (m σ).2 !! k = σ !! k)
  ∧ (∀ l, (m σ).1 = Ok l →
          (l ∉ dom σ) ∧ ∃ T', r = Ok T' ∧ (m σ).2 !! l = Some T').
Proof.
  intros H. destruct (runs_elim _ _ _ _ _ (H (dom σ))) as (Hfr & _ & Hres & _); [done|].
  split; [done|]. intros l Hl. destruct (Hres l Hl) as (T' & -> & Hnew & HT').
  split; [done|]. eauto.
Qed.

Lemma runs_returns (m : M loc) σ (r : result DataFrame) l :
  (∀ D, runs D m σ r (holds D)) → (m σ).1 = Ok l →
  ∃ T', r = Ok T' ∧ (m σ).2 !! l = Some T'.
Proof. intros H Hl. by apply (runs_frame m σ r H). Qed.

(** ** The cleaning pipeline *)

(** C1. For every raw listing table with the columns id, price, latitude,
    longitude, number_of_reviews and availability_365, every row of the
    table that [clean_listings] returns has an id, a price, a latitude and
    a longitude that are not missing, a price within the configured bounds,
    and at least the configured number of reviews or a positive
    availability_365. *)
Theorem clean_listings_rows env config df σ T l :
  σ !! df = Some T →
  Forall (λ c, has_col c T = true)
    ["id"; "price"; "latitude"; "longitude"; "number_of_reviews"; "availability_365"] →
  (clean_listings env config df σ).1 = Ok l →
  ∃ T', (clean_listings env config df σ).2 !! l = Some T'
        ∧ Forall (clean_row config) (rows T').
Proof.
  intros HT Hcols Hl.
  destruct (runs_returns _ σ _ l
              (λ D, clean_listings_runs env config D df σ T HT) Hl) as (T' & HT' & Hl').
  exists T'. split; [done|]. by eapply clean_listings_clean_rows.
Qed.

Lemma clean_listings_rows_witness :
  ∃ T', (clean_listings env0 cfg0 1%positive store0).2 !! 6%positive = Some T'
        ∧ Forall (clean_row cfg0) (rows T').
Proof.
  apply (clean_listings_rows env0 cfg0 1%positive store0 raw 6%positive).
  - vm_compute. reflexivity.
  - apply FrameFacts.Forall_check. vm_compute. reflexivity.
  - vm_compute. reflexivity.
Defined.

(** C7. [clean_listings] applied to the table it returned returns a table
    with the same rows and the same values: the second run, with the same
    configuration and the same clock and parsers, returns a table equal to
    the first result. *)
Theorem clean_listings_idempotent env config df σ T l :
  σ !! df = Some T →
  (clean_listings env config df σ).1 = Ok l →
  ∃ T1 l2,
    (clean_listings env config df σ).2 !! l = Some T1
    ∧ (clean_listings env config l (clean_listings env config df σ).2).1 = Ok l2
    ∧ (clean_listings env config l (clean_listings env config df σ).2).2 !! l2
      = Some T1.
Proof.
  intros HT Hl.
  destruct (runs_returns _ σ _ l
              (λ D, clean_listings_runs env config D df σ T HT) Hl) as (T1 & HT1 & Hl1).
  pose proof (clean_listings_fixed env config T T1 HT1) as Hfix.
  set (σ1 := (clean_listings env config df σ).2) in *.
  destruct (runs_elim _ _ _ _ _ (clean_listings_runs env config ∅ l σ1 T1 Hl1))
    as (_ & Hret & _ & _); [set_solver|].
  destruct (Hret T1 Hfix) as (l2 & Hl2 & _ & HT2).
  exists T1, l2. done.
Qed.

Lemma clean_listings_idempotent_witness :
  ∃ T1 l2,
    (clean_listings env0 cfg0 1%positive store0).2 !! 6%positive = Some T1
    ∧ (clean_listings env0 cfg0 6%positive
         (clean_listings env0 cfg0 1%positive store0).2).1 = Ok l2
    ∧ (clean_listings env0 cfg0 6%positive
         (clean_listings env0 cfg0 1%positive store0).2).2 !! l2 = Some T1.
Proof.
  apply (clean_listings_idempotent env0 cfg0 1%positive store0 raw 6%positive).
  - vm_compute. reflexivity.
  - vm_compute. reflexivity.
Defined.

(** C8. A call of [clean_listings] or of [clean_calendar] leaves the table
    of the caller, and every other object the caller holds, as it was, and
    returns a new object; [add_segments_to_df] leaves the table of the
    analyzer as it was and returns a new table, which has the column
    [segment]. *)
Theorem transformations_keep_inputs env config self listings calendar σ L C A :
  σ !! listings = Some L → σ !! calendar = Some C →
  σ !! Competitive.self_df self = Some A →
  ((clean_listings env config listings σ).2 !! listings = Some L
   ∧ (∀ k, k ∈ dom σ → (clean_listings env config listings σ).2 !! k = σ !! k)
   ∧ (∀ l, (clean_listings env config listings σ).1 = Ok l → l ∉ dom σ))
  ∧ ((clean_calendar env calendar σ).2 !! calendar = Some C
     ∧ (∀ k, k ∈ dom σ → (clean_calendar env calendar σ).2 !! k = σ !! k)
     ∧ (∀ l, (clean_calendar env calendar σ).1 = Ok l → l ∉ dom σ))
  ∧ ((Competitive.add_segments_to_df self σ).2 !! Competitive.self_df self = Some A
     ∧ (∀ k, k ∈ dom σ → (Competitive.add_segments_to_df self σ).2 !! k = σ !! k)
     ∧ (∀ l, (Competitive.add_segments_to_df self σ).1 = Ok l →
             (l ∉ dom σ)
             ∧ ∃ T', (Competitive.add_segments_to_df self σ).2 !! l = Some T'
                     ∧ has_col "segment" T' = true)).
Proof.
  intros HL HC HA.
  destruct (runs_frame _ σ _ (λ D, clean_listings_runs env config D listings σ L HL))
    as [Hf1 Hr1].
  destruct (runs_frame _ σ _ (λ D, clean_calendar_runs env D calendar σ C HC))
    as [Hf2 Hr2].
  destruct (runs_frame _ σ _ (λ D, add_segments_to_df_runs D self σ A HA))
    as [Hf3 Hr3].
  split; [|split]; (split; [|split; [done|]]).
  - rewrite Hf1, HL; [done|]. by apply elem_of_dom.
  - intros l Hl. by apply Hr1.
  - rewrite Hf2, HC; [done|]. by apply elem_of_dom.
  - intros l Hl. by apply Hr2.
  - rewrite Hf3, HA; [done|]. by apply elem_of_dom.
  - intros l Hl. destruct (Hr3 l Hl) as (Hnew & T' & HT' & Hl').
    split; [done|]. exists T'. split; [done|].
    apply add_segments_Ok in HT' as (labels & _ & -> & _).
    apply has_col_df_set_new.
Qed.

Lemma transformations_keep_inputs_witness :
  (clean_listings env0 cfg0 1%positive store3).2 !! 1%positive = Some raw
  ∧ (clean_calendar env0 2%positive store3).2 !! 2%positive = Some raw_calendar
  ∧ (Competitive.add_segments_to_df competitive3 store3).2 !! 3%positive = Some listed.
Proof.
  destruct (transformations_keep_inputs env0 cfg0 competitive3 1%positive 2%positive
              store3 raw raw_calendar listed)
    as ((H1 & _) & (H2 & _) & (H3 & _)); [vm_compute; reflexivity..|].
  exact (conj H1 (conj H2 H3)).
Defined.


(** ** Price segments *)

(** C3. [_assign_segment] returns a label for every price that is a number
    or missing: the label of the first declared tier with
    [min <= price < max], and ["Other"] when no tier holds the price, as for
    a missing price; a price equal to the [max] of a tier is not in that
    tier, and is in the next tier when that one starts at this value. *)
Theorem assign_segment_first_match self price p :
  to_float price = Ok p →
  (∃ label, Competitive._assign_segment self price = Ok label)
  ∧ (∀ pre name tier post,
       Competitive._segments self = pre ++ (name, tier) :: post →
       Forall (λ s, in_tier s.2 p = false) pre → in_tier tier p = true →
       Competitive._assign_segment self price = Ok (seg_label tier))
  ∧ (Forall (λ s, in_tier s.2 p = false) (Competitive._segments self) →
     Competitive._assign_segment self price = Ok "Other")
  ∧ (p = fnan → Competitive._assign_segment self price = Ok "Other")
  ∧ (∀ pre name1 tier1 name2 tier2 post,
       Competitive._segments self = pre ++ (name1, tier1) :: (name2, tier2) :: post →
       Forall (λ s, in_tier s.2 p = false) pre →
       seg_max tier1 = p → seg_min tier2 = p → flt p (seg_max tier2) = true →
       in_tier tier1 p = false
       ∧ Competitive._assign_segment self price = Ok (seg_label tier2)).
Proof.
  intros Hp. unfold Competitive._assign_segment.
  split; [by eapply scan_total|]. split; [|split; [|split]].
  - intros pre name tier post -> Hpre Htier. by eapply scan_first.
  - intros Hall. by eapply scan_other.
  - intros ->. eapply scan_other; [done|].
    apply Forall_forall. intros s _. apply in_tier_nan.
  - intros pre name1 tier1 name2 tier2 post -> Hpre Hmax Hmin Hlt.
    assert (H1 : in_tier tier1 p = false).
    { unfold in_tier. rewrite Hmax, flt_irrefl. apply andb_false_r. }
    split; [done|].
    change (pre ++ (name1, tier1) :: (name2, tier2) :: post)
      with (pre ++ [(name1, tier1)] ++ (name2, tier2) :: post).
    rewrite app_assoc. eapply scan_first; [done| |].
    + apply Forall_app. split; [done|]. by constructor.
    + unfold in_tier. rewrite Hmin, Hlt. by rewrite (flt_fle_refl p (seg_max tier2)).
Qed.

Lemma assign_segment_first_match_witness :
  in_tier {| seg_min := of_Z 0; seg_max := of_Z 100; seg_label := "Budget" |}
          (of_Z 100) = false
  ∧ Competitive._assign_segment competitive0 (VInt 100) = Ok "Mid-Range".
Proof.
  destruct (assign_segment_first_match competitive0 (VInt 100) (of_Z 100) eq_refl)
    as (_ & _ & _ & _ & H).
  apply (H [] "budget" _ "mid"
           {| seg_min := of_Z 100; seg_max := of_Z 250; seg_label := "Mid-Range" |}
           [("premium", {| seg_min := of_Z 250; seg_max := of_Z 500;
                           seg_label := "Premium" |})]).
  - reflexivity.
  - constructor.
  - reflexivity.
  - reflexivity.
  - reflexivity.
Defined.

(** C4. The summary of [segment_by_price] lists, in the order of their
    declaration, the declared labels that at least one listing has: a
    declared segment without listings has no row in it. *)
Theorem segment_by_price_labels self σ T out :
  σ !! Competitive.self_df self = Some T →
  (Competitive.segment_by_price self σ).1 = Ok out →
  ∃ labels,
    mapR (Competitive._assign_segment self) (map (cell "price") (rows T)) = Ok labels
    ∧ map fst out
      = List.filter (λ o, bool_decide (o ∈ labels))
          (map (λ s, seg_label s.2) (Competitive._segments self)).
Proof.
  intros HT Hout.
  rewrite (runs_result _ _ _ (segment_by_price_runs self σ T HT)) in Hout.
  destruct (Pure.add_segments (Competitive._segments self) T) as [T'|] eqn:E; [|done].
  apply add_segments_Ok in E as (labels & Hl & _ & Hcol).
  exists labels. split; [done|]. by eapply summarise_labels.
Qed.

Lemma segment_by_price_labels_witness :
  ∃ labels,
    mapR (Competitive._assign_segment competitive0) (map (cell "price") (rows listed))
    = Ok labels
    ∧ map fst summary0
      = List.filter (λ o, bool_decide (o ∈ labels))
          (map (λ s, seg_label s.2) (Competitive._segments competitive0)).
Proof.
  apply (segment_by_price_labels competitive0 store1 listed summary0).
  - vm_compute. reflexivity.
  - vm_compute. reflexivity.
Defined.

(** The tiers Mid-Range and Premium are declared and hold no listing of the
    table: the summary has the row of Budget only. *)
Lemma segment_by_price_omits_empty_tiers :
  map (λ s : string * Segment, seg_label s.2) (Competitive._segments competitive0)
  = ["Budget"; "Mid-Range"; "Premium"]
  ∧ outcome (map fst) (Competitive.segment_by_price competitive0 store1)
    = Some ["Budget"].
Proof. split; vm_compute; reflexivity. Qed.

(** ** Market concentration *)

(** C5. The [hhi] of [get_market_concentration] is the sum over the hosts of
    the square of the host's share in percent, the share being the number of
    the host's listings divided by the number of listings, times 100; with
    two hosts of 50 percent each it is 5000. *)
Theorem market_concentration_hhi self σ T :
  σ !! MarketOverview.self_df self = Some T → has_col "host_id" T = true →
  ∃ out q,
    MarketOverview.get_market_concentration self σ = (Ok out, σ)
    ∧ out !! "hhi" = Some (VFloat (fnum q))
    ∧ (q == Qsum (map (λ h, share_pct T h * share_pct T h) (hosts T)))%Q
    ∧ (∀ h1 h2, hosts T = [h1; h2] →
                (share_pct T h1 == 50)%Q → (share_pct T h2 == 50)%Q →
                q = 5000%Q).
Proof.
  intros HT Hh.
  destruct (market_concentration_returns self σ T HT Hh) as (out & Hout & Hhhi).
  destruct (hhi_formula T) as (q & Hq & Hred & Heq).
  exists out, q. split; [done|]. split; [by rewrite Hhhi, Hq|]. split; [done|].
  intros h1 h2 Hhosts H1 H2. rewrite <- Hred.
  change 5000%Q with (Qred 5000%Q). apply Qred_complete.
  rewrite Heq, Hhosts. cbn [map Qsum fold_right]. rewrite H1, H2. ring.
Qed.

Lemma market_concentration_hhi_witness :
  ∃ out,
    MarketOverview.get_market_concentration market0 store1 = (Ok out, store1)
    ∧ out !! "hhi" = Some (VFloat (of_Z 5000)).
Proof.
  destruct (market_concentration_hhi market0 store1 listed)
    as (out & q & Hout & Hhhi & _ & Htwo); [vm_compute; reflexivity..|].
  exists out. split; [exact Hout|]. rewrite Hhhi.
  rewrite (Htwo (VInt 7) (VInt 8)); [reflexivity|vm_compute; reflexivity..].
Defined.

(** ** Superhost premium *)

(** C9. For a listing table with the column [is_superhost] in which no
    listing is a superhost, or none is a regular host,
    [get_superhost_premium] returns the note of insufficient data, which
    holds no price premium. *)
Theorem superhost_premium_insufficient self σ T :
  σ !! Competitive.self_df self = Some T →
  Forall (λ c, has_col c T = true)
    ["is_superhost"; "price"; "review_scores_rating"; "number_of_reviews"; "id"] →
  Forall (λ c, numeric_col c (rows T))
    ["price"; "review_scores_rating"; "number_of_reviews"] →
  Forall (λ r, key_eq (VBool true) (cell "is_superhost" r) = false) (rows T)
  ∨ Forall (λ r, key_eq (VBool false) (cell "is_superhost" r) = false) (rows T) →
  Competitive.get_superhost_premium self σ
  = (Ok {[ "note" := VStr Competitive.insufficient ]}, σ)
  ∧ ({[ "note" := VStr Competitive.insufficient ]} : gmap string value)
      !! "price_premium_pct" = None.
Proof.
  intros HT Hcols Hnum Habs. split; [|done].
  repeat match goal with
         | H : Forall _ (_ :: _) |- _ => apply Forall_cons in H as [? H]
         end.
  destruct (superhost_premium_returns self σ T) as (out & Hout & Hnote & _); try done.
  rewrite Hout. rewrite Hnote; [done|].
  unfold group_missing. cbn zeta.
  destruct Habs as [Habs|Habs]; rewrite (group_missing_absent T _ Habs); cbn.
  - done.
  - apply orb_true_r.
Qed.

Lemma superhost_premium_insufficient_witness :
  Competitive.get_superhost_premium competitive0 store1
  = (Ok {[ "note" := VStr Competitive.insufficient ]}, store1)
  ∧ ({[ "note" := VStr Competitive.insufficient ]} : gmap string value)
      !! "price_premium_pct" = None.
Proof.
  apply (superhost_premium_insufficient competitive0 store1 listed).
  - vm_compute. reflexivity.
  - apply FrameFacts.Forall_check. vm_compute. reflexivity.
  - repeat (apply List.Forall_cons;
            [apply FrameFacts.Forall_check; vm_compute; reflexivity|]).
    apply List.Forall_nil.
  - left. apply FrameFacts.Forall_check_false. vm_compute. reflexivity.
Defined.

(** C10. For a listing table without the column [is_superhost],
    [get_superhost_premium] returns the empty mapping, which is not the note
    of insufficient data; with the column, what it returns is never empty:
    it is the note or holds a price premium. *)
Theorem superhost_premium_no_column self σ T :
  σ !! Competitive.self_df self = Some T → has_col "is_superhost" T = false →
  Competitive.get_superhost_premium self σ = (Ok ∅, σ)
  ∧ (∅ : gmap string value) ≠ {[ "note" := VStr Competitive.insufficient ]}
  ∧ (∀ self' σ1 T' out σ2,
       σ1 !! Competitive.self_df self' = Some T' → has_col "is_superhost" T' = true →
       Competitive.get_superhost_premium self' σ1 = (Ok out, σ2) →
       out ≠ ∅
       ∧ (out = {[ "note" := VStr Competitive.insufficient ]}
          ∨ is_Some (out !! "price_premium_pct"))).
Proof.
  intros HT Hno. split; [|split].
  - unfold Competitive.get_superhost_premium.
    rewrite (bind_load _ _ σ T HT). by rewrite Hno.
  - intros H. apply (f_equal (λ m : gmap string value, m !! "note")) in H.
    by rewrite lookup_empty, lookup_singleton_eq in H.
  - intros self' σ1 T' out σ2 HT' Hsh Hout.
    pose proof (superhost_premium_outcomes self' σ1 T' out σ2 HT' Hsh Hout) as Hcases.
    split; [|done]. intros ->. destruct Hcases as [H|[v H]].
    + apply (f_equal (λ m : gmap string value, m !! "note")) in H.
      by rewrite lookup_empty, lookup_singleton_eq in H.
    + by rewrite lookup_empty in H.
Qed.

Lemma superhost_premium_no_column_witness :
  Competitive.get_superhost_premium competitive0 store0 = (Ok ∅, store0).
Proof.
  apply (superhost_premium_no_column competitive0 store0 raw).
  - vm_compute. reflexivity.
  - vm_compute. reflexivity.
Defined.

(** ** Seasonal and weekend premiums *)

(** C2. For a calendar with numeric prices, [identify_peak_season] and
    [get_weekend_vs_weekday_pricing] return a result; the premium is [0]
    when the low-season mean, or the weekday mean, is zero, and is NaN, not
    [0], when that mean is undefined. *)
Theorem premium_of_degenerate_mean env self σ T :
  σ !! Seasonality.self_calendar self = Some T →
  Forall (λ c, has_col c T = true) ["price"; "month"; "is_weekend"] →
  numeric_col "price" (rows T) →
  Forall (λ r, ∃ b, cell "is_weekend" r = VBool b) (rows T) →
  (∃ ps, Seasonality.identify_peak_season env self σ = (Ok ps, σ)
         ∧ (∀ q, Seasonality.low_season_avg_price ps = fnum q → (q == 0)%Q →
                 Seasonality.seasonal_premium_pct ps = VInt 0)
         ∧ (Seasonality.low_season_avg_price ps = fnan →
            Seasonality.seasonal_premium_pct ps = NaN))
  ∧ (∃ wp, Seasonality.get_weekend_vs_weekday_pricing self σ = (Ok wp, σ)
           ∧ (∀ q, Seasonality.weekday_avg wp = fnum q → (q == 0)%Q →
                   Seasonality.weekend_premium_pct wp = VInt 0)
           ∧ (Seasonality.weekday_avg wp = fnan →
              Seasonality.weekend_premium_pct wp = NaN)).
Proof.
  intros HT Hcols Hnum Hbool.
  repeat match goal with
         | H : Forall _ (_ :: _) |- _ => apply Forall_cons in H as [? H]
         end.
  split.
  - destruct (peak_season_returns env self σ T) as (ps & Hps & Hprem); try done.
    exists ps. split; [done|]. rewrite Hprem. split.
    + intros q -> Hq. by apply premium_of_zero.
    + intros ->. apply premium_of_nan.
  - destruct (weekend_pricing_returns self σ T) as (wp & Hwp & Hprem); try done.
    exists wp. split; [done|]. rewrite Hprem. split.
    + intros q -> Hq. by apply premium_of_zero.
    + intros ->. apply premium_of_nan.
Qed.

Lemma premium_of_degenerate_mean_witness :
  (∃ ps, Seasonality.identify_peak_season env0 seasonality0 store2 = (Ok ps, store2)
         ∧ (∀ q, Seasonality.low_season_avg_price ps = fnum q → (q == 0)%Q →
                 Seasonality.seasonal_premium_pct ps = VInt 0)
         ∧ (Seasonality.low_season_avg_price ps = fnan →
            Seasonality.seasonal_premium_pct ps = NaN))
  ∧ (∃ wp, Seasonality.get_weekend_vs_weekday_pricing seasonality0 store2
           = (Ok wp, store2)
           ∧ (∀ q, Seasonality.weekday_avg wp = fnum q → (q == 0)%Q →
                   Seasonality.weekend_premium_pct wp = VInt 0)
           ∧ (Seasonality.weekday_avg wp = fnan →
              Seasonality.weekend_premium_pct wp = NaN)).
Proof.
  apply (premium_of_degenerate_mean env0 seasonality0 store2 calendar).
  - vm_compute. reflexivity.
  - apply FrameFacts.Forall_check. vm_compute. reflexivity.
  - apply FrameFacts.Forall_check. vm_compute. reflexivity.
  - apply FrameFacts.Forall_check_bool. vm_compute. reflexivity.
Defined.

(** The calendar has no price in a low-season month and none on a weekday:
    both means are undefined and both premiums are NaN. *)
Lemma premium_of_undefined_mean_is_nan :
  outcome (λ ps, (Seasonality.low_season_avg_price ps,
                  Seasonality.seasonal_premium_pct ps))
          (Seasonality.identify_peak_season env0 seasonality0 store2)
  = Some (fnan, NaN)
  ∧ outcome (λ wp, (Seasonality.weekday_avg wp, Seasonality.weekend_premium_pct wp))
            (Seasonality.get_weekend_vs_weekday_pricing seasonality0 store2)
    = Some (fnan, NaN).
Proof. split; vm_compute; reflexivity. Qed.

End Specification.
(** * Further properties of the code *)

Module Properties.
Import Cleaner PipelineFacts StoreFacts AnalysisFacts CleanerFacts AnalyzerFacts.
Import Examples MoreExamples.

(** ** The listing pipeline *)

(** X1. Every row of the table [clean_listings] returns comes from a row of
    the raw table, in the order of the raw table, and differs from it only
    in the columns the pipeline assigns; the cleaned table has no more rows
    than the raw one and keeps its columns. *)
Theorem clean_listings_provenance env config df σ T l :
  σ !! df = Some T →
  (clean_listings env config df σ).1 = Ok l →
  ∃ T', (clean_listings env config df σ).2 !! l = Some T'
        ∧ from_rows (λ k, k ∉ listing_written) (rows T') (rows T)
        ∧ (length (rows T') ≤ length (rows T))%nat
        ∧ (∀ c, has_col c T = true → has_col c T' = true).
Proof.
  intros HT Hl.
  destruct (Specification.runs_returns _ σ _ l
              (λ D, clean_listings_runs env config D df σ T HT) Hl) as (T' & HT' & Hl').
  exists T'. split; [done|].
  destruct (clean_listings_writes env config T T' HT') as (Hfrom & Hmono & _).
  split; [done|]. split; [by eapply from_rows_length | done].
Qed.

Lemma clean_listings_provenance_witness :
  ∃ T', (clean_listings env0 cfg0 1%positive store0).2 !! 6%positive = Some T'
        ∧ from_rows (λ k, k ∉ listing_written) (rows T') (rows raw)
        ∧ (length (rows T') ≤ length (rows raw))%nat
        ∧ (∀ c, has_col c raw = true → has_col c T' = true).
Proof.
  apply (clean_listings_provenance env0 cfg0 1%positive store0 raw 6%positive).
  - vm_compute. reflexivity.
  - vm_compute. reflexivity.
Defined.

(** X2. No two rows of the table [clean_listings] returns have the same
    id. *)
Theorem clean_listings_unique_ids env config df σ T l :
  σ !! df = Some T →
  (clean_listings env config df σ).1 = Ok l →
  ∃ T', (clean_listings env config df σ).2 !! l = Some T'
        ∧ ∀ i j r r', (i < j)%nat → rows T' !! i = Some r → rows T' !! j = Some r' →
                      key_eq (cell "id" r') (cell "id" r) = false.
Proof.
  intros HT Hl.
  destruct (Specification.runs_returns _ σ _ l
              (λ D, clean_listings_runs env config D df σ T HT) Hl) as (T' & HT' & Hl').
  exists T'. split; [done|]. intros i j r r'.
  apply nodup_keys_lookup with (seen := []). by eapply clean_listings_nodup.
Qed.

Lemma clean_listings_unique_ids_witness :
  ∃ T', (clean_listings env0 cfg0 1%positive store0).2 !! 6%positive = Some T'
        ∧ ∀ i j r r', (i < j)%nat → rows T' !! i = Some r → rows T' !! j = Some r' →
                      key_eq (cell "id" r') (cell "id" r) = false.
Proof.
  apply (clean_listings_unique_ids env0 cfg0 1%positive store0 raw 6%positive).
  - vm_compute. reflexivity.
  - vm_compute. reflexivity.
Defined.

(** The frame behind the reference [clean_listings] returns. *)
Lemma cleaned env config df σ T l :
  σ !! df = Some T →
  (clean_listings env config df σ).1 = Ok l →
  ∃ T', (clean_listings env config df σ).2 !! l = Some T'
        ∧ Pure.clean_listings env config T = Ok T'.
Proof.
  intros HT Hl.
  destruct (Specification.runs_returns _ σ _ l
              (λ D, clean_listings_runs env config D df σ T HT) Hl) as (T' & HT' & Hl').
  eauto.
Qed.


(** X3. When the raw table has the columns bedrooms and beds (and
    [clean_listings] returns), no row of the cleaned table has a missing
    bedrooms or beds value. *)
Theorem clean_listings_rooms_filled env config df σ T l :
  σ !! df = Some T →
  has_col "bedrooms" T = true → has_col "beds" T = true →
  (clean_listings env config df σ).1 = Ok l →
  ∃ T', (clean_listings env config df σ).2 !! l = Some T'
        ∧ Forall (λ r, isna (cell "bedrooms" r) = false ∧ isna (cell "beds" r) = false)
                 (rows T').
Proof.
  intros HT Hb1 Hb2 Hl. destruct (cleaned env config df σ T l HT Hl) as (T' & Hl' & HT').
  exists T'. split; [done|].
  pose proof (clean_listings_filled env config T T' "bedrooms" ltac:(in_tac) HT' Hb1) as H1.
  pose proof (clean_listings_filled env config T T' "beds" ltac:(in_tac) HT' Hb2) as H2.
  apply Forall_forall. intros r Hr.
  eapply Forall_forall in H1; [|exact Hr]. eapply Forall_forall in H2; [|exact Hr]. done.
Qed.

Lemma clean_listings_rooms_filled_witness :
  ∃ T', (clean_listings env0 cfg0 1%positive store_beds).2 !! 6%positive = Some T'
        ∧ Forall (λ r, isna (cell "bedrooms" r) = false ∧ isna (cell "beds" r) = false)
                 (rows T').
Proof.
  apply (clean_listings_rooms_filled env0 cfg0 1%positive store_beds raw_beds 6%positive).
  - vm_compute. reflexivity.
  - vm_compute. reflexivity.
  - vm_compute. reflexivity.
  - vm_compute. reflexivity.
Defined.





(** X6. When the raw table has the column amenities, every row of the
    cleaned table holds in [amenities_list] the names [parse_amenities]
    reads from its amenities and in [amenity_count] their number; the list
    is empty and the count 0 where amenities is missing. *)
Theorem clean_listings_amenity_columns env config df σ T l :
  σ !! df = Some T → has_col "amenities" T = true →
  (clean_listings env config df σ).1 = Ok l →
  ∃ T', (clean_listings env config df σ).2 !! l = Some T'
        ∧ Forall (λ r, ∃ names,
                     parse_amenities env (cell "amenities" r) = Ok names
                     ∧ cell "amenities_list" r = VList names
                     ∧ cell "amenity_count" r = VInt (Z.of_nat (length names))
                     ∧ (cell "amenities" r = NaN → names = []))
                 (rows T').
Proof.
  intros HT Hc Hl. destruct (cleaned env config df σ T l HT Hl) as (T' & Hl' & HT').
  exists T'. split; [done|].
  pose proof (clean_listings_amenities env config T T' HT' Hc) as H1.
  eapply Forall_impl; [exact H1|]. intros r (names & Hp & Hlist & Hcount).
  exists names. repeat split; try done.
  intros Hna. rewrite Hna in Hp. cbn in Hp. by injection Hp as <-.
Qed.

Lemma clean_listings_amenity_columns_witness :
  ∃ T', (clean_listings env0 cfg0 1%positive store0).2 !! 6%positive = Some T'
        ∧ Forall (λ r, ∃ names,
                     parse_amenities env0 (cell "amenities" r) = Ok names
                     ∧ cell "amenities_list" r = VList names
                     ∧ cell "amenity_count" r = VInt (Z.of_nat (length names))
                     ∧ (cell "amenities" r = NaN → names = []))
                 (rows T').
Proof.
  apply (clean_listings_amenity_columns env0 cfg0 1%positive store0 raw 6%positive).
  - vm_compute. reflexivity.
  - vm_compute. reflexivity.
  - vm_compute. reflexivity.
Defined.



(** X8. When the raw table has the column host_is_superhost (resp.
    instant_bookable), every row of the cleaned table has [is_superhost]
    (resp. [is_instant_bookable]) [True] where the source is the text "t",
    [False] where it is "f", and missing for any other value. *)
Theorem clean_listings_flag_columns env config df σ T l src tgt :
  (src, tgt) ∈ [("host_is_superhost", "is_superhost");
                ("instant_bookable", "is_instant_bookable")] →
  σ !! df = Some T → has_col src T = true →
  (clean_listings env config df σ).1 = Ok l →
  ∃ T', (clean_listings env config df σ).2 !! l = Some T'
        ∧ Forall (λ r, (cell src r = VStr "t" → cell tgt r = VBool true)
                       ∧ (cell src r = VStr "f" → cell tgt r = VBool false)
                       ∧ (cell src r ≠ VStr "t" → cell src r ≠ VStr "f" →
                          cell tgt r = NaN))
                 (rows T').
Proof.
  intros Hin HT Hc Hl.
  destruct (cleaned env config df σ T l HT Hl) as (T' & Hl' & HT').
  exists T'. split; [done|].
  pose proof (clean_listings_flag env config T T' src tgt Hin HT' Hc) as H1.
  eapply Forall_impl; [exact H1|]. intros r ->. repeat split.
  - by intros ->.
  - by intros ->.
  - intros Ht Hf. destruct (cell src r) as [x|z|s|b|names|d]; try done. cbn.
    destruct (String.eqb_spec s "t") as [->|_]; [done|].
    destruct (String.eqb_spec s "f") as [->|_]; done.
Qed.

Lemma clean_listings_flag_columns_witness :
  ∃ T', (clean_listings env0 cfg0 1%positive store0).2 !! 6%positive = Some T'
        ∧ Forall (λ r, (cell "host_is_superhost" r = VStr "t" →
                        cell "is_superhost" r = VBool true)
                       ∧ (cell "host_is_superhost" r = VStr "f" →
                          cell "is_superhost" r = VBool false)
                       ∧ (cell "host_is_superhost" r ≠ VStr "t" →
                          cell "host_is_superhost" r ≠ VStr "f" →
                          cell "is_superhost" r = NaN))
                 (rows T').
Proof.
  apply (clean_listings_flag_columns env0 cfg0 1%positive store0 raw 6%positive
           "host_is_superhost" "is_superhost").
  - apply list_elem_of_here.
  - vm_compute. reflexivity.
  - vm_compute. reflexivity.
  - vm_compute. reflexivity.
Defined.

(** X9. [filter_active_listings] returns a new table holding, in order,
    exactly the rows whose price lies within the configured bounds and that
    have the configured number of reviews or a positive availability_365;
    without the column availability_365 the reviews alone decide.  The
    table passed is left as it was. *)
Theorem filter_active_listings_keeps_exactly config df σ T l :
  σ !! df = Some T →
  (filter_active_listings df config σ).1 = Ok l →
  ∃ T', (filter_active_listings df config σ).2 !! l = Some T'
        ∧ (l ∉ dom σ)
        ∧ (filter_active_listings df config σ).2 !! df = Some T
        ∧ columns T' = columns T
        ∧ rows T'
          = List.filter
              (λ r, in_price_range config r
                    && is_active config (has_col "availability_365" T) r)
              (rows T).
Proof.
  intros HT Hl.
  destruct (Specification.runs_frame _ σ _
              (λ D, filter_active_listings_runs config D df σ T HT)) as [Hfr Hret].
  destruct (Hret l Hl) as (Hnew & T' & HT' & Hl').
  exists T'. split; [done|]. split; [done|].
  split; [rewrite Hfr, HT; [done|by apply elem_of_dom]|].
  by apply filter_active_listings_keeps.
Qed.

Lemma filter_active_listings_keeps_exactly_witness :
  ∃ T', (filter_active_listings 1%positive cfg0 store1).2 !! 3%positive = Some T'
        ∧ (3%positive ∉ dom store1)
        ∧ (filter_active_listings 1%positive cfg0 store1).2 !! 1%positive = Some listed
        ∧ columns T' = columns listed
        ∧ rows T'
          = List.filter
              (λ r, in_price_range cfg0 r
                    && is_active cfg0 (has_col "availability_365" listed) r)
              (rows listed).
Proof.
  apply (filter_active_listings_keeps_exactly cfg0 1%positive store1 listed 3%positive).
  - vm_compute. reflexivity.
  - vm_compute. reflexivity.
Defined.

(** X10. On a table with the column id and without the column price
    [clean_listings] raises [KeyError("price")]; on a table without the
    column date [clean_calendar] raises [KeyError("date")].  In both cases
    the table passed is left as it was. *)
Theorem cleaners_missing_column env config df σ T :
  σ !! df = Some T →
  (has_col "id" T = true → has_col "price" T = false →
   (clean_listings env config df σ).1 = Raise (KeyError "price")
   ∧ (clean_listings env config df σ).2 !! df = Some T)
  ∧ (has_col "date" T = false →
     (clean_calendar env df σ).1 = Raise (KeyError "date")
     ∧ (clean_calendar env df σ).2 !! df = Some T).
Proof.
  intros HT. split.
  - intros Hid Hprice.
    destruct (runs_elim _ _ _ _ _ (clean_listings_runs env config (dom σ) df σ T HT))
      as (Hfr & _ & _ & Herr); [done|].
    split; [|rewrite Hfr, HT; [done|by apply elem_of_dom]].
    apply Herr. unfold Pure.clean_listings, drop_duplicates. rewrite Hid.
    cbn [mbind result_mbind result_bind]. rewrite set_price_eq.
    assert (has_col "price" {| columns := columns T; rows := dedup "id" [] (rows T) |}
            = false) as -> by exact Hprice.
    done.
  - intros Hdate.
    destruct (runs_elim _ _ _ _ _ (clean_calendar_runs env (dom σ) df σ T HT))
      as (Hfr & _ & _ & Herr); [done|].
    split; [|rewrite Hfr, HT; [done|by apply elem_of_dom]].
    apply Herr. unfold Pure.clean_calendar. rewrite parse_dates_eq, Hdate. done.
Qed.

Lemma cleaners_missing_column_witness :
  ((clean_listings env0 cfg0 1%positive store_unpriced).1 = Raise (KeyError "price")
   ∧ (clean_listings env0 cfg0 1%positive store_unpriced).2 !! 1%positive
     = Some unpriced)
  ∧ ((clean_calendar env0 1%positive store_unpriced).1 = Raise (KeyError "date")
     ∧ (clean_calendar env0 1%positive store_unpriced).2 !! 1%positive
       = Some unpriced).
Proof.
  destruct (cleaners_missing_column env0 cfg0 1%positive store_unpriced unpriced)
    as [H1 H2]; [vm_compute; reflexivity|].
  split; [apply H1 | apply H2]; vm_compute; reflexivity.
Defined.

(** X11. [add_calculated_fields] returns the reference it was given and
    assigns the derived columns to that very table: called on its own it
    changes the table of its caller (a table with the column accommodates
    has the column price_per_person afterwards); every other object is left
    as it was. *)
Theorem add_calculated_fields_in_place env df σ T l :
  σ !! df = Some T →
  (add_calculated_fields env df σ).1 = Ok l →
  l = df
  ∧ (∀ k, k ∈ dom σ → k ≠ df → (add_calculated_fields env df σ).2 !! k = σ !! k)
  ∧ ∃ T', Pure.add_calculated_fields env T = Ok T'
          ∧ (add_calculated_fields env df σ).2 !! df = Some T'
          ∧ (has_col "accommodates" T = true → has_col "price_per_person" T' = true).
Proof.
  intros HT Hl.
  assert (Hdf : df ∉ dom σ ∖ {[df]}).
  { intros [_ Hn]%elem_of_difference. apply Hn. by apply elem_of_singleton. }
  destruct (runs_elim _ _ _ _ _
              (add_calculated_fields_returning env (dom σ ∖ {[df]}) df σ T Hdf HT))
    as (Hfr & _ & Hret & _).
  { intros k [Hk _]%elem_of_difference. exact Hk. }
  destruct (Hret l Hl) as (T' & HT' & -> & Hl'). split; [done|]. split.
  - intros k Hk Hne. apply Hfr. apply elem_of_difference. split; [done|].
    intros Hin%elem_of_singleton. done.
  - exists T'. split; [done|]. split; [done|].
    exact (add_calculated_fields_adds env T T' HT').
Qed.

Lemma add_calculated_fields_in_place_witness :
  1%positive = 1%positive
  ∧ (∀ k, k ∈ dom store_priced → k ≠ 1%positive →
          (add_calculated_fields env0 1%positive store_priced).2 !! k
          = store_priced !! k)
  ∧ ∃ T', Pure.add_calculated_fields env0 priced = Ok T'
          ∧ (add_calculated_fields env0 1%positive store_priced).2 !! 1%positive
            = Some T'
          ∧ (has_col "accommodates" priced = true →
             has_col "price_per_person" T' = true).
Proof.
  apply (add_calculated_fields_in_place env0 1%positive store_priced priced 1%positive).
  - vm_compute. reflexivity.
  - vm_compute. reflexivity.
Defined.

End Properties.
(** ** The calendar pipeline and the analyzers that read its output *)

Module CalendarProperties.
Import Cleaner PipelineFacts StoreFacts AnalysisFacts CleanerFacts AnalyzerFacts.
Import Examples MoreExamples.

(** The columns [clean_calendar] leaves in its result. *)
Definition calendar_columns : list string :=
  ["date"; "price"; "available"; "month"; "day_of_week"; "is_weekend"].

Lemma clean_calendar_cols env T0 T :
  Pure.clean_calendar env T0 = Ok T →
  Forall (λ c, has_col c T = true) calendar_columns.
Proof.
  intros H. apply clean_calendar_invariants in H. unfold calendar_stages in H.
  repeat match goal with
         | H : Forall _ (_ :: _) |- _ => apply Forall_cons in H as [? H]
         end.
  repeat match goal with
         | H : Inv _ T |- _ =>
             cbn [Inv value_stage fix_stage stage_price stage_undated] in H
         end.
  repeat match goal with
         | H : has_col _ T = true ∧ _ |- _ => destruct H as [? _]
         end.
  unfold calendar_columns. repeat apply List.Forall_cons; try done.
Qed.

(** The frame behind the reference [clean_calendar] returns. *)
Lemma cleaned_calendar env df σ T l :
  σ !! df = Some T →
  (clean_calendar env df σ).1 = Ok l →
  ∃ T', (clean_calendar env df σ).2 !! l = Some T'
        ∧ Pure.clean_calendar env T = Ok T'.
Proof.
  intros HT Hl.
  destruct (Specification.runs_returns _ σ _ l
              (λ D, clean_calendar_runs env D df σ T HT) Hl) as (T' & HT' & Hl').
  eauto.
Qed.

(** X12. The table [clean_calendar] returns has the columns date, price,
    available, month, day_of_week and is_weekend, and in each of its rows
    the date is a date (never missing), the price is a float (possibly
    NaN), available is True, False or missing, month and day_of_week are
    those of the date, and is_weekend is true exactly on Friday and
    Saturday (day_of_week 4 and 5). *)
Theorem clean_calendar_row_shape env df σ T l :
  σ !! df = Some T →
  (clean_calendar env df σ).1 = Ok l →
  ∃ T', (clean_calendar env df σ).2 !! l = Some T'
        ∧ Forall (λ c, has_col c T' = true) calendar_columns
        ∧ Forall calendar_row (rows T').
Proof.
  intros HT Hl. destruct (cleaned_calendar env df σ T l HT Hl) as (T' & Hl' & HT').
  exists T'. split; [done|]. split.
  - by eapply clean_calendar_cols.
  - by eapply clean_calendar_rows.
Qed.

Lemma clean_calendar_row_shape_witness :
  ∃ T', (clean_calendar env0 2%positive store3).2 !! 5%positive = Some T'
        ∧ Forall (λ c, has_col c T' = true) calendar_columns
        ∧ Forall calendar_row (rows T').
Proof.
  apply (clean_calendar_row_shape env0 2%positive store3 raw_calendar 5%positive).
  - vm_compute. reflexivity.
  - vm_compute. reflexivity.
Defined.

(** X13. [clean_calendar] is not idempotent: applied to the table it
    returned, it returns again, and the new table is the first result with
    every cell of the column available replaced by a missing value (the
    booleans of the first run are no keys of the mapping from t and f);
    all other cells, the columns and the rows are the same. *)
Theorem clean_calendar_twice_loses_available env df σ T l :
  σ !! df = Some T →
  (clean_calendar env df σ).1 = Ok l →
  ∃ T1 l',
    (clean_calendar env df σ).2 !! l = Some T1
    ∧ (clean_calendar env l (clean_calendar env df σ).2).1 = Ok l'
    ∧ (clean_calendar env l (clean_calendar env df σ).2).2 !! l'
      = Some {| columns := columns T1;
                rows := map (λ r, <["available" := NaN]> r) (rows T1) |}
    ∧ (clean_calendar env l (clean_calendar env df σ).2).2 !! l = Some T1.
Proof.
  intros HT Hl. destruct (cleaned_calendar env df σ T l HT Hl) as (T1 & Hl1 & HT1).
  set (σ1 := (clean_calendar env df σ).2) in *.
  pose proof (clean_calendar_again env T T1 HT1) as H2.
  destruct (runs_elim _ _ _ _ _ (clean_calendar_runs env (dom σ1) l σ1 T1 Hl1))
    as (Hfr & Hret & _); [done|].
  destruct (Hret _ H2) as (l' & Hl' & _ & Hnew).
  exists T1, l'. split; [done|]. split; [done|]. split; [done|].
  rewrite Hfr; [done|]. by apply elem_of_dom.
Qed.

Lemma clean_calendar_twice_loses_available_witness :
  ∃ T1 l',
    (clean_calendar env0 2%positive store3).2 !! 5%positive = Some T1
    ∧ (clean_calendar env0 5%positive (clean_calendar env0 2%positive store3).2).1
      = Ok l'
    ∧ (clean_calendar env0 5%positive (clean_calendar env0 2%positive store3).2).2 !! l'
      = Some {| columns := columns T1;
                rows := map (λ r, <["available" := NaN]> r) (rows T1) |}
    ∧ (clean_calendar env0 5%positive (clean_calendar env0 2%positive store3).2).2
        !! 5%positive = Some T1.
Proof.
  apply (clean_calendar_twice_loses_available env0 2%positive store3 raw_calendar
           5%positive).
  - vm_compute. reflexivity.
  - vm_compute. reflexivity.
Defined.

(** X14. The seasonality analyzers accept what [clean_calendar] returns:
    on an analyzer that holds the cleaned calendar, [get_price_by_month],
    [identify_peak_season] and [get_weekend_vs_weekday_pricing] each return
    a result, none raises, and none changes the store. *)
Theorem seasonality_accepts_cleaned_calendar env df σ T l self :
  σ !! df = Some T →
  (clean_calendar env df σ).1 = Ok l →
  Seasonality.self_calendar self = l →
  (∃ pbm, Seasonality.get_price_by_month env self (clean_calendar env df σ).2
          = (Ok pbm, (clean_calendar env df σ).2))
  ∧ (∃ ps, Seasonality.identify_peak_season env self (clean_calendar env df σ).2
           = (Ok ps, (clean_calendar env df σ).2))
  ∧ (∃ wp, Seasonality.get_weekend_vs_weekday_pricing self (clean_calendar env df σ).2
           = (Ok wp, (clean_calendar env df σ).2)).
Proof.
  intros HT Hl Hself.
  destruct (cleaned_calendar env df σ T l HT Hl) as (T' & Hl' & HT').
  set (σ1 := (clean_calendar env df σ).2) in *.
  pose proof (clean_calendar_cols env T T' HT') as Hcols.
  pose proof (clean_calendar_rows env T T' HT') as Hrows.
  unfold calendar_columns in Hcols.
  repeat match goal with
         | H : Forall _ (_ :: _) |- _ => apply Forall_cons in H as [? H]
         end.
  assert (Hnum : numeric_col "price" (rows T')).
  { eapply Forall_impl; [exact Hrows|]. intros r (d & p & _ & -> & _). done. }
  assert (Hbool : Forall (λ r, ∃ b, cell "is_weekend" r = VBool b) (rows T')).
  { eapply Forall_impl; [exact Hrows|].
    intros r (d & p & _ & _ & _ & _ & _ & ->). eauto. }
  rewrite <- Hself in Hl'.
  split; [|split].
  - destruct (price_by_month_returns env self σ1 T') as (pbm & Hpbm & _); try done.
    eauto.
  - destruct (peak_season_returns env self σ1 T') as (ps & Hps & _); try done.
    eauto.
  - destruct (weekend_pricing_returns self σ1 T') as (wp & Hwp & _); try done.
    eauto.
Qed.

Lemma seasonality_accepts_cleaned_calendar_witness :
  (∃ pbm, Seasonality.get_price_by_month env0 season5
            (clean_calendar env0 2%positive store3).2
          = (Ok pbm, (clean_calendar env0 2%positive store3).2))
  ∧ (∃ ps, Seasonality.identify_peak_season env0 season5
             (clean_calendar env0 2%positive store3).2
           = (Ok ps, (clean_calendar env0 2%positive store3).2))
  ∧ (∃ wp, Seasonality.get_weekend_vs_weekday_pricing season5
             (clean_calendar env0 2%positive store3).2
           = (Ok wp, (clean_calendar env0 2%positive store3).2)).
Proof.
  apply (seasonality_accepts_cleaned_calendar env0 2%positive store3 raw_calendar
           5%positive season5).
  - vm_compute. reflexivity.
  - vm_compute. reflexivity.
  - reflexivity.
Defined.

End CalendarProperties.
(** ** The analyzers *)

Module AnalysisProperties.
Import Cleaner PipelineFacts StoreFacts AnalysisFacts CleanerFacts AnalyzerFacts.
Import Examples MoreExamples.

(** X15. The analyzers that only aggregate never write: whatever
    [get_superhost_premium], [get_market_concentration],
    [identify_peak_season] and [get_weekend_vs_weekday_pricing] return or
    raise, the store after the call is the store before it. *)
Theorem analyzers_read_only env (c : Competitive.CompetitiveAnalyzer)
    (m : MarketOverview.MarketOverviewAnalyzer)
    (s : Seasonality.SeasonalityAnalyzer) (σ : heap) :
  (Competitive.get_superhost_premium c σ).2 = σ
  ∧ (MarketOverview.get_market_concentration m σ).2 = σ
  ∧ (Seasonality.identify_peak_season env s σ).2 = σ
  ∧ (Seasonality.get_weekend_vs_weekday_pricing s σ).2 = σ.
Proof.
  split; [apply superhost_premium_readonly|].
  split; [apply market_concentration_readonly|].
  split; [apply peak_season_readonly | apply weekend_pricing_readonly].
Qed.

(** *** Segments *)

(** The labels declared in the configuration of an analyzer. *)
Definition declared_labels (self : Competitive.CompetitiveAnalyzer) : list string :=
  map (λ s : string * Segment, seg_label s.2) (Competitive._segments self).

Lemma add_segments_rows segs T T' :
  Pure.add_segments segs T = Ok T' →
  Forall2 (λ r' r, ∃ s, r' = <["segment" := VStr s]> r
                        ∧ Competitive.scan segs (cell "price" r) = Ok s)
          (rows T') (rows T).
Proof.
  intros H. apply add_segments_Ok in H as (labels & Hl & -> & _).
  rewrite FrameFacts.mapR_map in Hl. apply FrameFacts.mapR_Forall2 in Hl.
  cbn [df_set rows].
  induction Hl as [|r s rs labels Hs _ IH]; cbn; constructor; eauto.
Qed.

Lemma scan_numeric segs v :
  is_numeric v = true → ∃ l, Competitive.scan segs v = Ok l.
Proof.
  intros H. destruct v as [x|z|s|b|l|d]; try done.
  - by apply (scan_total segs _ x).
  - by apply (scan_total segs _ (of_Z z)).
  - by apply (scan_total segs _ (of_Z (if b then 1 else 0))).
Qed.

Lemma scan_not_numeric n b segs v :
  is_numeric v = false → Competitive.scan ((n, b) :: segs) v = Raise TypeError.
Proof. by destruct v as [x|z|s|b'|l|d]. Qed.

Lemma mapR_scan_raises segs vals :
  segs ≠ [] → Exists (λ v, is_numeric v = false) vals →
  mapR (Competitive.scan segs) vals = Raise TypeError.
Proof.
  intros Hs. destruct segs as [|[n b] segs]; [done|]. clear Hs.
  induction vals as [|v vals IH]; intros H.
  - by apply Exists_nil in H.
  - cbn [mapR]. destruct (is_numeric v) eqn:Ev.
    + destruct (scan_numeric ((n, b) :: segs) v Ev) as [l ->].
      apply Exists_cons in H as [H|H]; [congruence|]. by rewrite (IH H).
    + by rewrite (scan_not_numeric n b segs v Ev).
Qed.

Lemma add_segments_returns segs T :
  has_col "price" T = true →
  segs = [] ∨ Forall (λ r, is_numeric (cell "price" r) = true) (rows T) →
  ∃ T', Pure.add_segments segs T = Ok T'.
Proof.
  intros Hc H. unfold Pure.add_segments, Pure.loadF, Pure.liftF, Pure.setF, df_col.
  rewrite Hc. cbn [mbind result_mbind result_bind].
  destruct (mapR_total (Competitive.scan segs) (map (cell "price") (rows T)))
    as [labels ->]; [|cbn; eauto].
  apply Forall_map. destruct H as [->|H].
  - apply Forall_forall. intros r _. cbn. eauto.
  - eapply Forall_impl; [exact H|]. intros r Hr. by apply scan_numeric.
Qed.

(** X16. Every row of the table [add_segments_to_df] returns is the row of
    the analyzer's table at the same position with the cell segment set to
    the label [_assign_segment] gives its price; the label is Other or one
    of the labels declared in the configuration. *)
Theorem add_segments_to_df_rows self σ T l :
  σ !! Competitive.self_df self = Some T →
  (Competitive.add_segments_to_df self σ).1 = Ok l →
  ∃ T', (Competitive.add_segments_to_df self σ).2 !! l = Some T'
        ∧ Forall2 (λ r' r, ∃ s, r' = <["segment" := VStr s]> r
                     ∧ Competitive._assign_segment self (cell "price" r) = Ok s
                     ∧ (s = "Other" ∨ s ∈ declared_labels self))
                  (rows T') (rows T).
Proof.
  intros HT Hl.
  destruct (Specification.runs_returns _ σ _ l
              (λ D, add_segments_to_df_runs D self σ T HT) Hl) as (T' & HT' & Hl').
  exists T'. split; [done|].
  eapply Forall2_impl; [by apply add_segments_rows|].
  intros r' r (s & -> & Hs). exists s. split; [done|]. split; [done|].
  exact (scan_label _ _ _ Hs).
Qed.

Lemma add_segments_to_df_rows_witness :
  ∃ T', (Competitive.add_segments_to_df competitive3 store3).2 !! 4%positive = Some T'
        ∧ Forall2 (λ r' r, ∃ s, r' = <["segment" := VStr s]> r
                     ∧ Competitive._assign_segment competitive3 (cell "price" r) = Ok s
                     ∧ (s = "Other" ∨ s ∈ declared_labels competitive3))
                  (rows T') (rows listed).
Proof.
  apply (add_segments_to_df_rows competitive3 store3 listed 4%positive).
  - vm_compute. reflexivity.
  - vm_compute. reflexivity.
Defined.

(** X17. [add_segments_to_df] accepts what [clean_listings] returns: on an
    analyzer that holds the cleaned table it returns a table, and every row
    of that table carries a segment label, Other or a declared one. *)
Theorem add_segments_to_df_after_cleaning env config df σ T l self :
  σ !! df = Some T →
  (clean_listings env config df σ).1 = Ok l →
  Competitive.self_df self = l →
  ∃ l' T',
    (Competitive.add_segments_to_df self (clean_listings env config df σ).2).1 = Ok l'
    ∧ (Competitive.add_segments_to_df self (clean_listings env config df σ).2).2 !! l'
      = Some T'
    ∧ Forall (λ r, ∃ s, cell "segment" r = VStr s
                        ∧ (s = "Other" ∨ s ∈ declared_labels self)) (rows T').
Proof.
  intros HT Hl Hself.
  destruct (Properties.cleaned env config df σ T l HT Hl) as (T1 & Hl1 & HT1).
  set (σ1 := (clean_listings env config df σ).2) in *.
  rewrite <- Hself in Hl1.
  assert (Hc : has_col "price" T1 = true).
  { pose proof (clean_listings_invariants env config T T1 HT1) as H.
    assert (HI : Inv stage_price T1).
    { eapply Forall_forall in H; [exact H|]. unfold stages. in_tac. }
    by destruct HI. }
  destruct (add_segments_returns (Competitive._segments self) T1 Hc) as [T' HT'].
  { right. eapply Forall_impl; [by eapply clean_listings_price|].
    by intros r [p ->]. }
  destruct (runs_elim _ _ _ _ _ (add_segments_to_df_runs (dom σ1) self σ1 T1 Hl1))
    as (_ & Hret & _); [done|].
  destruct (Hret T' HT') as (l' & Hl' & _ & Hnew).
  exists l', T'. split; [done|]. split; [done|].
  pose proof (add_segments_rows _ _ _ HT') as HF.
  apply Forall_forall. intros r' Hr'.
  apply list_elem_of_lookup in Hr' as [i Hi].
  destruct (Forall2_lookup_l _ _ _ _ _ HF Hi) as (r & _ & s & -> & Hs).
  exists s. split.
  - unfold cell. by rewrite lookup_insert_eq.
  - exact (scan_label _ _ _ Hs).
Qed.

Lemma add_segments_to_df_after_cleaning_witness :
  ∃ l' T',
    (Competitive.add_segments_to_df competitive6
       (clean_listings env0 cfg0 1%positive store0).2).1 = Ok l'
    ∧ (Competitive.add_segments_to_df competitive6
         (clean_listings env0 cfg0 1%positive store0).2).2 !! l' = Some T'
    ∧ Forall (λ r, ∃ s, cell "segment" r = VStr s
                        ∧ (s = "Other" ∨ s ∈ declared_labels competitive6)) (rows T').
Proof.
  apply (add_segments_to_df_after_cleaning env0 cfg0 1%positive store0 raw 6%positive
           competitive6).
  - vm_compute. reflexivity.
  - vm_compute. reflexivity.
  - reflexivity.
Defined.

(** X18. The outcomes of [add_segments_to_df]: without a column price it
    raises [KeyError("price")]; with the column, a segment declared and a
    price that is no number (a text, a list or a date) it raises
    [TypeError]; with the column and only numbers or missing values as
    prices, or with no segment declared, it returns. *)
Theorem add_segments_to_df_outcomes self σ T :
  σ !! Competitive.self_df self = Some T →
  (has_col "price" T = false →
   (Competitive.add_segments_to_df self σ).1 = Raise (KeyError "price"))
  ∧ (has_col "price" T = true → Competitive._segments self ≠ [] →
     Exists (λ r, is_numeric (cell "price" r) = false) (rows T) →
     (Competitive.add_segments_to_df self σ).1 = Raise TypeError)
  ∧ (has_col "price" T = true →
     Competitive._segments self = []
     ∨ Forall (λ r, is_numeric (cell "price" r) = true) (rows T) →
     ∃ l, (Competitive.add_segments_to_df self σ).1 = Ok l).
Proof.
  intros HT.
  destruct (runs_elim _ _ _ _ _ (add_segments_to_df_runs (dom σ) self σ T HT))
    as (_ & Hret & _ & Herr); [done|].
  split; [|split].
  - intros Hc. apply Herr.
    unfold Pure.add_segments, Pure.loadF, Pure.liftF, df_col. by rewrite Hc.
  - intros Hc Hs Hex. apply Herr.
    unfold Pure.add_segments, Pure.loadF, Pure.liftF, df_col. rewrite Hc.
    cbn [mbind result_mbind result_bind]. rewrite mapR_scan_raises; [done|done|].
    apply Exists_exists in Hex as (r & Hr & Hn).
    apply Exists_exists. exists (cell "price" r). split; [|done].
    by apply list_elem_of_fmap_2.
  - intros Hc H. destruct (add_segments_returns _ T Hc H) as [T' HT'].
    destruct (Hret T' HT') as (l & Hl & _). eauto.
Qed.

Lemma add_segments_to_df_outcomes_witness :
  (has_col "price" raw = false →
   (Competitive.add_segments_to_df competitive0 store0).1 = Raise (KeyError "price"))
  ∧ (has_col "price" raw = true → Competitive._segments competitive0 ≠ [] →
     Exists (λ r, is_numeric (cell "price" r) = false) (rows raw) →
     (Competitive.add_segments_to_df competitive0 store0).1 = Raise TypeError)
  ∧ (has_col "price" raw = true →
     Competitive._segments competitive0 = []
     ∨ Forall (λ r, is_numeric (cell "price" r) = true) (rows raw) →
     ∃ l, (Competitive.add_segments_to_df competitive0 store0).1 = Ok l).
Proof.
  apply (add_segments_to_df_outcomes competitive0 store0 raw).
  vm_compute. reflexivity.
Defined.

(** X19. [segment_by_price] works on a copy: whether it returns the summary
    or raises, every table that was in the store before the call, the
    analyzer's own included, is the same after it. *)
Theorem segment_by_price_keeps_store self σ T :
  σ !! Competitive.self_df self = Some T →
  (Competitive.segment_by_price self σ).2 !! Competitive.self_df self = Some T
  ∧ ∀ k, k ∈ dom σ → (Competitive.segment_by_price self σ).2 !! k = σ !! k.
Proof.
  intros HT.
  destruct (segment_by_price_frame (dom σ) self σ T HT) as (_ & Hfr & _); [done|].
  split; [|done]. rewrite Hfr; [done|]. by apply elem_of_dom.
Qed.

Lemma segment_by_price_keeps_store_witness :
  (Competitive.segment_by_price competitive0 store1).2 !! 1%positive = Some listed
  ∧ ∀ k, k ∈ dom store1 →
         (Competitive.segment_by_price competitive0 store1).2 !! k = store1 !! k.
Proof.
  apply (segment_by_price_keeps_store competitive0 store1 listed).
  vm_compute. reflexivity.
Defined.

End AnalysisProperties.
(** ** Market concentration at the edges *)

Module ConcentrationProperties.
Import Cleaner PipelineFacts StoreFacts AnalysisFacts CleanerFacts AnalyzerFacts.
Import KeyFacts MarketOverview.
Import Examples MoreExamples.

Lemma map_all_equal {A B} (f : A → B) (l : list A) (b : B) :
  Forall (λ x, f x = b) l → map f l = repeat b (length l).
Proof. induction 1 as [|x l Hx _ IH]; cbn; [done|]. by rewrite Hx, IH. Qed.

Lemma distinct_keys_seen h n :
  distinct_keys [h] (repeat h n) = [].
Proof.
  induction n as [|n IH]; cbn [repeat distinct_keys]; [done|].
  cbn [existsb]. rewrite FrameFacts.key_eq_refl. cbn [orb]. rewrite orb_true_r. exact IH.
Qed.

Lemma distinct_keys_one h n :
  isna h = false → distinct_keys [] (repeat h (S n)) = [h].
Proof.
  intros Hh. cbn [repeat distinct_keys existsb]. rewrite Hh. cbn [orb].
  by rewrite distinct_keys_seen.
Qed.

Lemma filter_key_eq_repeat h n :
  List.filter (key_eq h) (repeat h n) = repeat h n.
Proof.
  induction n as [|n IH]; cbn [repeat List.filter]; [done|].
  by rewrite FrameFacts.key_eq_refl, IH.
Qed.

Lemma share_of_self n : n ≠ 0%Z → share_of n n = (100 # 1)%Q.
Proof.
  intros Hn. unfold share_of.
  assert (Qred (inject_Z n / inject_Z n) = Qred 1) as ->; [|reflexivity].
  apply Qred_complete. field. unfold Qeq. cbn. lia.
Qed.

(** With one host the only share is 100 percent. *)
Lemma host_shares_single T h :
  rows T ≠ [] → isna h = false →
  Forall (λ r, cell "host_id" r = h) (rows T) →
  host_shares T = [fnum (100 # 1)]
  ∧ distinct_keys [] (map (cell "host_id") (rows T)) = [h].
Proof.
  intros Hne Hh Hall. unfold host_shares, value_counts.
  rewrite (map_all_equal _ _ _ Hall).
  destruct (rows T) as [|r rs]; [done|]. cbn [length].
  rewrite (distinct_keys_one h _ Hh). split; [|done].
  cbn [map fold_right insert_count snd].
  rewrite filter_key_eq_repeat, repeat_length. unfold of_nat.
  rewrite share_fnum by lia. by rewrite share_of_self by lia.
Qed.

(** Without any host there is no share. *)
Lemma distinct_keys_missing seen vals :
  Forall (λ v, isna v = true) vals → distinct_keys seen vals = [].
Proof.
  induction 1 as [|v vals Hv _ IH]; cbn [distinct_keys]; [done|].
  by rewrite Hv.
Qed.

(** X20. With a single host the market is a monopoly: when the table has
    at least one row and every row has the same host_id, which is not
    missing, [get_market_concentration] returns hhi = 10000, a top-10 share
    of 100 percent and one unique host. *)
Theorem market_concentration_single_host self σ T h :
  σ !! self_df self = Some T → has_col "host_id" T = true →
  rows T ≠ [] → isna h = false →
  Forall (λ r, cell "host_id" r = h) (rows T) →
  get_market_concentration self σ
  = (Ok ({[ "hhi" := VFloat (of_Z 10000);
            "top_10_host_share_pct" := VFloat (of_Z 100);
            "unique_hosts" := VInt 1 ]} : gmap string value), σ).
Proof.
  intros HT Hc Hne Hh Hall. unfold get_market_concentration.
  rewrite (bind_load _ _ σ T HT).
  rewrite (bind_lift_Ok _ _ _ σ (FrameFacts.df_col_has _ _ Hc)). cbn zeta.
  destruct (host_shares_single T h Hne Hh Hall) as [-> ->]. reflexivity.
Qed.

Lemma market_concentration_single_host_witness :
  get_market_concentration market0 store_one_host
  = (Ok ({[ "hhi" := VFloat (of_Z 10000);
            "top_10_host_share_pct" := VFloat (of_Z 100);
            "unique_hosts" := VInt 1 ]} : gmap string value), store_one_host).
Proof.
  apply (market_concentration_single_host market0 store_one_host one_host (VInt 7)).
  - vm_compute. reflexivity.
  - vm_compute. reflexivity.
  - discriminate.
  - reflexivity.
  - repeat apply List.Forall_cons; try apply List.Forall_nil; vm_compute; reflexivity.
Defined.

(** X21. The edges of [get_market_concentration]: without a column
    host_id it raises [KeyError("host_id")]; on a table with the column
    where no row names a host (an empty table, or every host_id missing) it
    returns hhi = 0, a top-10 share of 0 and no unique host.  The store is
    unchanged in both cases. *)
Theorem market_concentration_no_host self σ T :
  σ !! self_df self = Some T →
  (has_col "host_id" T = false →
   get_market_concentration self σ = (Raise (KeyError "host_id"), σ))
  ∧ (has_col "host_id" T = true →
     Forall (λ r, isna (cell "host_id" r) = true) (rows T) →
     get_market_concentration self σ
     = (Ok ({[ "hhi" := VFloat (of_Z 0);
               "top_10_host_share_pct" := VFloat (of_Z 0);
               "unique_hosts" := VInt 0 ]} : gmap string value), σ)).
Proof.
  intros HT. unfold get_market_concentration. rewrite (bind_load _ _ σ T HT).
  split.
  - intros Hc. rewrite bind_lift. unfold df_col. by rewrite Hc.
  - intros Hc Hall.
    rewrite (bind_lift_Ok _ _ _ σ (FrameFacts.df_col_has _ _ Hc)). cbn zeta.
    unfold host_shares, value_counts.
    rewrite (distinct_keys_missing [] (map (cell "host_id") (rows T)));
      [reflexivity|].
    by apply Forall_map.
Qed.

Lemma market_concentration_no_host_witness :
  (has_col "host_id" unpriced = false →
   get_market_concentration market0 store_unpriced
   = (Raise (KeyError "host_id"), store_unpriced))
  ∧ (has_col "host_id" unpriced = true →
     Forall (λ r, isna (cell "host_id" r) = true) (rows unpriced) →
     get_market_concentration market0 store_unpriced
     = (Ok ({[ "hhi" := VFloat (of_Z 0);
               "top_10_host_share_pct" := VFloat (of_Z 0);
               "unique_hosts" := VInt 0 ]} : gmap string value), store_unpriced)).
Proof.
  apply (market_concentration_no_host market0 store_unpriced unpriced).
  vm_compute. reflexivity.
Defined.

(** *** Bounds *)

(** The sum of [f] over a list. *)
Fixpoint nsum {A} (f : A → nat) (l : list A) : nat :=
  match l with
  | [] => 0%nat
  | x :: l' => (f x + nsum f l')%nat
  end.

(** The keys of [hs] equal to [v]. *)
Definition hits (hs : list value) (v : value) : nat :=
  length (List.filter (λ h, key_eq h v) hs).

Lemma hits_seen seen ks v :
  existsb (λ s, key_eq s v) seen = true → hits (distinct_keys seen ks) v = 0%nat.
Proof.
  revert seen. induction ks as [|k ks IH]; intros seen Hs; cbn [distinct_keys]; [done|].
  destruct (isna k || existsb (key_eq k) seen) eqn:E; [by apply IH|].
  apply orb_false_iff in E as [_ E]. unfold hits. cbn [List.filter].
  destruct (key_eq k v) eqn:Ekv.
  - exfalso. apply existsb_exists in Hs as (s & Hin & Hsv).
    assert (Hks : key_eq k s = true).
    { eapply key_eq_trans; [exact Ekv|]. by rewrite key_eq_sym. }
    assert (existsb (key_eq k) seen = true); [|congruence].
    apply existsb_exists. eauto.
  - apply IH. cbn [existsb]. by rewrite Hs, orb_true_r.
Qed.

Lemma hits_le_1 seen ks v : (hits (distinct_keys seen ks) v ≤ 1)%nat.
Proof.
  revert seen. induction ks as [|k ks IH]; intros seen; cbn [distinct_keys].
  - cbn. lia.
  - destruct (isna k || existsb (key_eq k) seen); [apply IH|].
    unfold hits. cbn [List.filter]. destruct (key_eq k v) eqn:Ekv.
    + cbn [length]. fold (hits (distinct_keys (k :: seen) ks) v).
      rewrite hits_seen; [lia|]. cbn [existsb]. by rewrite Ekv.
    + apply IH.
Qed.

Lemma length_filter_nsum {A} (p : A → bool) l :
  length (List.filter p l) = nsum (λ x, if p x then 1 else 0)%nat l.
Proof.
  induction l as [|x l IH]; cbn; [done|]. destruct (p x); cbn; by rewrite IH.
Qed.

Lemma nsum_add {A} (f g : A → nat) l :
  nsum (λ x, f x + g x)%nat l = (nsum f l + nsum g l)%nat.
Proof. induction l as [|x l IH]; cbn; [done|]. rewrite IH. lia. Qed.

Lemma nsum_ext {A} (f g : A → nat) l : (∀ x, f x = g x) → nsum f l = nsum g l.
Proof. intros H. induction l as [|x l IH]; cbn; [done|]. by rewrite H, IH. Qed.

Lemma nsum_le_length {A} (f : A → nat) l :
  (∀ x, (f x ≤ 1)%nat) → (nsum f l ≤ length l)%nat.
Proof.
  intros H. induction l as [|x l IH]; cbn; [lia|]. specialize (H x). lia.
Qed.

(** Counting the pairs of equal keys by host or by listing. *)
Lemma double_count hs vals :
  nsum (λ h, length (List.filter (key_eq h) vals)) hs = nsum (hits hs) vals.
Proof.
  induction hs as [|h hs IH]; cbn [nsum].
  - induction vals as [|v vals IHv]; cbn; [done|]. exact IHv.
  - rewrite IH.
    rewrite length_filter_nsum, <- nsum_add. apply nsum_ext. intros v.
    unfold hits. cbn [List.filter]. by destruct (key_eq h v).
Qed.

(** The listings counted for the hosts are listings of the table. *)
Lemma host_counts_le vals :
  (nsum (λ h, length (List.filter (key_eq h) vals)) (distinct_keys [] vals)
   ≤ length vals)%nat.
Proof. rewrite double_count. apply nsum_le_length. intros v. apply hits_le_1. Qed.

Lemma nsum_squares {A} (f : A → nat) l :
  (nsum (λ x, f x * f x) l ≤ nsum f l * nsum f l)%nat.
Proof. induction l as [|x l IH]; cbn; [lia|]. nia. Qed.

Lemma distinct_keys_length seen vals :
  (length (distinct_keys seen vals) ≤ length vals)%nat.
Proof.
  revert seen. induction vals as [|v vals IH]; intros seen; cbn [distinct_keys]; [done|].
  destruct (isna v || existsb (key_eq v) seen); cbn [length].
  - specialize (IH seen). lia.
  - specialize (IH (v :: seen)). lia.
Qed.

Lemma sq_share_sum {A} (n : Z) (cnt : A → nat) (hs : list A) :
  n ≠ 0 →
  (Qsum (map (λ h, (inject_Z (Z.of_nat (cnt h)) / inject_Z n * 100)
                   * (inject_Z (Z.of_nat (cnt h)) / inject_Z n * 100)) hs)
   == inject_Z (Z.of_nat (nsum (λ h, cnt h * cnt h)%nat hs))
      * (10000 / (inject_Z n * inject_Z n)))%Q.
Proof.
  intros Hn.
  assert (Hq : ¬ (inject_Z n == 0)%Q) by (unfold Qeq; cbn; lia).
  induction hs as [|h hs IH]; cbn [map Qsum fold_right nsum].
  - cbn. field. done.
  - fold (Qsum (map (λ h, (inject_Z (Z.of_nat (cnt h)) / inject_Z n * 100)
                   * (inject_Z (Z.of_nat (cnt h)) / inject_Z n * 100))%Q hs)).
    rewrite IH, Nat2Z.inj_add, Nat2Z.inj_mul, inject_Z_plus, inject_Z_mult.
    field. done.
Qed.

Lemma scaled_bound (a n : Z) :
  0 < n → 0 <= a <= n * n →
  (0 <= inject_Z a * (10000 / (inject_Z n * inject_Z n))
   ∧ inject_Z a * (10000 / (inject_Z n * inject_Z n)) <= 10000)%Q.
Proof.
  intros Hn [Ha Han].
  assert (Hb : (0 < inject_Z n * inject_Z n)%Q).
  { rewrite <- inject_Z_mult. change 0%Q with (inject_Z 0). rewrite <- Zlt_Qlt. nia. }
  assert (Hc : (0 <= 10000 / (inject_Z n * inject_Z n))%Q).
  { apply Qle_shift_div_l; [done|]. rewrite Qmult_0_l. done. }
  split.
  - apply Qmult_le_0_compat; [|done]. change 0%Q with (inject_Z 0).
    by rewrite <- Zle_Qle.
  - assert (He : (10000 == (inject_Z n * inject_Z n)
                           * (10000 / (inject_Z n * inject_Z n)))%Q).
    { field. intros H. rewrite H in Hb. by apply Qlt_irrefl in Hb. }
    eapply Qle_trans;
      [apply (Qmult_le_compat_r _ (inject_Z n * inject_Z n)); [|done]|].
    + rewrite <- inject_Z_mult. by rewrite <- Zle_Qle.
    + rewrite <- He. apply Qle_refl.
Qed.

Lemma hhi_bounds T q :
  (q == Qsum (map (λ h, share_pct T h * share_pct T h) (hosts T)))%Q →
  (0 <= q ∧ q <= 10000)%Q.
Proof.
  intros ->. destruct (rows T) as [|r0 rs] eqn:Hrows.
  { unfold hosts. rewrite Hrows. cbn. split; done. }
  set (vals := map (cell "host_id") (rows T)).
  assert (HN : Z.of_nat (length (rows T)) ≠ 0) by (rewrite Hrows; cbn; lia).
  unfold share_pct, host_count, hosts. fold vals.
  rewrite (sq_share_sum _ (λ h, length (List.filter (key_eq h) vals)) _ HN).
  apply scaled_bound; [lia|]. split; [lia|].
  pose proof (nsum_squares (λ h, length (List.filter (key_eq h) vals))
                (distinct_keys [] vals)) as H1.
  pose proof (host_counts_le vals) as H2.
  assert (length vals = length (rows T)) as Hl by apply length_map.
  nia.
Qed.

Lemma insert_desc_perm x l : Permutation (insert_desc x l) (x :: l).
Proof.
  induction l as [|y l IH]; cbn; [done|].
  destruct (fle y x); [done|]. rewrite IH. apply perm_swap.
Qed.

Lemma sort_desc_perm l : Permutation (fold_right insert_desc [] l) l.
Proof.
  induction l as [|x l IH]; cbn; [done|]. rewrite insert_desc_perm. by constructor.
Qed.

Lemma Qsum_nonneg qs : Forall (λ q, (0 <= q)%Q) qs → (0 <= Qsum qs)%Q.
Proof.
  induction 1 as [|q qs Hq _ IH]; cbn; [done|].
  fold (Qsum qs). apply (Qplus_le_compat 0 q 0 (Qsum qs)); done.
Qed.

Lemma Qsum_take_le n qs :
  Forall (λ q, (0 <= q)%Q) qs → (Qsum (take n qs) <= Qsum qs)%Q.
Proof.
  intros H. revert n. induction H as [|q qs Hq Hqs IH]; intros [|n]; cbn.
  - done.
  - done.
  - fold (Qsum qs). apply (Qplus_le_compat 0 q 0 (Qsum qs)); [done|].
    by apply Qsum_nonneg.
  - fold (Qsum qs) (Qsum (take n qs)). apply Qplus_le_compat; [apply Qle_refl|apply IH].
Qed.

Lemma share_sum {A} (n : Z) (cnt : A → nat) (hs : list A) :
  n ≠ 0 →
  (Qsum (map (λ h, inject_Z (Z.of_nat (cnt h)) / inject_Z n * 100) hs)
   == inject_Z (Z.of_nat (nsum cnt hs)) * (100 / inject_Z n))%Q.
Proof.
  intros Hn.
  assert (Hq : ¬ (inject_Z n == 0)%Q) by (unfold Qeq; cbn; lia).
  induction hs as [|h hs IH]; cbn [map Qsum fold_right nsum].
  - cbn. field. done.
  - fold (Qsum (map (λ h, inject_Z (Z.of_nat (cnt h)) / inject_Z n * 100)%Q hs)).
    rewrite IH, Nat2Z.inj_add, inject_Z_plus. field. done.
Qed.

Lemma scaled_bound1 (a n : Z) :
  0 < n → 0 <= a <= n →
  (0 <= inject_Z a * (100 / inject_Z n)
   ∧ inject_Z a * (100 / inject_Z n) <= 100)%Q.
Proof.
  intros Hn [Ha Han].
  assert (Hb : (0 < inject_Z n)%Q).
  { change 0%Q with (inject_Z 0). by rewrite <- Zlt_Qlt. }
  assert (Hc : (0 <= 100 / inject_Z n)%Q).
  { apply Qle_shift_div_l; [done|]. rewrite Qmult_0_l. done. }
  split.
  - apply Qmult_le_0_compat; [|done]. change 0%Q with (inject_Z 0).
    by rewrite <- Zle_Qle.
  - assert (He : (100 == inject_Z n * (100 / inject_Z n))%Q).
    { field. intros H. rewrite H in Hb. by apply Qlt_irrefl in Hb. }
    eapply Qle_trans; [apply (Qmult_le_compat_r _ (inject_Z n)); [|done]|].
    + by rewrite <- Zle_Qle.
    + rewrite <- He. apply Qle_refl.
Qed.

(** The shares of the hosts as rationals. *)
Lemma host_shares_fnum T :
  rows T ≠ [] →
  host_shares T
  = map fnum (map (λ kc : value * Z, share_of (Z.of_nat (length (rows T))) kc.2)
                  (value_counts (map (cell "host_id") (rows T)))).
Proof.
  intros Hne. unfold host_shares. rewrite map_map. apply map_ext. intros [k c].
  cbn [snd]. unfold of_nat. rewrite share_fnum; [done|].
  destruct (rows T); [done|]. cbn. lia.
Qed.

Lemma top_share_bounds T :
  ∃ t, fsum (nlargest 10 (host_shares T)) = fnum t ∧ (0 <= t)%Q ∧ (t <= 100)%Q.
Proof.
  destruct (rows T) as [|r0 rs] eqn:Hrows.
  { exists 0%Q. unfold host_shares. rewrite Hrows. cbn. done. }
  assert (Hne : rows T ≠ []) by (by rewrite Hrows).
  assert (HN : 0 < Z.of_nat (length (rows T))) by (rewrite Hrows; cbn; lia).
  clear Hrows. set (n := Z.of_nat (length (rows T))) in *.
  set (vals := map (cell "host_id") (rows T)).
  set (cnt := λ h, length (List.filter (key_eq h) vals)).
  set (qs0 := map (λ h, share_of n (Z.of_nat (cnt h))) (distinct_keys [] vals)).
  assert (Hperm : Permutation
            (map (λ kc : value * Z, share_of n kc.2) (value_counts vals)) qs0).
  { unfold qs0, cnt, vals. rewrite (Permutation_map _ (value_counts_perm T)).
    unfold hosts, host_count. by rewrite map_map. }
  rewrite (host_shares_fnum T Hne). fold n vals. unfold nlargest.
  destruct (Permutation_map_inv fnum _ (sort_desc_perm
      (map fnum (map (λ kc : value * Z, share_of n kc.2) (value_counts vals)))))
    as (qs' & -> & Hqs').
  rewrite firstn_map.
  destruct (fsum_fnum (take 10 qs')) as (t & -> & _ & Ht).
  exists t. split; [done|].
  assert (Hpos0 : Forall (λ q, (0 <= q)%Q) qs0).
  { unfold qs0. apply Forall_map, Forall_forall. intros h _. cbn.
    rewrite share_of_eq.
    apply Qmult_le_0_compat; [|done]. apply Qle_shift_div_l.
    - change 0%Q with (inject_Z 0). by rewrite <- Zlt_Qlt.
    - rewrite Qmult_0_l. change 0%Q with (inject_Z 0). rewrite <- Zle_Qle. lia. }
  assert (Hp : Permutation qs0 qs').
  { etransitivity; [symmetry; exact Hperm|]. exact Hqs'. }
  assert (Hpos : Forall (λ q, (0 <= q)%Q) qs').
  { by eapply Permutation_Forall. }
  assert (Hsum : (Qsum qs' == inject_Z (Z.of_nat (nsum cnt (distinct_keys [] vals)))
                              * (100 / inject_Z n))%Q).
  { rewrite <- (Qsum_perm _ _ Hp). unfold qs0.
    rewrite <- (share_sum n cnt _ ltac:(lia)).
    apply Qsum_ext. intros h. apply share_of_eq. }
  destruct (scaled_bound1 (Z.of_nat (nsum cnt (distinct_keys [] vals))) n HN) as [_ Hle].
  { split; [lia|]. unfold n. apply Nat2Z.inj_le.
    etransitivity; [apply host_counts_le|]. unfold vals. by rewrite length_map. }
  rewrite Ht. split.
  - apply Qsum_nonneg. by apply Forall_take.
  - eapply Qle_trans; [by apply Qsum_take_le|]. by rewrite Hsum.
Qed.

(** X22. The ranges of [get_market_concentration]: on every table with a
    column host_id it returns, with an hhi between 0 and 10000, a top-10
    share that is not negative, and a number of unique hosts between 0 and
    the number of rows.  (Shares are exact rationals here; the top-10 share
    is at most 100 in exact arithmetic, see [top_share_bounds], which
    rounding of the sum can exceed by one unit in the last place.) *)
Theorem market_concentration_bounds self σ T :
  σ !! self_df self = Some T → has_col "host_id" T = true →
  ∃ out q t u,
    get_market_concentration self σ = (Ok out, σ)
    ∧ out !! "hhi" = Some (VFloat (fnum q)) ∧ (0 <= q)%Q ∧ (q <= 10000)%Q
    ∧ out !! "top_10_host_share_pct" = Some (VFloat (fnum t))
    ∧ (0 <= t)%Q
    ∧ out !! "unique_hosts" = Some (VInt u)
    ∧ 0 <= u <= Z.of_nat (length (rows T)).
Proof.
  intros HT Hc. unfold get_market_concentration.
  rewrite (bind_load _ _ σ T HT).
  rewrite (bind_lift_Ok _ _ _ σ (FrameFacts.df_col_has _ _ Hc)). cbn zeta.
  destruct (hhi_formula T) as (q & -> & _ & Heq).
  destruct (hhi_bounds T q Heq) as [Hq0 Hq1].
  destruct (top_share_bounds T) as (t & -> & Ht0 & _).
  eexists _, q, t, _. split; [reflexivity|].
  split; [apply lookup_insert_eq|]. split; [done|]. split; [done|].
  split; [rewrite lookup_insert_ne by done; apply lookup_insert_eq|].
  split; [done|]. split.
  - rewrite lookup_insert_ne by done. rewrite lookup_insert_ne by done.
    apply lookup_singleton_eq.
  - split; [lia|]. apply Nat2Z.inj_le.
    etransitivity; [apply distinct_keys_length|]. by rewrite length_map.
Qed.

Lemma market_concentration_bounds_witness :
  ∃ out q t u,
    get_market_concentration market0 store1 = (Ok out, store1)
    ∧ out !! "hhi" = Some (VFloat (fnum q)) ∧ (0 <= q)%Q ∧ (q <= 10000)%Q
    ∧ out !! "top_10_host_share_pct" = Some (VFloat (fnum t))
    ∧ (0 <= t)%Q
    ∧ out !! "unique_hosts" = Some (VInt u)
    ∧ 0 <= u <= Z.of_nat (length (rows listed)).
Proof.
  apply (market_concentration_bounds market0 store1 listed).
  - vm_compute. reflexivity.
  - vm_compute. reflexivity.
Defined.

End ConcentrationProperties.
